(** * ExprLib: parser, evaluator and function registry

    A shallow embedding of the library source [exprlib.c] (found in
    [src/main.c], after the demonstration program) and of
    [include/exprlib.h].

    - A C [double] is a primitive binary64 float ([PrimFloat.float]); the
      arithmetic operators [+ - * /] and the comparisons [== < >] of the
      source are the IEEE operations of [PrimFloat].
    - The functions of the C mathematical library ([pow], [sin], ...) are
      not part of the repository: they are taken as a record [Libm], and
      every statement holds for whatever implementation is linked.
    - The process-wide variables [EXPRLIB_ERROR], [g_functions] and
      [g_constants] are threaded explicitly.
    - A [const char **] cursor is the remaining suffix of the text; reading
      the terminating NUL is reading past the last character.
    - Allocation is assumed to succeed, and the diagnostics written with
      [printf] are not modelled.
    - Behaviour that C leaves undefined (in [factorial]: the conversion to
      [int] of a value out of range, the overflow of the loop counter) is
      an outcome of its own, [UndefinedBehaviour] for the native function
      and [Undefined] for the evaluation, of which nothing is stated. *)

From Stdlib Require Import Bool List ZArith Lia String Ascii Floats.
Import ListNotations.

#[local] Set Warnings "-register-all,-inexact-float".

Local Open Scope string_scope.
Local Open Scope Z_scope.

(** ** Error codes ([ExprLibError]) *)

Inductive ExprLibError : Type :=
| EXPRLIB_SUCCESS
| EXPRLIB_ERROR_SYNTAX
| EXPRLIB_ERROR_UNDEFINED_VARIABLE
| EXPRLIB_ERROR_DIVISION_BY_ZERO
| EXPRLIB_ERROR_MALLOC_FAILED
| EXPRLIB_ERROR_INVALID_ARGUMENT
| EXPRLIB_ERROR_FUNCTION_NOT_FOUND
| EXPRLIB_ERROR_NULL
| EXPRLIB_ERROR_DUPLICATE_FUNCTION
| EXPRLIB_ERROR_UNKNOWN.

Definition is_success (e : ExprLibError) : bool :=
  match e with EXPRLIB_SUCCESS => true | _ => false end.

(** ** Abstract syntax ([struct ExprNode]) *)

Inductive ExprNode : Type :=
| EXPR_NODE_NUMBER (number : float)
| EXPR_NODE_VARIABLE (variable_name : string)
| EXPR_NODE_OPERATOR (op : ascii) (left right : ExprNode)
| EXPR_NODE_FUNCTION_CALL (name : string) (args : list ExprNode).

(** ** Environment and registry entries *)

(** [ExprLibVariable]: the [double *] slot is read at evaluation time only,
    so a context is the list of names with the values the slots hold when
    the library is called. *)
Record ExprLibVariable : Type := mkVariable {
  var_name : string;
  var_value : float
}.

Definition ExprContext : Type := list ExprLibVariable.

Record ExprLibConstant : Type := mkConstant {
  const_name : string;
  const_value : float
}.

(** What a native function does when it is called: it returns a double and
    leaves some value in [EXPRLIB_ERROR]; or one of its [assert]s fails and
    the process is aborted; or it runs into behaviour that C leaves
    undefined (a conversion to [int] of a value out of range, the overflow
    of an [int] counter), of which nothing is said here: no value is
    attributed to such a call, and it need not return at all. *)
Inductive native_result : Type :=
| Returned (value : float) (err : ExprLibError)
| AssertionFailed
| UndefinedBehaviour.

(** [ExprLibFnPtr]: a native function receives the argument array (with its
    length) and may read and write [EXPRLIB_ERROR]. *)
Definition ExprLibFnPtr : Type := list float -> ExprLibError -> native_result.

Record ExprLibFunction : Type := mkFunction {
  fn_name : string;
  fn_arity : Z;       (* -1 = variadic *)
  fn_ptr : ExprLibFnPtr
}.

(** The functions of [<math.h>] the library calls. [sqrt] and [fabs] are
    exact IEEE operations and are taken from [PrimFloat]. *)
Record Libm : Type := mkLibm {
  m_sin : float -> float;
  m_cos : float -> float;
  m_tan : float -> float;
  m_asin : float -> float;
  m_acos : float -> float;
  m_atan : float -> float;
  m_pow : float -> float -> float;
  m_cbrt : float -> float;
  m_log : float -> float;
  m_log10 : float -> float;
  m_exp : float -> float;
  m_floor : float -> float;
  m_ceil : float -> float;
  m_round : float -> float
}.

(** ** Characters and cursors *)

Definition char_code (c : ascii) : Z := Z.of_N (N_of_ascii c).

(** The character under the cursor. *)
Definition peek (s : string) : ascii :=
  match s with
  | EmptyString => Ascii.zero
  | String c _ => c
  end.

(** The cursor moved one character forward. (The code only moves it over a
    character it has just read and found not to be NUL, unless
    [parse_binary_rhs] is entered with a negative [expr_prec].) *)
Definition advance (s : string) : string :=
  match s with
  | EmptyString => EmptyString
  | String _ rest => rest
  end.

(** The loop that moves the cursor over the spaces [' ']. *)
Fixpoint skip_spaces (s : string) : string :=
  match s with
  | String c rest => if Ascii.eqb c " " then skip_spaces rest else s
  | EmptyString => EmptyString
  end.

Definition is_digit (c : ascii) : bool :=
  (char_code "0" <=? char_code c) && (char_code c <=? char_code "9").

Definition is_alpha (c : ascii) : bool :=
  ((char_code "a" <=? char_code c) && (char_code c <=? char_code "z"))
  || ((char_code "A" <=? char_code c) && (char_code c <=? char_code "Z")).

Definition is_ident_char (c : ascii) : bool :=
  is_alpha c || is_digit c || Ascii.eqb c "_".

(** Conversion of a C [int] to [double]. *)
Definition double_of_int (z : Z) : float :=
  if z <? 0 then PrimFloat.opp (PrimFloat.of_uint63 (Uint63.of_Z (- z)))
  else PrimFloat.of_uint63 (Uint63.of_Z z).

(** ** Precedence table *)

Definition get_precedence (op : ascii) : Z :=
  if Ascii.eqb op "+" then 10
  else if Ascii.eqb op "-" then 10
  else if Ascii.eqb op "*" then 20
  else if Ascii.eqb op "/" then 20
  else if Ascii.eqb op "^" then 30
  else -1.

Definition is_right_associative (op : ascii) : bool := Ascii.eqb op "^".

(** ** Numeric literals ([parse_number]) *)

(** The integer-part loop: [value = value * 10 + (c - '0')]. *)
Fixpoint parse_int_digits (s : string) (value : float) (found : bool)
  : float * bool * string :=
  match s with
  | String c rest =>
      if is_digit c
      then parse_int_digits rest
             (value * 10 + double_of_int (char_code c - char_code "0"))%float
             true
      else (value, found, s)
  | EmptyString => (value, found, s)
  end.

(** The fractional-part loop: [value += (c - '0') * frac; frac *= 0.1]. *)
Fixpoint parse_frac_digits (s : string) (value frac : float)
  : float * string :=
  match s with
  | String c rest =>
      if is_digit c
      then parse_frac_digits rest
             (value + double_of_int (char_code c - char_code "0") * frac)%float
             (frac * 0.1)%float
      else (value, s)
  | EmptyString => (value, s)
  end.

Definition parse_number (s : string) : float * bool * string :=
  let s := skip_spaces s in
  let '(value, found, s) := parse_int_digits s 0%float false in
  if Ascii.eqb (peek s) "."
  then let '(value, s) := parse_frac_digits (advance s) value 0.1%float in
       (value, found, s)
  else (value, found, s).

(** The identifier loop of [parse_unary]: the scanned name and the cursor
    after it. *)
Fixpoint scan_identifier (s : string) : string * string :=
  match s with
  | String c rest =>
      if is_ident_char c
      then let '(name, s') := scan_identifier rest in (String c name, s')
      else (EmptyString, s)
  | EmptyString => (EmptyString, s)
  end.

(** ** Lookups *)

Fixpoint find_constant (cs : list ExprLibConstant) (name : string)
  : option float :=
  match cs with
  | [] => None
  | c :: rest =>
      if String.eqb (const_name c) name then Some (const_value c)
      else find_constant rest name
  end.

Fixpoint find_variable (context : ExprContext) (name : string)
  : option float :=
  match context with
  | [] => None
  | v :: rest =>
      if String.eqb (var_name v) name then Some (var_value v)
      else find_variable rest name
  end.

Definition is_defined_variable (g_constants : list ExprLibConstant)
  (name : string) (context : ExprContext) : bool :=
  if existsb (fun c => String.eqb (const_name c) name) g_constants then true
  else if existsb (fun v => String.eqb (var_name v) name) context then true
  else false.

(** ** Node constructors *)

(** Each of the three resets [EXPRLIB_ERROR] before it allocates. *)
Definition create_number_node (value : float) : ExprNode * ExprLibError :=
  (EXPR_NODE_NUMBER value, EXPRLIB_SUCCESS).

Definition create_variable_node (name : string) : ExprNode * ExprLibError :=
  (EXPR_NODE_VARIABLE name, EXPRLIB_SUCCESS).

Definition create_operator_node (op : ascii) (left right : ExprNode)
  : ExprNode * ExprLibError :=
  (EXPR_NODE_OPERATOR op left right, EXPRLIB_SUCCESS).

(** [create_function_node] does not touch [EXPRLIB_ERROR]. *)
Definition create_function_node (name : string) (args : list ExprNode)
  : ExprNode :=
  EXPR_NODE_FUNCTION_CALL name args.

(** ** The parser *)

(** What a parsing function hands back: a node, with the cursor and
    [EXPRLIB_ERROR] as it leaves them; or [NULL]; or [Starved] when the
    recursion budget of the embedding ran out (never the case in
    [exprlib_parse], see [exprlib_parse_returns]). *)
Inductive parsed (A : Type) : Type :=
| Built (node : A) (ptr : string) (err : ExprLibError)
| Null (err : ExprLibError)
| Starved.

Arguments Built {A} node ptr err.
Arguments Null {A} err.
Arguments Starved {A}.

(** The constant-folding [switch] of [parse_binary_rhs]: [inl] is the
    folded value, [inr] the error with which the parse is abandoned. *)
Definition fold_constants (libm : Libm) (op : ascii)
  (left_val right_val : float) : float + ExprLibError :=
  if Ascii.eqb op "+" then inl (left_val + right_val)%float
  else if Ascii.eqb op "-" then inl (left_val - right_val)%float
  else if Ascii.eqb op "*" then inl (left_val * right_val)%float
  else if Ascii.eqb op "/" then
    if (right_val =? 0)%float then inr EXPRLIB_ERROR_DIVISION_BY_ZERO
    else inl (left_val / right_val)%float
  else if Ascii.eqb op "^" then inl (m_pow libm left_val right_val)
  else inr EXPRLIB_ERROR_UNKNOWN.

Section Parser.

Variable libm : Libm.
Variable g_constants : list ExprLibConstant.
Variable context : ExprContext.

(** The four mutually recursive pieces of the parser. [parse_args] is the
    [for (;;)] loop over the arguments of a call; the [while (1)] loop of
    [parse_binary_rhs] is the recursive call that ends each iteration. *)
Fixpoint parse_unary (fuel : nat) (s : string) (e : ExprLibError)
  {struct fuel} : parsed ExprNode :=
  match fuel with
  | O => Starved
  | S fuel =>
    let s := skip_spaces s in
    if Ascii.eqb (peek s) "-" then
      (* unary minus *)
      match parse_unary fuel (advance s) e with
      | Starved => Starved
      | Null e => Null e
      | Built operand s e =>
        if negb (is_success e) then Null e else
        let '(zero, e) := create_number_node 0%float in
        if negb (is_success e) then Null e else
        let '(node, e) := create_operator_node "-" zero operand in
        if negb (is_success e) then Null e else
        Built node s e
      end
    else if Ascii.eqb (peek s) "(" then
      (* parenthesized expression *)
      match parse_internal fuel (advance s) e with
      | Starved => Starved
      | Null e => Null e
      | Built node s e =>
        if negb (is_success e) then Null e else
        if negb (Ascii.eqb (peek s) ")") then Null EXPRLIB_ERROR_SYNTAX
        else Built node (advance s) e
      end
    else
      (* number *)
      let '(number, found_number, s) := parse_number s in
      if found_number then
        let '(node, e) := create_number_node number in Built node s e
      else if is_alpha (peek s) then
        (* variable or function call *)
        let '(name, s) := scan_identifier s in
        let look := skip_spaces s in
        if Ascii.eqb (peek look) "(" then
          let s := skip_spaces (advance look) in
          let arguments :=
            if negb (Ascii.eqb (peek s) ")") then parse_args fuel s e []
            else Built [] s e in
          match arguments with
          | Starved => Starved
          | Null e => Null e
          | Built args s e =>
            if negb (Ascii.eqb (peek s) ")") then Null EXPRLIB_ERROR_SYNTAX
            else Built (create_function_node name args) (advance s) e
          end
        else if negb (is_defined_variable g_constants name context) then
          Null EXPRLIB_ERROR_UNDEFINED_VARIABLE
        else
          let '(node, e) := create_variable_node name in Built node s e
      else Null EXPRLIB_ERROR_SYNTAX
  end

with parse_args (fuel : nat) (s : string) (e : ExprLibError)
  (args : list ExprNode) {struct fuel} : parsed (list ExprNode) :=
  match fuel with
  | O => Starved
  | S fuel =>
    match parse_internal fuel s e with
    | Starved => Starved
    | Null e => Null e
    | Built arg s e =>
      if negb (is_success e) then Null e else
      let args := (args ++ [arg])%list in
      let s := skip_spaces s in
      if Ascii.eqb (peek s) "," then
        parse_args fuel (skip_spaces (advance s)) e args
      else if Ascii.eqb (peek s) ")" then Built args s e
      else Null EXPRLIB_ERROR_SYNTAX
    end
  end

with parse_binary_rhs (fuel : nat) (expr_prec : Z) (lhs : ExprNode)
  (s : string) (e : ExprLibError) {struct fuel} : parsed ExprNode :=
  match fuel with
  | O => Starved
  | S fuel =>
    let s := skip_spaces s in
    let op := peek s in
    let tok_prec := get_precedence op in
    if tok_prec <? expr_prec then Built lhs s e else
    match parse_unary fuel (advance s) e with
    | Starved => Starved
    | Null e => Null e
    | Built rhs s e =>
      let s := skip_spaces s in
      let next_prec := get_precedence (peek s) in
      let climbed :=
        if (tok_prec <? next_prec)
           || ((tok_prec =? next_prec) && is_right_associative op)
        then parse_binary_rhs fuel (tok_prec + 1) rhs s e
        else Built rhs s e in
      match climbed with
      | Starved => Starved
      | Null e => Null e
      | Built rhs s e =>
        match lhs, rhs with
        | EXPR_NODE_NUMBER left_val, EXPR_NODE_NUMBER right_val =>
          match fold_constants libm op left_val right_val with
          | inr failure => Null failure
          | inl result =>
            let '(lhs, e) := create_number_node result in
            if negb (is_success e) then Null e
            else parse_binary_rhs fuel expr_prec lhs s e
          end
        | _, _ =>
          let '(lhs, e) := create_operator_node op lhs rhs in
          if negb (is_success e) then Null e
          else parse_binary_rhs fuel expr_prec lhs s e
        end
      end
    end
  end

with parse_internal (fuel : nat) (s : string) (e : ExprLibError)
  {struct fuel} : parsed ExprNode :=
  match fuel with
  | O => Starved
  | S fuel =>
    match parse_unary fuel s e with
    | Starved => Starved
    | Null e => Null e
    | Built lhs s e =>
      if negb (is_success e) then Null e
      else parse_binary_rhs fuel 0 lhs s e
    end
  end.

(** A budget no parse exhausts: three nested calls per character. *)
Definition parse_budget (expression : string) : nat :=
  3 * String.length expression + 3.

(** [exprlib_parse]: the node ([None] for [NULL]) and [EXPRLIB_ERROR] at
    return. The error is reset on entry, whatever it held. *)
Definition exprlib_parse (expression : string)
  : option (option ExprNode * ExprLibError) :=
  match parse_internal (parse_budget expression) expression EXPRLIB_SUCCESS with
  | Starved => None
  | Null e => Some (None, e)
  | Built node _ e => Some (Some node, e)
  end.

End Parser.

(** ** The registry *)

(** The process-wide variables of [exprlib.c]. *)
Record Globals : Type := mkGlobals {
  g_functions : list ExprLibFunction;
  g_constants : list ExprLibConstant;
  EXPRLIB_ERROR : ExprLibError
}.

Definition set_error (e : ExprLibError) (g : Globals) : Globals :=
  mkGlobals (g_functions g) (g_constants g) e.

Definition exprlib_register_constant (name : string) (value : float)
  (g : Globals) : bool * Globals :=
  (true,
   mkGlobals (g_functions g)
     (g_constants g ++ [mkConstant name value])%list
     (EXPRLIB_ERROR g)).

(** [find_function]: the first entry with that name. *)
Fixpoint find_function (fs : list ExprLibFunction) (name : string)
  : option ExprLibFunction :=
  match fs with
  | [] => None
  | f :: rest =>
      if String.eqb (fn_name f) name then Some f
      else find_function rest name
  end.

(** [exprlib_register_function]. [name] and [fn] are pointers and may be
    [NULL] ([None]). *)
Definition exprlib_register_function (name : option string) (arity : Z)
  (fn : option ExprLibFnPtr) (g : Globals) : bool * Globals :=
  match name, fn with
  | Some (String c rest), Some fn =>
      let name := String c rest in
      if arity <? -1 then (false, set_error EXPRLIB_ERROR_INVALID_ARGUMENT g)
      else if existsb (fun f => String.eqb (fn_name f) name) (g_functions g)
      then (false, set_error EXPRLIB_ERROR_DUPLICATE_FUNCTION g)
      else (true,
            mkGlobals (g_functions g ++ [mkFunction name arity fn])%list
              (g_constants g) (EXPRLIB_ERROR g))
  | _, _ => (false, set_error EXPRLIB_ERROR_NULL g)
  end.

(** ** Built-in functions *)

(** A built-in of one argument: [assert(n == 1); return f(a[0]);]. *)
Definition unary_builtin (f : float -> float) : ExprLibFnPtr :=
  fun a e =>
    match a with
    | [x] => Returned (f x) e
    | _ => AssertionFailed
    end.

Section Builtins.

Variable libm : Libm.

Definition fn_sin := unary_builtin (m_sin libm).
Definition fn_cos := unary_builtin (m_cos libm).
Definition fn_tan := unary_builtin (m_tan libm).
Definition fn_cot := unary_builtin (fun x => 1 / m_tan libm x)%float.
Definition fn_sec := unary_builtin (fun x => 1 / m_cos libm x)%float.
Definition fn_cosec := unary_builtin (fun x => 1 / m_sin libm x)%float.
Definition fn_asin := unary_builtin (m_asin libm).
Definition fn_acos := unary_builtin (m_acos libm).
Definition fn_atan := unary_builtin (m_atan libm).

Definition fn_pow : ExprLibFnPtr :=
  fun a e =>
    match a with
    | [x; y] => Returned (m_pow libm x y) e
    | _ => AssertionFailed
    end.

Definition fn_sqrt := unary_builtin PrimFloat.sqrt.
Definition fn_cbrt := unary_builtin (m_cbrt libm).
Definition fn_log := unary_builtin (m_log libm).
Definition fn_log10 := unary_builtin (m_log10 libm).
Definition fn_exp := unary_builtin (m_exp libm).
Definition fn_abs := unary_builtin PrimFloat.abs.
Definition fn_floor := unary_builtin (m_floor libm).
Definition fn_ceil := unary_builtin (m_ceil libm).
Definition fn_round := unary_builtin (m_round libm).

End Builtins.

(** The constants of [<math.h>]. *)
Definition M_PI : float := 3.14159265358979323846%float.
Definition M_E : float := 2.7182818284590452354%float.
Definition M_SQRT2 : float := 1.41421356237309504880%float.
Definition M_LN2 : float := 0.69314718055994530942%float.
Definition M_LN10 : float := 2.30258509299404568402%float.
Definition M_LOG2E : float := 1.4426950408889634074%float.
Definition M_LOG10E : float := 0.43429448190325182765%float.

Definition fn_deg2rad := unary_builtin (fun x => x * (M_PI / 180))%float.
Definition fn_rad2deg := unary_builtin (fun x => x * (180 / M_PI))%float.

(** [fn_min]: [assert(n >= 1)], then the scan from [a[0]]. *)
Definition fn_min : ExprLibFnPtr :=
  fun a e =>
    match a with
    | [] => AssertionFailed
    | a0 :: rest =>
        Returned
          (fold_left
             (fun min_val ai => if (ai <? min_val)%float then ai else min_val)
             rest a0)
          e
    end.

(** [fn_max]: the comparison [a[i] > max_val] is [max_val < a[i]]. *)
Definition fn_max : ExprLibFnPtr :=
  fun a e =>
    match a with
    | [] => AssertionFailed
    | a0 :: rest =>
        Returned
          (fold_left
             (fun max_val ai => if (max_val <? ai)%float then ai else max_val)
             rest a0)
          e
    end.

Definition INT_MIN : Z := - 2 ^ 31.
Definition INT_MAX : Z := 2 ^ 31 - 1.

(** The conversion [(int)x]: truncation toward zero. Outside the range of
    [int] (and for NaN) C leaves it undefined; the value taken here is the
    one the x86-64 conversion instruction delivers. The library converts
    in [factorial] only, which is modelled with the value where the
    conversion is defined ([int_convertible]) and as undefined elsewhere. *)
Definition int_of_double (x : float) : Z :=
  match Prim2SF x with
  | S754_zero _ => 0
  | S754_finite sign m e =>
      let magnitude :=
        if 0 <=? e then Z.pos m * 2 ^ e else Z.pos m / 2 ^ (- e) in
      let z := if sign then - magnitude else magnitude in
      if (INT_MIN <=? z) && (z <=? INT_MAX) then z else INT_MIN
  | _ => INT_MIN
  end.

(** Whether [(int)x] is defined: [x] is finite and its truncation toward
    zero is a value of [int]. *)
Definition int_convertible (x : float) : bool :=
  match Prim2SF x with
  | S754_zero _ => true
  | S754_finite sign m e =>
      let magnitude :=
        if 0 <=? e then Z.pos m * 2 ^ e else Z.pos m / 2 ^ (- e) in
      let z := if sign then - magnitude else magnitude in
      (INT_MIN <=? z) && (z <=? INT_MAX)
  | _ => false
  end.

(** The loop [for (int i = 1; i <= x; i++) result *= i] of [factorial],
    entered with the [int] counter at [i]: [x] is the value of [(int)a[0]].
    The test comes first; after the body the counter is incremented, which
    at [INT_MAX] is an overflow of a signed [int], undefined in C ([None];
    compiled with wrap-around the test then never fails and the loop does
    not end). [count] bounds the iterations of the embedding: from [i = 1]
    the loop makes [x] of them (see [factorial_loop_below] and
    [factorial_loop_at_INT_MAX]). *)
Fixpoint factorial_loop (count : nat) (x i : Z) (result : float)
  : option float :=
  if negb (i <=? x) then Some result
  else if i =? INT_MAX then None
  else match count with
       | O => None
       | S count =>
           factorial_loop count x (i + 1) (result * double_of_int i)%float
       end.

(** What [factorial] computes past its guard: undefined when the conversion
    of the argument is, or when the counter of the loop overflows. *)
Definition factorial_value (x : float) : option float :=
  if int_convertible x
  then factorial_loop (Z.to_nat (int_of_double x)) (int_of_double x) 1 1%float
  else None.

Definition factorial : ExprLibFnPtr :=
  fun a e =>
    match a with
    | [x] =>
        if (x <? 0)%float then Returned 0%float EXPRLIB_ERROR_INVALID_ARGUMENT
        else match factorial_value x with
             | Some result => Returned result e
             | None => UndefinedBehaviour
             end
    | _ => AssertionFailed
    end.

(** In [nCr] and [nPr] the inner calls of [factorial] come after the guard
    and receive arguments that are not below zero, so they leave
    [EXPRLIB_ERROR] alone; the call is undefined as soon as one of them
    is. *)
Definition nCr : ExprLibFnPtr :=
  fun a e =>
    match a with
    | [n; r] =>
        if (n <? 0)%float || (r <? 0)%float || (n <? r)%float
        then Returned 0%float EXPRLIB_ERROR_INVALID_ARGUMENT
        else match factorial_value n, factorial_value r,
                   factorial_value (n - r) with
             | Some of_n, Some of_r, Some of_rest =>
                 Returned (of_n / (of_r * of_rest))%float e
             | _, _, _ => UndefinedBehaviour
             end
    | _ => AssertionFailed
    end.

Definition nPr : ExprLibFnPtr :=
  fun a e =>
    match a with
    | [n; r] =>
        if (n <? 0)%float || (r <? 0)%float || (n <? r)%float
        then Returned 0%float EXPRLIB_ERROR_INVALID_ARGUMENT
        else match factorial_value n, factorial_value (n - r) with
             | Some of_n, Some of_rest => Returned (of_n / of_rest)%float e
             | _, _ => UndefinedBehaviour
             end
    | _ => AssertionFailed
    end.

(** ** Initialisation *)

(** A statement [exprlib_register_function(name, arity, fn);] whose result
    is discarded. *)
Definition register_function_stmt (name : string) (arity : Z)
  (fn : ExprLibFnPtr) (g : Globals) : Globals :=
  snd (exprlib_register_function (Some name) arity (Some fn) g).

Definition register_constant_stmt (name : string) (value : float)
  (g : Globals) : Globals :=
  snd (exprlib_register_constant name value g).

Definition exprlib_register_builtins (libm : Libm) (g : Globals) : Globals :=
  let g := register_function_stmt "sin" 1 (fn_sin libm) g in
  let g := register_function_stmt "cos" 1 (fn_cos libm) g in
  let g := register_function_stmt "tan" 1 (fn_tan libm) g in
  let g := register_function_stmt "cot" 1 (fn_cot libm) g in
  let g := register_function_stmt "sec" 1 (fn_sec libm) g in
  let g := register_function_stmt "cosec" 1 (fn_cosec libm) g in
  let g := register_function_stmt "asin" 1 (fn_asin libm) g in
  let g := register_function_stmt "acos" 1 (fn_acos libm) g in
  let g := register_function_stmt "atan" 1 (fn_atan libm) g in
  let g := register_function_stmt "pow" 2 (fn_pow libm) g in
  let g := register_function_stmt "sqrt" 1 fn_sqrt g in
  let g := register_function_stmt "cbrt" 1 (fn_cbrt libm) g in
  let g := register_function_stmt "ln" 1 (fn_log libm) g in
  let g := register_function_stmt "log10" 1 (fn_log10 libm) g in
  let g := register_function_stmt "exp" 1 (fn_exp libm) g in
  let g := register_function_stmt "abs" 1 fn_abs g in
  let g := register_function_stmt "floor" 1 (fn_floor libm) g in
  let g := register_function_stmt "ceil" 1 (fn_ceil libm) g in
  let g := register_function_stmt "round" 1 (fn_round libm) g in
  let g := register_function_stmt "deg2rad" 1 fn_deg2rad g in
  let g := register_function_stmt "rad2deg" 1 fn_rad2deg g in
  let g := register_function_stmt "min" (-1) fn_min g in
  let g := register_function_stmt "max" (-1) fn_max g in
  let g := register_function_stmt "factorial" 1 factorial g in
  let g := register_function_stmt "nCr" 2 nCr g in
  let g := register_function_stmt "nPr" 2 nPr g in
  let g := register_constant_stmt "pi" M_PI g in
  let g := register_constant_stmt "e" M_E g in
  let g := register_constant_stmt "tau" (2 * M_PI)%float g in
  let g := register_constant_stmt "phi" ((1 + PrimFloat.sqrt 5) / 2)%float g in
  let g := register_constant_stmt "sqrt2" M_SQRT2 g in
  let g := register_constant_stmt "sqrt3" (PrimFloat.sqrt 3) g in
  let g := register_constant_stmt "sqrt5" (PrimFloat.sqrt 5) g in
  let g := register_constant_stmt "ln2" M_LN2 g in
  let g := register_constant_stmt "ln10" M_LN10 g in
  let g := register_constant_stmt "log2e" M_LOG2E g in
  let g := register_constant_stmt "log10e" M_LOG10E g in
  let g := register_constant_stmt "invpi" (1 / M_PI)%float g in
  let g := register_constant_stmt "inv2pi" (1 / (2 * M_PI))%float g in
  g.

(** [exprlib_init] empties the function table (not the constant table) and
    registers the built-ins. *)
Definition exprlib_init (libm : Libm) (g : Globals) : Globals :=
  exprlib_register_builtins libm
    (mkGlobals [] (g_constants g) (EXPRLIB_ERROR g)).

(** The variables of the process at start-up. *)
Definition startup : Globals := mkGlobals [] [] EXPRLIB_SUCCESS.

(** ** The evaluator *)

(** The state an evaluation threads: [EXPRLIB_ERROR], and a ghost record of
    the native functions invoked so far, each with the arguments it was
    given (oldest first). The record is not read by the code; it is what
    statements about "the native function is (not) invoked" speak of. *)
Record eval_state : Type := mkEval {
  error : ExprLibError;
  invoked : list (string * list float)
}.

Definition fail_with (e : ExprLibError) (st : eval_state) : eval_state :=
  mkEval e (invoked st).

(** An evaluation returns a double, or the process is aborted by a failed
    assertion of a native function, or a native function runs into
    undefined behaviour, after which nothing is said of the evaluation
    ([st] is the state in which the native function was entered). *)
Inductive outcome : Type :=
| Value (v : float) (st : eval_state)
| Aborted (st : eval_state)
| Undefined (st : eval_state).

(** The [switch] on the operator tag in [evaluate_node]. *)
Definition apply_operator (libm : Libm) (op : ascii)
  (left_val right_val : float) (st : eval_state) : outcome :=
  if Ascii.eqb op "+" then Value (left_val + right_val)%float st
  else if Ascii.eqb op "-" then Value (left_val - right_val)%float st
  else if Ascii.eqb op "*" then Value (left_val * right_val)%float st
  else if Ascii.eqb op "/" then
    if (right_val =? 0)%float
    then Value 0%float (fail_with EXPRLIB_ERROR_DIVISION_BY_ZERO st)
    else Value (left_val / right_val)%float st
  else if Ascii.eqb op "^" then Value (m_pow libm left_val right_val) st
  else Value 0%float (fail_with EXPRLIB_ERROR_UNKNOWN st).

Section Evaluator.

Variable libm : Libm.
Variable functions : list ExprLibFunction.
Variable constants : list ExprLibConstant.
Variable context : ExprContext.

(** The call through the function pointer, [fn->fn(argv, argc)]. *)
Definition invoke (f : ExprLibFunction) (argv : list float)
  (st : eval_state) : outcome :=
  let called := (invoked st ++ [(fn_name f, argv)])%list in
  match fn_ptr f argv (error st) with
  | Returned v e => Value v (mkEval e called)
  | AssertionFailed => Aborted (mkEval (error st) called)
  | UndefinedBehaviour => Undefined (mkEval (error st) called)
  end.

Fixpoint evaluate_node (node : ExprNode) (st : eval_state) : outcome :=
  match node with
  | EXPR_NODE_NUMBER number => Value number st
  | EXPR_NODE_VARIABLE variable_name =>
      match find_constant constants variable_name with
      | Some value => Value value st
      | None =>
          match find_variable context variable_name with
          | Some value => Value value st
          | None =>
              Value 0%float (fail_with EXPRLIB_ERROR_UNDEFINED_VARIABLE st)
          end
      end
  | EXPR_NODE_OPERATOR op left_node right_node =>
      match evaluate_node left_node st with
      | Aborted st => Aborted st
      | Undefined st => Undefined st
      | Value left_val st =>
          if negb (is_success (error st)) then Value 0%float st else
          match evaluate_node right_node st with
          | Aborted st => Aborted st
          | Undefined st => Undefined st
          | Value right_val st =>
              if negb (is_success (error st)) then Value 0%float st
              else apply_operator libm op left_val right_val st
          end
      end
  | EXPR_NODE_FUNCTION_CALL name args =>
      match find_function functions name with
      | None => Value 0%float (fail_with EXPRLIB_ERROR_UNKNOWN st)
      | Some fn =>
          let argc := Z.of_nat (List.length args) in
          if negb (fn_arity fn =? -1) && negb (fn_arity fn =? argc)
          then Value 0%float (fail_with EXPRLIB_ERROR_SYNTAX st)
          else
            (* for (i = 0; i < argc; ++i) argv[i] = evaluate_node(args[i]);
               the loop is left early only when an argument does not
               return *)
            let fill :=
              (fix fill (args : list ExprNode) (argv : list float)
                 (st : eval_state) : list float * eval_state + outcome :=
                 match args with
                 | [] => inl (argv, st)
                 | arg :: rest =>
                     match evaluate_node arg st with
                     | Value v st => fill rest (argv ++ [v])%list st
                     | Aborted st => inr (Aborted st)
                     | Undefined st => inr (Undefined st)
                     end
                 end) in
            match fill args [] st with
            | inl (argv, st) => invoke fn argv st
            | inr no_return => no_return
            end
      end
  end.

End Evaluator.

(** [exprlib_evaluate]: [expr] may be [NULL] ([None]); [EXPRLIB_ERROR] is
    reset on entry. *)
Definition exprlib_evaluate (libm : Libm) (g : Globals)
  (expr : option ExprNode) (context : ExprContext) : outcome :=
  let st := mkEval EXPRLIB_SUCCESS [] in
  match expr with
  | None => Value 0%float (fail_with EXPRLIB_ERROR_UNKNOWN st)
  | Some node =>
      evaluate_node libm (g_functions g) (g_constants g) context node st
  end.

(** The argument loop of the [EXPR_NODE_FUNCTION_CALL] case, by itself:
    the values stored in [argv] and the state after the last argument, or
    what the argument did that did not return. *)
Fixpoint argument_loop (libm : Libm) (functions : list ExprLibFunction)
  (constants : list ExprLibConstant) (context : ExprContext)
  (args : list ExprNode) (argv : list float) (st : eval_state)
  : list float * eval_state + outcome :=
  match args with
  | [] => inl (argv, st)
  | arg :: rest =>
      match evaluate_node libm functions constants context arg st with
      | Value v st =>
          argument_loop libm functions constants context rest
            (argv ++ [v])%list st
      | Aborted st => inr (Aborted st)
      | Undefined st => inr (Undefined st)
      end
  end.

(** The same loop as a triple: the values stored in [argv], the state
    after the last argument evaluated, and whether an argument ended the
    evaluation there. *)
Fixpoint fill_arguments (libm : Libm) (functions : list ExprLibFunction)
  (constants : list ExprLibConstant) (context : ExprContext)
  (args : list ExprNode) (argv : list float) (st : eval_state)
  : list float * eval_state * bool :=
  match args with
  | [] => (argv, st, false)
  | arg :: rest =>
      match evaluate_node libm functions constants context arg st with
      | Aborted st => (argv, st, true)
      | Undefined st => (argv, st, true)
      | Value v st =>
          fill_arguments libm functions constants context rest
            (argv ++ [v])%list st
      end
  end.

(** ** An instance of the [<math.h>] interface

    Used to run the definitions on concrete inputs. [pow] is computed by
    repeated multiplication when the exponent is a whole number from 0 to
    1023 (exact whenever the power is representable, as the C function
    is); no run below calls anything else, and the rest answers NaN. *)
Definition test_pow (x y : float) : float :=
  let n := int_of_double y in
  if (double_of_int n =? y)%float && (0 <=? n) && (n <? 1024)
  then Nat.iter (Z.to_nat n) (fun acc => (acc * x)%float) 1%float
  else nan.

Definition test_libm : Libm :=
  let undefined := fun _ : float => nan in
  mkLibm undefined undefined undefined undefined undefined undefined
    test_pow undefined undefined undefined undefined undefined undefined
    undefined.

(** The library as [exprlib_init] leaves it in a fresh process. *)
Definition initialized (libm : Libm) : Globals := exprlib_init libm startup.

(** [exprlib_parse] against the constants of [g], then [exprlib_evaluate]
    of the tree it returned, as a host program chains them ([None] when the
    parse returned [NULL]). *)
Definition parse_then_evaluate (libm : Libm) (g : Globals)
  (expression : string) (context : ExprContext) : option outcome :=
  match exprlib_parse libm (g_constants g) context expression with
  | Some (Some node, _) => Some (exprlib_evaluate libm g (Some node) context)
  | _ => None
  end.

(** ** The calls the parser makes

    A call of one of the four parsing functions, with the cursor and
    [EXPRLIB_ERROR] it is entered with. *)
Inductive call : Type :=
| parse_unary_call (fuel : nat) (s : string) (e : ExprLibError)
| parse_args_call (fuel : nat) (s : string) (e : ExprLibError)
    (args : list ExprNode)
| parse_binary_rhs_call (fuel : nat) (expr_prec : Z) (lhs : ExprNode)
    (s : string) (e : ExprLibError)
| parse_internal_call (fuel : nat) (s : string) (e : ExprLibError).

(** The combination step of [parse_binary_rhs]: the left-hand side the
    loop goes on with, or the error of a fold that fails. *)
Definition combine (libm : Libm) (op : ascii) (lhs rhs : ExprNode)
  : ExprNode + ExprLibError :=
  match lhs, rhs with
  | EXPR_NODE_NUMBER left_val, EXPR_NODE_NUMBER right_val =>
      match fold_constants libm op left_val right_val with
      | inl result => inl (EXPR_NODE_NUMBER result)
      | inr failure => inr failure
      end
  | _, _ => inl (EXPR_NODE_OPERATOR op lhs rhs)
  end.

Section CallGraph.

Variable libm : Libm.
Variable g_constants : list ExprLibConstant.
Variable context : ExprContext.

(** [makes c c']: the body of the call [c], as it runs, makes the call
    [c'] (directly: one entry for each call in the body of each of the four
    functions, under the tests that lead to it; the next iteration of a
    loop counts as a call). *)
Inductive makes : call -> call -> Prop :=
| operand_of_minus fuel s e :
    Ascii.eqb (peek (skip_spaces s)) "-" = true ->
    makes (parse_unary_call (S fuel) s e)
      (parse_unary_call fuel (advance (skip_spaces s)) e)
| inside_parentheses fuel s e :
    Ascii.eqb (peek (skip_spaces s)) "-" = false ->
    Ascii.eqb (peek (skip_spaces s)) "(" = true ->
    makes (parse_unary_call (S fuel) s e)
      (parse_internal_call fuel (advance (skip_spaces s)) e)
| arguments_of_call fuel s e number s1 name s2 :
    Ascii.eqb (peek (skip_spaces s)) "-" = false ->
    Ascii.eqb (peek (skip_spaces s)) "(" = false ->
    parse_number (skip_spaces s) = (number, false, s1) ->
    is_alpha (peek s1) = true ->
    scan_identifier s1 = (name, s2) ->
    Ascii.eqb (peek (skip_spaces s2)) "(" = true ->
    Ascii.eqb (peek (skip_spaces (advance (skip_spaces s2)))) ")" = false ->
    makes (parse_unary_call (S fuel) s e)
      (parse_args_call fuel (skip_spaces (advance (skip_spaces s2))) e [])
| argument fuel s e args :
    makes (parse_args_call (S fuel) s e args) (parse_internal_call fuel s e)
| next_argument fuel s e args arg s1 e1 :
    parse_internal libm g_constants context fuel s e = Built arg s1 e1 ->
    is_success e1 = true ->
    Ascii.eqb (peek (skip_spaces s1)) "," = true ->
    makes (parse_args_call (S fuel) s e args)
      (parse_args_call fuel (skip_spaces (advance (skip_spaces s1))) e1
         (args ++ [arg]))
| right_operand fuel expr_prec lhs s e :
    (get_precedence (peek (skip_spaces s)) <? expr_prec) = false ->
    makes (parse_binary_rhs_call (S fuel) expr_prec lhs s e)
      (parse_unary_call fuel (advance (skip_spaces s)) e)
| tighter_operator fuel expr_prec lhs s e rhs s1 e1 :
    (get_precedence (peek (skip_spaces s)) <? expr_prec) = false ->
    parse_unary libm g_constants context fuel (advance (skip_spaces s)) e
    = Built rhs s1 e1 ->
    (get_precedence (peek (skip_spaces s))
     <? get_precedence (peek (skip_spaces s1)))
    || ((get_precedence (peek (skip_spaces s))
         =? get_precedence (peek (skip_spaces s1)))
        && is_right_associative (peek (skip_spaces s))) = true ->
    makes (parse_binary_rhs_call (S fuel) expr_prec lhs s e)
      (parse_binary_rhs_call fuel
         (get_precedence (peek (skip_spaces s)) + 1) rhs (skip_spaces s1)
         e1)
| next_operator fuel expr_prec lhs s e rhs s1 e1 rhs' s2 e2 lhs' :
    (get_precedence (peek (skip_spaces s)) <? expr_prec) = false ->
    parse_unary libm g_constants context fuel (advance (skip_spaces s)) e
    = Built rhs s1 e1 ->
    (if (get_precedence (peek (skip_spaces s))
         <? get_precedence (peek (skip_spaces s1)))
        || ((get_precedence (peek (skip_spaces s))
             =? get_precedence (peek (skip_spaces s1)))
            && is_right_associative (peek (skip_spaces s)))
     then parse_binary_rhs libm g_constants context fuel
            (get_precedence (peek (skip_spaces s)) + 1) rhs
            (skip_spaces s1) e1
     else Built rhs (skip_spaces s1) e1)
    = Built rhs' s2 e2 ->
    combine libm (peek (skip_spaces s)) lhs rhs' = inl lhs' ->
    makes (parse_binary_rhs_call (S fuel) expr_prec lhs s e)
      (parse_binary_rhs_call fuel expr_prec lhs' s2 EXPRLIB_SUCCESS)
| first_operand fuel s e :
    makes (parse_internal_call (S fuel) s e) (parse_unary_call fuel s e)
| operators fuel s e lhs s1 e1 :
    parse_unary libm g_constants context fuel s e = Built lhs s1 e1 ->
    is_success e1 = true ->
    makes (parse_internal_call (S fuel) s e)
      (parse_binary_rhs_call fuel 0 lhs s1 e1).

(** [comes_to c c']: the call [c'] is [c] or is made, at any depth, in the
    course of [c]. *)
Inductive comes_to : call -> call -> Prop :=
| comes_here c : comes_to c c
| comes_further c c' c'' : makes c c' -> comes_to c' c'' -> comes_to c c''.

(** The call returns [NULL] with the error [e]. *)
Definition fails_with (c : call) (failure : ExprLibError) : Prop :=
  match c with
  | parse_unary_call fuel s e =>
      parse_unary libm g_constants context fuel s e = Null failure
  | parse_args_call fuel s e args =>
      parse_args libm g_constants context fuel s e args = Null failure
  | parse_binary_rhs_call fuel expr_prec lhs s e =>
      parse_binary_rhs libm g_constants context fuel expr_prec lhs s e
      = Null failure
  | parse_internal_call fuel s e =>
      parse_internal libm g_constants context fuel s e = Null failure
  end.

(** The call exhausts the budget of the embedding. *)
Definition starves (c : call) : Prop :=
  match c with
  | parse_unary_call fuel s e =>
      parse_unary libm g_constants context fuel s e = Starved
  | parse_args_call fuel s e args =>
      parse_args libm g_constants context fuel s e args = Starved
  | parse_binary_rhs_call fuel expr_prec lhs s e =>
      parse_binary_rhs libm g_constants context fuel expr_prec lhs s e
      = Starved
  | parse_internal_call fuel s e =>
      parse_internal libm g_constants context fuel s e = Starved
  end.

End CallGraph.

(** ** Cutting the text after an expression

    [clean_cut rest]: text that can follow an expression without being read
    as part of it. Its first character does not continue a number or a
    name (no digit, letter, [_] or [.]), and its first character after the
    spaces is neither a binary operator nor an opening parenthesis. *)
Definition clean_cut (rest : string) : bool :=
  negb (is_ident_char (peek rest))
  && negb (Ascii.eqb (peek rest) ".")
  && negb (Ascii.eqb (peek (skip_spaces rest)) "(")
  && (get_precedence (peek (skip_spaces rest)) <? 0).

(** The cursor [t] in the text extended by [rest] that corresponds to the
    cursor [s] in the text itself: the same suffix with [rest] after it,
    possibly with the leading spaces of [rest] passed once [s] is at the
    end. *)
Definition follows (rest s t : string) : Prop :=
  (s <> "" /\ t = s ++ rest)
  \/ (s = "" /\ (t = rest \/ t = skip_spaces rest)).

(** The same after the spaces under the cursor were skipped. *)
Definition follows_skipped (rest s t : string) : Prop :=
  (s <> "" /\ t = s ++ rest) \/ (s = "" /\ t = skip_spaces rest).

(** A result on the text itself is carried over to the extended text: a
    node comes out as the same node, with the same error code and the
    cursor that follows. *)
Definition carried {A : Type} (rest : string) (on_text on_extended : parsed A)
  : Prop :=
  match on_text with
  | Built node s e =>
      exists t, on_extended = Built node t e /\ follows rest s t
  | _ => True
  end.

(** A result whose error code agrees with it: a node comes with
    [EXPRLIB_SUCCESS], [NULL] with an error. *)
Definition coherent {A : Type} (r : parsed A) : Prop :=
  match r with
  | Built _ _ e => e = EXPRLIB_SUCCESS
  | Null e => e <> EXPRLIB_SUCCESS
  | Starved => True
  end.

(** ** Sequences of registrations *)

(** A call [exprlib_register_function(name, arity, fn)] as a host program
    makes it, and a run of such calls one after the other, their results
    discarded. *)
Record registration : Type := mkRegistration {
  reg_name : option string;
  reg_arity : Z;
  reg_fn : option ExprLibFnPtr
}.

Definition register_all (calls : list registration) (g : Globals) : Globals :=
  fold_left
    (fun g call =>
       snd (exprlib_register_function (reg_name call) (reg_arity call)
              (reg_fn call) g))
    calls g.

(** ** Shapes of trees *)

(** A tree as the parser may build it: every variable node names a
    constant or a variable of the context, and every operator node carries
    one of the five operators. *)
Fixpoint well_formed (cs : list ExprLibConstant) (context : ExprContext)
  (node : ExprNode) : bool :=
  match node with
  | EXPR_NODE_NUMBER _ => true
  | EXPR_NODE_VARIABLE name => is_defined_variable cs name context
  | EXPR_NODE_OPERATOR op left_node right_node =>
      (0 <=? get_precedence op)
      && well_formed cs context left_node
      && well_formed cs context right_node
  | EXPR_NODE_FUNCTION_CALL _ args => forallb (well_formed cs context) args
  end.

(** A tree without function calls. *)
Fixpoint call_free (node : ExprNode) : bool :=
  match node with
  | EXPR_NODE_NUMBER _ | EXPR_NODE_VARIABLE _ => true
  | EXPR_NODE_OPERATOR _ left_node right_node =>
      call_free left_node && call_free right_node
  | EXPR_NODE_FUNCTION_CALL _ _ => false
  end.

(** [mentions name node]: some variable node of the tree has that name. *)
Fixpoint mentions (name : string) (node : ExprNode) : bool :=
  match node with
  | EXPR_NODE_NUMBER _ => false
  | EXPR_NODE_VARIABLE variable_name => String.eqb variable_name name
  | EXPR_NODE_OPERATOR _ left_node right_node =>
      mentions name left_node || mentions name right_node
  | EXPR_NODE_FUNCTION_CALL _ args => existsb (mentions name) args
  end.

(** The errors a parse can end with. *)
Definition is_parse_error (e : ExprLibError) : bool :=
  match e with
  | EXPRLIB_ERROR_SYNTAX
  | EXPRLIB_ERROR_UNDEFINED_VARIABLE
  | EXPRLIB_ERROR_DIVISION_BY_ZERO => true
  | _ => false
  end.

(** What a parsing function may hand back when it is entered with no error
    pending: a node of the expected shape, or [NULL] with a parse error. *)
Definition sound_result {A : Type} (shape : A -> bool) (r : parsed A)
  : Prop :=
  match r with
  | Built node _ e => e = EXPRLIB_SUCCESS /\ shape node = true
  | Null e => is_parse_error e = true
  | Starved => True
  end.

(** A tree in which no call of [min] or [max] has an empty argument
    list. *)
Fixpoint no_empty_extremum (node : ExprNode) : bool :=
  match node with
  | EXPR_NODE_NUMBER _ | EXPR_NODE_VARIABLE _ => true
  | EXPR_NODE_OPERATOR _ left_node right_node =>
      no_empty_extremum left_node && no_empty_extremum right_node
  | EXPR_NODE_FUNCTION_CALL name args =>
      negb ((String.eqb name "min" || String.eqb name "max")
            && match args with [] => true | _ => false end)
      && forallb no_empty_extremum args
  end.

(** A tree in which no call has the name of one of the three built-ins
    that convert their argument to [int]. *)
Fixpoint no_counting_call (node : ExprNode) : bool :=
  match node with
  | EXPR_NODE_NUMBER _ | EXPR_NODE_VARIABLE _ => true
  | EXPR_NODE_OPERATOR _ left_node right_node =>
      no_counting_call left_node && no_counting_call right_node
  | EXPR_NODE_FUNCTION_CALL name args =>
      negb (String.eqb name "factorial" || String.eqb name "nCr"
            || String.eqb name "nPr")
      && forallb no_counting_call args
  end.

(** ** Texts read to the end *)

(** [parses_to text node]: [exprlib_parse] builds [node] from [text] and
    stops at the end of the text, nothing left unread. *)
Definition parses_to (libm : Libm) (cs : list ExprLibConstant)
  (context : ExprContext) (text : string) (node : ExprNode) : Prop :=
  parse_internal libm cs context (parse_budget text) text EXPRLIB_SUCCESS
  = Built node "" EXPRLIB_SUCCESS.

(** The texts of an argument list, with [","] between them. *)
Fixpoint comma_separated (texts : list string) : string :=
  match texts with
  | [] => ""
  | [text] => text
  | text :: rest => text ++ "," ++ comma_separated rest
  end.

(** The characters an operand can begin with, as [parse_unary] and
    [parse_number] test them. *)
Definition starts_operand (c : ascii) : bool :=
  Ascii.eqb c "-" || Ascii.eqb c "(" || is_digit c || Ascii.eqb c "."
  || is_alpha c.

(** All the characters of a text are digits. *)
Fixpoint all_digits (s : string) : bool :=
  match s with
  | EmptyString => true
  | String c rest => is_digit c && all_digits rest
  end.

(** ** Counting functions, as mathematics has them *)

(** The double nearest to a natural number below 2^63. *)
Definition whole (z : Z) : float := PrimFloat.of_uint63 (Uint63.of_Z z).

(** [n!]. *)
Fixpoint product_up_to (n : nat) : Z :=
  match n with
  | O => 1
  | S k => Z.of_nat n * product_up_to k
  end.

(** The number of [r]-element subsets of an [n]-element set, by Pascal's
    rule. *)
Fixpoint subsets (n r : nat) : Z :=
  match n, r with
  | _, O => 1
  | O, S _ => 0
  | S n', S r' => subsets n' r' + subsets n' r
  end.

(** The number of sequences of [r] distinct elements out of [n]. *)
Fixpoint arrangements (n r : nat) : Z :=
  match r, n with
  | O, _ => 1
  | S _, O => 0
  | S r', S n' => Z.of_nat n * arrangements n' r'
  end.

(** ** Error codes of an evaluation *)

(** The codes an evaluation with the built-in functions can end with. *)
Definition is_evaluation_code (e : ExprLibError) : bool :=
  match e with
  | EXPRLIB_SUCCESS
  | EXPRLIB_ERROR_SYNTAX
  | EXPRLIB_ERROR_UNDEFINED_VARIABLE
  | EXPRLIB_ERROR_DIVISION_BY_ZERO
  | EXPRLIB_ERROR_INVALID_ARGUMENT
  | EXPRLIB_ERROR_UNKNOWN => true
  | _ => false
  end.

(** [EXPRLIB_ERROR] when the evaluation ends, by return or by abort (for
    an evaluation that runs into undefined behaviour: when it does). *)
Definition final_error (o : outcome) : ExprLibError :=
  match o with
  | Value _ st => error st
  | Aborted st => error st
  | Undefined st => error st
  end.

(* ================================================================== *)
(** * Properties *)
(* ================================================================== *)

(** ** The parser: unfolding equations *)

#[local] Arguments parse_unary : simpl never.
#[local] Arguments parse_args : simpl never.
#[local] Arguments parse_binary_rhs : simpl never.
#[local] Arguments parse_internal : simpl never.

Section ParserFacts.

Variable libm : Libm.
Variable cs : list ExprLibConstant.
Variable context : ExprContext.

Lemma parse_unary_eq (fuel : nat) (s : string) (e : ExprLibError) :
  parse_unary libm cs context (S fuel) s e
  = let s := skip_spaces s in
    if Ascii.eqb (peek s) "-" then
      match parse_unary libm cs context fuel (advance s) e with
      | Starved => Starved
      | Null e => Null e
      | Built operand s e =>
        if negb (is_success e) then Null e else
        let '(zero, e) := create_number_node 0%float in
        if negb (is_success e) then Null e else
        let '(node, e) := create_operator_node "-" zero operand in
        if negb (is_success e) then Null e else
        Built node s e
      end
    else if Ascii.eqb (peek s) "(" then
      match parse_internal libm cs context fuel (advance s) e with
      | Starved => Starved
      | Null e => Null e
      | Built node s e =>
        if negb (is_success e) then Null e else
        if negb (Ascii.eqb (peek s) ")") then Null EXPRLIB_ERROR_SYNTAX
        else Built node (advance s) e
      end
    else
      let '(number, found_number, s) := parse_number s in
      if found_number then
        let '(node, e) := create_number_node number in Built node s e
      else if is_alpha (peek s) then
        let '(name, s) := scan_identifier s in
        let look := skip_spaces s in
        if Ascii.eqb (peek look) "(" then
          let s := skip_spaces (advance look) in
          let arguments :=
            if negb (Ascii.eqb (peek s) ")")
            then parse_args libm cs context fuel s e []
            else Built [] s e in
          match arguments with
          | Starved => Starved
          | Null e => Null e
          | Built args s e =>
            if negb (Ascii.eqb (peek s) ")") then Null EXPRLIB_ERROR_SYNTAX
            else Built (create_function_node name args) (advance s) e
          end
        else if negb (is_defined_variable cs name context) then
          Null EXPRLIB_ERROR_UNDEFINED_VARIABLE
        else
          let '(node, e) := create_variable_node name in Built node s e
      else Null EXPRLIB_ERROR_SYNTAX.
Proof. reflexivity. Qed.

Lemma parse_args_eq (fuel : nat) (s : string) (e : ExprLibError)
  (args : list ExprNode) :
  parse_args libm cs context (S fuel) s e args
  = match parse_internal libm cs context fuel s e with
    | Starved => Starved
    | Null e => Null e
    | Built arg s e =>
      if negb (is_success e) then Null e else
      let args := (args ++ [arg])%list in
      let s := skip_spaces s in
      if Ascii.eqb (peek s) "," then
        parse_args libm cs context fuel (skip_spaces (advance s)) e args
      else if Ascii.eqb (peek s) ")" then Built args s e
      else Null EXPRLIB_ERROR_SYNTAX
    end.
Proof. reflexivity. Qed.

(** One turn of the loop of [parse_binary_rhs]. *)
Lemma parse_binary_rhs_eq (fuel : nat) (expr_prec : Z) (lhs : ExprNode)
  (s : string) (e : ExprLibError) :
  parse_binary_rhs libm cs context (S fuel) expr_prec lhs s e
  = let s := skip_spaces s in
    let op := peek s in
    let tok_prec := get_precedence op in
    if tok_prec <? expr_prec then Built lhs s e else
    match parse_unary libm cs context fuel (advance s) e with
    | Starved => Starved
    | Null e => Null e
    | Built rhs s e =>
      let s := skip_spaces s in
      let next_prec := get_precedence (peek s) in
      let climbed :=
        if (tok_prec <? next_prec)
           || ((tok_prec =? next_prec) && is_right_associative op)
        then parse_binary_rhs libm cs context fuel (tok_prec + 1) rhs s e
        else Built rhs s e in
      match climbed with
      | Starved => Starved
      | Null e => Null e
      | Built rhs s e =>
        match lhs, rhs with
        | EXPR_NODE_NUMBER left_val, EXPR_NODE_NUMBER right_val =>
          match fold_constants libm op left_val right_val with
          | inr failure => Null failure
          | inl result =>
            let '(lhs, e) := create_number_node result in
            if negb (is_success e) then Null e
            else parse_binary_rhs libm cs context fuel expr_prec lhs s e
          end
        | _, _ =>
          let '(lhs, e) := create_operator_node op lhs rhs in
          if negb (is_success e) then Null e
          else parse_binary_rhs libm cs context fuel expr_prec lhs s e
        end
      end
    end.
Proof. reflexivity. Qed.

Lemma parse_internal_eq (fuel : nat) (s : string) (e : ExprLibError) :
  parse_internal libm cs context (S fuel) s e
  = match parse_unary libm cs context fuel s e with
    | Starved => Starved
    | Null e => Null e
    | Built lhs s e =>
      if negb (is_success e) then Null e
      else parse_binary_rhs libm cs context fuel 0 lhs s e
    end.
Proof. reflexivity. Qed.

(** ** The recursion budget *)

(** A result obtained within some budget is the result within any larger
    one. *)
Lemma parse_fuel_succ (fuel : nat) :
  (forall s e,
     parse_unary libm cs context fuel s e <> Starved ->
     parse_unary libm cs context (S fuel) s e
     = parse_unary libm cs context fuel s e)
  /\ (forall s e args,
        parse_args libm cs context fuel s e args <> Starved ->
        parse_args libm cs context (S fuel) s e args
        = parse_args libm cs context fuel s e args)
  /\ (forall expr_prec lhs s e,
        parse_binary_rhs libm cs context fuel expr_prec lhs s e <> Starved ->
        parse_binary_rhs libm cs context (S fuel) expr_prec lhs s e
        = parse_binary_rhs libm cs context fuel expr_prec lhs s e)
  /\ (forall s e,
        parse_internal libm cs context fuel s e <> Starved ->
        parse_internal libm cs context (S fuel) s e
        = parse_internal libm cs context fuel s e).
Proof.
  induction fuel as [|fuel (IHu & IHa & IHb & IHi)].
  - repeat split; intros; exfalso; auto.
  - repeat split.
    + intros s e.
      rewrite (parse_unary_eq (S fuel)), (parse_unary_eq fuel). cbn zeta.
      destruct (Ascii.eqb (peek (skip_spaces s)) "-").
      { destruct (parse_unary libm cs context fuel _ e) eqn:E;
          [rewrite IHu, E by congruence; reflexivity
          |rewrite IHu, E by congruence; reflexivity
          |congruence]. }
      destruct (Ascii.eqb (peek (skip_spaces s)) "(").
      { destruct (parse_internal libm cs context fuel _ e) eqn:E;
          [rewrite IHi, E by congruence; reflexivity
          |rewrite IHi, E by congruence; reflexivity
          |congruence]. }
      destruct (parse_number (skip_spaces s)) as [[number found] s1].
      destruct found; [reflexivity|].
      destruct (is_alpha (peek s1)); [|reflexivity].
      destruct (scan_identifier s1) as [name s2].
      destruct (Ascii.eqb (peek (skip_spaces s2)) "("); [|reflexivity].
      destruct (negb (Ascii.eqb (peek (skip_spaces (advance (skip_spaces s2)))) ")"));
        [|reflexivity].
      destruct (parse_args libm cs context fuel _ e []) eqn:E;
        [rewrite IHa, E by congruence; reflexivity
        |rewrite IHa, E by congruence; reflexivity
        |congruence].
    + intros s e args.
      rewrite (parse_args_eq (S fuel)), (parse_args_eq fuel). cbn zeta.
      destruct (parse_internal libm cs context fuel s e) as [arg s1 e1|e1|] eqn:E;
        [rewrite IHi, E by congruence
        |rewrite IHi, E by congruence; reflexivity
        |congruence].
      destruct (negb (is_success e1)); [reflexivity|].
      destruct (Ascii.eqb (peek (skip_spaces s1)) ","); [|reflexivity].
      intros H. apply IHa. exact H.
    + intros expr_prec lhs s e.
      rewrite (parse_binary_rhs_eq (S fuel)), (parse_binary_rhs_eq fuel).
      cbn zeta.
      destruct (get_precedence (peek (skip_spaces s)) <? expr_prec);
        [reflexivity|].
      destruct (parse_unary libm cs context fuel _ e) as [rhs s1 e1|e1|] eqn:E;
        [rewrite IHu, E by congruence
        |rewrite IHu, E by congruence; reflexivity
        |congruence].
      match goal with
      | |- context [if ?c then _ else _] => destruct c
      end.
      * destruct (parse_binary_rhs libm cs context fuel _ rhs _ e1)
          as [rhs' s2 e2|e2|] eqn:E2;
          [rewrite IHb, E2 by congruence
          |rewrite IHb, E2 by congruence; reflexivity
          |congruence].
        destruct lhs, rhs'; cbn;
          try (intros H; apply IHb; exact H).
        destruct (fold_constants libm _ number number0); [|reflexivity].
        intros H; apply IHb; exact H.
      * destruct lhs, rhs; cbn;
          try (intros H; apply IHb; exact H).
        destruct (fold_constants libm _ number number0); [|reflexivity].
        intros H; apply IHb; exact H.
    + intros s e.
      rewrite (parse_internal_eq (S fuel)), (parse_internal_eq fuel).
      destruct (parse_unary libm cs context fuel s e) as [lhs s1 e1|e1|] eqn:E;
        [rewrite IHu, E by congruence
        |rewrite IHu, E by congruence; reflexivity
        |congruence].
      destruct (negb (is_success e1)); [reflexivity|].
      intros H; apply IHb; exact H.
Qed.

End ParserFacts.

(** ** The budget of [exprlib_parse] is never exhausted *)

Lemma skip_spaces_length (s : string) :
  (String.length (skip_spaces s) <= String.length s)%nat.
Proof.
  induction s as [|c s IH]; cbn; [lia|].
  destruct (Ascii.eqb c " "); cbn; lia.
Qed.

Lemma advance_length (s : string) :
  (String.length (advance s) <= String.length s)%nat.
Proof. destruct s; cbn; lia. Qed.

Lemma advance_at_char (s : string) (c : ascii) :
  c <> Ascii.zero -> Ascii.eqb (peek s) c = true ->
  S (String.length (advance s)) = String.length s.
Proof.
  intros Hc H. destruct s as [|c' s]; [|reflexivity].
  cbn [peek] in H. apply Ascii.eqb_eq in H. congruence.
Qed.

Lemma parse_int_digits_length (s : string) :
  forall value found v f s',
    parse_int_digits s value found = (v, f, s') ->
    (String.length s' <= String.length s)%nat
    /\ (f = true -> found = true \/ (String.length s' < String.length s)%nat).
Proof.
  induction s as [|c s IH]; intros value found v f s' H; cbn in H.
  - injection H as <- <- <-. cbn. auto.
  - destruct (is_digit c).
    + apply IH in H as [H1 H2]. cbn. split; [lia|].
      intros _. right. lia.
    + injection H as <- <- <-. auto.
Qed.

Lemma parse_frac_digits_length (s : string) :
  forall value frac v s',
    parse_frac_digits s value frac = (v, s') ->
    (String.length s' <= String.length s)%nat.
Proof.
  induction s as [|c s IH]; intros value frac v s' H; cbn in H.
  - injection H as <- <-. cbn. lia.
  - destruct (is_digit c).
    + apply IH in H. cbn. lia.
    + injection H as <- <-. lia.
Qed.

Lemma parse_number_length (s s' : string) (v : float) (f : bool) :
  parse_number s = (v, f, s') ->
  (String.length s' <= String.length s)%nat
  /\ (f = true -> (String.length s' < String.length s)%nat).
Proof.
  unfold parse_number. intros H.
  pose proof (skip_spaces_length s) as Hskip.
  destruct (parse_int_digits (skip_spaces s) 0 false) as [[v1 f1] s1] eqn:E.
  apply parse_int_digits_length in E as [E1 E2].
  destruct (Ascii.eqb (peek s1) ".").
  - destruct (parse_frac_digits (advance s1) v1 _) as [v2 s2] eqn:F.
    apply parse_frac_digits_length in F.
    pose proof (advance_length s1).
    injection H as <- <- <-. split; [lia|].
    intros Hf. destruct (E2 Hf); [discriminate | lia].
  - injection H as <- <- <-. split; [lia|].
    intros Hf. destruct (E2 Hf); [discriminate | lia].
Qed.

Lemma scan_identifier_length (s : string) :
  forall name s',
    scan_identifier s = (name, s') ->
    (String.length s' <= String.length s)%nat
    /\ (is_ident_char (peek s) = true -> s <> "" ->
        (String.length s' < String.length s)%nat).
Proof.
  induction s as [|c s IH]; intros name s' H; cbn in H.
  - injection H as <- <-. cbn. split; [lia | intros _ []; reflexivity].
  - cbn [peek]. destruct (is_ident_char c).
    + destruct (scan_identifier s) as [n1 s1] eqn:E.
      injection H as <- <-. destruct (IH _ _ eq_refl) as [H1 _].
      cbn. split; [lia | intros _ _; lia].
    + injection H as <- <-. split; [lia | discriminate].
Qed.

Lemma alpha_is_ident_char (s : string) :
  is_alpha (peek s) = true -> is_ident_char (peek s) = true /\ s <> "".
Proof.
  intros H. split.
  - unfold is_ident_char. rewrite H. reflexivity.
  - destruct s; [discriminate H | discriminate].
Qed.

Section Budget.

Variable libm : Libm.
Variable cs : list ExprLibConstant.
Variable context : ExprContext.

(** Every node is built from at least one character, and the cursor only
    moves forward. *)
Lemma parse_consumes (fuel : nat) :
  (forall s e node s' e',
     parse_unary libm cs context fuel s e = Built node s' e' ->
     (String.length s' < String.length s)%nat)
  /\ (forall s e args l s' e',
        parse_args libm cs context fuel s e args = Built l s' e' ->
        (String.length s' < String.length s)%nat)
  /\ (forall expr_prec lhs s e node s' e',
        parse_binary_rhs libm cs context fuel expr_prec lhs s e
        = Built node s' e' ->
        (String.length s' <= String.length s)%nat)
  /\ (forall s e node s' e',
        parse_internal libm cs context fuel s e = Built node s' e' ->
        (String.length s' < String.length s)%nat).
Proof.
  induction fuel as [|fuel (IHu & IHa & IHb & IHi)].
  - repeat split; intros; discriminate.
  - repeat split.
    + intros s e node s' e'. rewrite parse_unary_eq. cbn zeta.
      pose proof (skip_spaces_length s) as Hskip.
      destruct (Ascii.eqb (peek (skip_spaces s)) "-") eqn:Hminus.
      { apply advance_at_char in Hminus; [|discriminate].
        destruct (parse_unary libm cs context fuel _ e)
          as [operand s1 e1|e1|] eqn:E; try discriminate.
        apply IHu in E.
        destruct (negb (is_success e1)); [discriminate|].
        cbn. intros Hb. injection Hb as <- <- <-. lia. }
      destruct (Ascii.eqb (peek (skip_spaces s)) "(") eqn:Hopen.
      { apply advance_at_char in Hopen; [|discriminate].
        destruct (parse_internal libm cs context fuel _ e)
          as [inner s1 e1|e1|] eqn:E; try discriminate.
        apply IHi in E.
        destruct (negb (is_success e1)); [discriminate|].
        destruct (negb (Ascii.eqb (peek s1) ")")); [discriminate|].
        pose proof (advance_length s1).
        intros Hb. injection Hb as <- <- <-. lia. }
      destruct (parse_number (skip_spaces s)) as [[number found] s1] eqn:En.
      apply parse_number_length in En as [En1 En2].
      destruct found.
      { cbn. intros Hb. injection Hb as <- <- <-. specialize (En2 eq_refl). lia. }
      destruct (is_alpha (peek s1)) eqn:Halpha; [|discriminate].
      apply alpha_is_ident_char in Halpha as [Hic Hne].
      destruct (scan_identifier s1) as [name s2] eqn:Es.
      apply scan_identifier_length in Es as [_ Es].
      specialize (Es Hic Hne).
      destruct (Ascii.eqb (peek (skip_spaces s2)) "(") eqn:Hcall.
      * pose proof (skip_spaces_length s2).
        pose proof (advance_length (skip_spaces s2)).
        pose proof (skip_spaces_length (advance (skip_spaces s2))).
        destruct (negb (Ascii.eqb (peek (skip_spaces (advance (skip_spaces s2)))) ")")).
        -- destruct (parse_args libm cs context fuel _ e [])
             as [args s4 e4|e4|] eqn:E; try discriminate.
           apply IHa in E.
           destruct (negb (Ascii.eqb (peek s4) ")")); [discriminate|].
           pose proof (advance_length s4).
           intros Hb. injection Hb as <- <- <-. lia.
        -- destruct (negb (Ascii.eqb (peek (skip_spaces (advance (skip_spaces s2)))) ")"));
             [discriminate|].
           pose proof (advance_length (skip_spaces (advance (skip_spaces s2)))).
           intros Hb. injection Hb as <- <- <-. lia.
      * destruct (negb (is_defined_variable cs name context)); [discriminate|].
        cbn. intros Hb. injection Hb as <- <- <-. lia.
    + intros s e args l s' e'. rewrite parse_args_eq.
      destruct (parse_internal libm cs context fuel s e)
        as [arg s1 e1|e1|] eqn:E; try discriminate.
      apply IHi in E.
      destruct (negb (is_success e1)); [discriminate|].
      cbn zeta.
      pose proof (skip_spaces_length s1).
      destruct (Ascii.eqb (peek (skip_spaces s1)) ",").
      { intros Hb. apply IHa in Hb.
        pose proof (advance_length (skip_spaces s1)).
        pose proof (skip_spaces_length (advance (skip_spaces s1))). lia. }
      destruct (Ascii.eqb (peek (skip_spaces s1)) ")"); [|discriminate].
      intros Hb. injection Hb as <- <- <-. lia.
    + intros expr_prec lhs s e node s' e'.
      rewrite parse_binary_rhs_eq. cbn zeta.
      pose proof (skip_spaces_length s) as Hskip.
      destruct (get_precedence (peek (skip_spaces s)) <? expr_prec)%Z.
      { intros Hb. injection Hb as <- <- <-. lia. }
      pose proof (advance_length (skip_spaces s)).
      destruct (parse_unary libm cs context fuel _ e)
        as [rhs s1 e1|e1|] eqn:E; try discriminate.
      apply IHu in E.
      pose proof (skip_spaces_length s1).
      match goal with
      | |- context [if ?c then _ else _] => destruct c
      end.
      * destruct (parse_binary_rhs libm cs context fuel _ rhs _ e1)
          as [rhs' s2 e2|e2|] eqn:E2; try discriminate.
        apply IHb in E2.
        destruct lhs, rhs'; cbn;
          try (intros Hb; apply IHb in Hb; lia).
        destruct (fold_constants libm _ number number0); [|discriminate].
        intros Hb; apply IHb in Hb; lia.
      * destruct lhs, rhs; cbn;
          try (intros Hb; apply IHb in Hb; lia).
        destruct (fold_constants libm _ number number0); [|discriminate].
        intros Hb; apply IHb in Hb; lia.
    + intros s e node s' e'. rewrite parse_internal_eq.
      destruct (parse_unary libm cs context fuel s e)
        as [lhs s1 e1|e1|] eqn:E; try discriminate.
      apply IHu in E.
      destruct (negb (is_success e1)); [discriminate|].
      intros Hb. apply IHb in Hb. lia.
Qed.


(** Three nested calls per character are enough. *)
Lemma parse_never_starved (fuel : nat) :
  (forall s e,
     (3 * String.length s + 1 <= fuel)%nat ->
     parse_unary libm cs context fuel s e <> Starved)
  /\ (forall s e args,
        (3 * String.length s + 3 <= fuel)%nat ->
        parse_args libm cs context fuel s e args <> Starved)
  /\ (forall expr_prec lhs s e,
        (3 * String.length s + 2 <= fuel)%nat ->
        parse_binary_rhs libm cs context fuel expr_prec lhs s e <> Starved)
  /\ (forall s e,
        (3 * String.length s + 2 <= fuel)%nat ->
        parse_internal libm cs context fuel s e <> Starved).
Proof.
  induction fuel as [|fuel (IHu & IHa & IHb & IHi)].
  - repeat split; intros; lia.
  - destruct (parse_consumes fuel) as (Cu & Ca & Cb & Ci).
    repeat split.
    + intros s e Hfuel. rewrite parse_unary_eq. cbn zeta.
      pose proof (skip_spaces_length s) as Hskip.
      destruct (Ascii.eqb (peek (skip_spaces s)) "-") eqn:Hminus.
      { apply advance_at_char in Hminus; [|discriminate].
        specialize (IHu (advance (skip_spaces s)) e).
        destruct (parse_unary libm cs context fuel _ e) as [operand s1 e1|e1|];
          [destruct (negb (is_success e1)); discriminate
          |discriminate
          |apply IHu; lia]. }
      destruct (Ascii.eqb (peek (skip_spaces s)) "(") eqn:Hopen.
      { apply advance_at_char in Hopen; [|discriminate].
        specialize (IHi (advance (skip_spaces s)) e).
        destruct (parse_internal libm cs context fuel _ e) as [inner s1 e1|e1|];
          [destruct (negb (is_success e1)); [discriminate|];
           destruct (negb (Ascii.eqb (peek s1) ")")); discriminate
          |discriminate
          |apply IHi; lia]. }
      destruct (parse_number (skip_spaces s)) as [[number found] s1] eqn:En.
      apply parse_number_length in En as [En1 _].
      destruct found; [discriminate|].
      destruct (is_alpha (peek s1)) eqn:Halpha; [|discriminate].
      apply alpha_is_ident_char in Halpha as [Hic Hne].
      destruct (scan_identifier s1) as [name s2] eqn:Es.
      apply scan_identifier_length in Es as [_ Es].
      specialize (Es Hic Hne).
      destruct (Ascii.eqb (peek (skip_spaces s2)) "(").
      * pose proof (skip_spaces_length s2).
        pose proof (advance_length (skip_spaces s2)).
        pose proof (skip_spaces_length (advance (skip_spaces s2))).
        destruct (negb (Ascii.eqb (peek (skip_spaces (advance (skip_spaces s2)))) ")")).
        -- specialize (IHa (skip_spaces (advance (skip_spaces s2))) e []).
           destruct (parse_args libm cs context fuel _ e []) as [args s4 e4|e4|];
             [destruct (negb (Ascii.eqb (peek s4) ")")); discriminate
             |discriminate
             |exfalso; apply IHa; [lia | reflexivity]].
        -- destruct (negb (Ascii.eqb (peek (skip_spaces (advance (skip_spaces s2)))) ")"));
             discriminate.
      * destruct (negb (is_defined_variable cs name context)); discriminate.
    + intros s e args Hfuel. rewrite parse_args_eq.
      specialize (IHi s e).
      destruct (parse_internal libm cs context fuel s e)
        as [arg s1 e1|e1|] eqn:E;
        [|discriminate|exfalso; apply IHi; [lia | reflexivity]].
      apply Ci in E.
      destruct (negb (is_success e1)); [discriminate|].
      cbn zeta.
      pose proof (skip_spaces_length s1).
      pose proof (advance_length (skip_spaces s1)).
      pose proof (skip_spaces_length (advance (skip_spaces s1))).
      destruct (Ascii.eqb (peek (skip_spaces s1)) ",");
        [apply IHa; lia|].
      destruct (Ascii.eqb (peek (skip_spaces s1)) ")"); discriminate.
    + intros expr_prec lhs s e Hfuel.
      rewrite parse_binary_rhs_eq. cbn zeta.
      pose proof (skip_spaces_length s) as Hskip.
      destruct (get_precedence (peek (skip_spaces s)) <? expr_prec)%Z;
        [discriminate|].
      pose proof (advance_length (skip_spaces s)).
      specialize (IHu (advance (skip_spaces s)) e).
      destruct (parse_unary libm cs context fuel _ e)
        as [rhs s1 e1|e1|] eqn:E; [|discriminate|apply IHu; lia].
      apply Cu in E.
      pose proof (skip_spaces_length s1).
      match goal with
      | |- context [if ?c then _ else _] => destruct c
      end.
      * match goal with
        | |- context [parse_binary_rhs libm cs context fuel ?p rhs ?t e1] =>
            specialize (IHb p rhs t e1) as Hclimb;
            destruct (parse_binary_rhs libm cs context fuel p rhs t e1)
              as [rhs' s2 e2|e2|] eqn:E2; [|discriminate|apply Hclimb; lia]
        end.
        apply Cb in E2.
        destruct lhs, rhs'; cbn; try (apply IHb; lia).
        destruct (fold_constants libm _ number number0); [|discriminate].
        apply IHb; lia.
      * destruct lhs, rhs; cbn; try (apply IHb; lia).
        destruct (fold_constants libm _ number number0); [|discriminate].
        apply IHb; lia.
    + intros s e Hfuel. rewrite parse_internal_eq.
      specialize (IHu s e).
      destruct (parse_unary libm cs context fuel s e)
        as [lhs s1 e1|e1|] eqn:E; [|discriminate|apply IHu; lia].
      apply Cu in E.
      destruct (negb (is_success e1)); [discriminate|].
      apply IHb. lia.
Qed.

(** [exprlib_parse] always returns: with a node, or with [NULL] and an
    error code. *)
Lemma exprlib_parse_returns (expression : string) :
  exprlib_parse libm cs context expression <> None.
Proof.
  unfold exprlib_parse.
  destruct (parse_never_starved (parse_budget expression)) as (_ & _ & _ & Hi).
  specialize (Hi expression EXPRLIB_SUCCESS).
  destruct (parse_internal libm cs context (parse_budget expression)
              expression EXPRLIB_SUCCESS);
    [discriminate | discriminate |].
  exfalso. apply Hi; [unfold parse_budget; lia | reflexivity].
Qed.

End Budget.

(** ** The result and the error code agree *)

Section Coherence.

Variable libm : Libm.
Variable cs : list ExprLibConstant.
Variable context : ExprContext.

Lemma fold_constants_failure (op : ascii) (l r : float)
  (failure : ExprLibError) :
  fold_constants libm op l r = inr failure -> failure <> EXPRLIB_SUCCESS.
Proof.
  unfold fold_constants.
  repeat match goal with
         | |- context [if ?b then _ else _] => destruct b
         end; intros H; inversion H; discriminate.
Qed.

(** Started with no error pending, each parsing function returns a node
    with [EXPRLIB_SUCCESS], or [NULL] with an error. *)
Lemma parse_coherent (fuel : nat) :
  (forall s, coherent (parse_unary libm cs context fuel s EXPRLIB_SUCCESS))
  /\ (forall s args,
        coherent (parse_args libm cs context fuel s EXPRLIB_SUCCESS args))
  /\ (forall expr_prec lhs s,
        coherent (parse_binary_rhs libm cs context fuel expr_prec lhs s
                    EXPRLIB_SUCCESS))
  /\ (forall s,
        coherent (parse_internal libm cs context fuel s EXPRLIB_SUCCESS)).
Proof.
  induction fuel as [|fuel (IHu & IHa & IHb & IHi)].
  - repeat split; intros; exact I.
  - repeat split.
    + intros s. rewrite parse_unary_eq. cbn zeta.
      destruct (Ascii.eqb (peek (skip_spaces s)) "-").
      { specialize (IHu (advance (skip_spaces s))).
        destruct (parse_unary libm cs context fuel _ _) as [operand s1 e1|e1|];
          cbn in *; [subst e1; reflexivity | exact IHu | exact I]. }
      destruct (Ascii.eqb (peek (skip_spaces s)) "(").
      { specialize (IHi (advance (skip_spaces s))).
        destruct (parse_internal libm cs context fuel _ _) as [inner s1 e1|e1|];
          cbn in *; [subst e1; cbn | exact IHi | exact I].
        destruct (negb (Ascii.eqb (peek s1) ")")); cbn;
          [discriminate | reflexivity]. }
      destruct (parse_number (skip_spaces s)) as [[number found] s1].
      destruct found; [reflexivity|].
      destruct (is_alpha (peek s1)); [|cbn; discriminate].
      destruct (scan_identifier s1) as [name s2].
      destruct (Ascii.eqb (peek (skip_spaces s2)) "(").
      * destruct (negb (Ascii.eqb (peek (skip_spaces (advance (skip_spaces s2)))) ")"))
          eqn:Hclose.
        -- specialize (IHa (skip_spaces (advance (skip_spaces s2))) []).
           destruct (parse_args libm cs context fuel _ _ [])
             as [args s4 e4|e4|]; cbn in *; [subst e4 | exact IHa | exact I].
           destruct (negb (Ascii.eqb (peek s4) ")")); cbn;
             [discriminate | reflexivity].
        -- rewrite Hclose. reflexivity.
      * destruct (negb (is_defined_variable cs name context)); cbn;
          [discriminate | reflexivity].
    + intros s args. rewrite parse_args_eq.
      specialize (IHi s).
      destruct (parse_internal libm cs context fuel s _) as [arg s1 e1|e1|];
        cbn in *; [subst e1; cbn | exact IHi | exact I].
      destruct (Ascii.eqb (peek (skip_spaces s1)) ","); [apply IHa|].
      destruct (Ascii.eqb (peek (skip_spaces s1)) ")"); cbn;
        [reflexivity | discriminate].
    + intros expr_prec lhs s. rewrite parse_binary_rhs_eq. cbn zeta.
      destruct (get_precedence (peek (skip_spaces s)) <? expr_prec);
        [reflexivity|].
      specialize (IHu (advance (skip_spaces s))).
      destruct (parse_unary libm cs context fuel _ _) as [rhs s1 e1|e1|];
        cbn [coherent] in *; [subst e1 | exact IHu | exact I].
      assert (Hstep : forall rhs' s2,
                 coherent
                   match lhs, rhs' with
                   | EXPR_NODE_NUMBER left_val, EXPR_NODE_NUMBER right_val =>
                       match fold_constants libm (peek (skip_spaces s))
                               left_val right_val with
                       | inr failure => Null failure
                       | inl result =>
                           let '(lhs, e) := create_number_node result in
                           if negb (is_success e) then Null e
                           else parse_binary_rhs libm cs context fuel
                                  expr_prec lhs s2 e
                       end
                   | _, _ =>
                       let '(lhs, e) :=
                         create_operator_node (peek (skip_spaces s)) lhs rhs'
                       in
                       if negb (is_success e) then Null e
                       else parse_binary_rhs libm cs context fuel expr_prec
                              lhs s2 e
                   end).
      { intros rhs' s2. destruct lhs, rhs'; cbn; try apply IHb.
        destruct (fold_constants libm _ number number0) eqn:Hfold;
          [apply IHb | exact (fold_constants_failure _ _ _ _ Hfold)]. }
      match goal with
      | |- context [if ?c then _ else _] => destruct c
      end.
      * match goal with
        | |- context [parse_binary_rhs libm cs context fuel ?p rhs ?t _] =>
            specialize (IHb p rhs t) as Hclimb;
            destruct (parse_binary_rhs libm cs context fuel p rhs t _)
              as [rhs' s2 e2|e2|]; cbn [coherent] in Hclimb;
            [subst e2; apply Hstep | exact Hclimb | exact I]
        end.
      * apply Hstep.
    + intros s. rewrite parse_internal_eq.
      specialize (IHu s).
      destruct (parse_unary libm cs context fuel s _) as [lhs s1 e1|e1|];
        cbn in *; [subst e1; apply IHb | exact IHu | exact I].
Qed.

(** [exprlib_parse] returns a node exactly when it leaves
    [EXPRLIB_SUCCESS]. *)
Lemma exprlib_parse_null_iff_error (expression : string) :
  exists result e,
    exprlib_parse libm cs context expression = Some (result, e)
    /\ (result = None <-> e <> EXPRLIB_SUCCESS).
Proof.
  unfold exprlib_parse.
  destruct (parse_never_starved libm cs context (parse_budget expression))
    as (_ & _ & _ & Hi).
  specialize (Hi expression EXPRLIB_SUCCESS).
  destruct (parse_coherent (parse_budget expression)) as (_ & _ & _ & Hc).
  specialize (Hc expression).
  destruct (parse_internal libm cs context (parse_budget expression)
              expression EXPRLIB_SUCCESS) as [node s e|e|]; cbn in Hc.
  - exists (Some node), e. split; [reflexivity|].
    split; [discriminate | intros H; contradiction].
  - exists None, e. split; [reflexivity|]. tauto.
  - exfalso. apply Hi; [unfold parse_budget; lia | reflexivity].
Qed.

End Coherence.

(** ** Scanning a text that continues *)

Lemma skip_spaces_app (s r : string) :
  skip_spaces (s ++ r)
  = match skip_spaces s with
    | EmptyString => skip_spaces r
    | _ => skip_spaces s ++ r
    end.
Proof.
  induction s as [|c s IH]; cbn; [reflexivity|].
  destruct (Ascii.eqb c " "); [exact IH | reflexivity].
Qed.

Lemma skip_spaces_idem (s : string) :
  skip_spaces (skip_spaces s) = skip_spaces s.
Proof.
  induction s as [|c s IH]; cbn; [reflexivity|].
  destruct (Ascii.eqb c " ") eqn:E; [exact IH | cbn; rewrite E; reflexivity].
Qed.

Lemma is_ident_char_digit (c : ascii) :
  is_ident_char c = false -> is_digit c = false.
Proof.
  unfold is_ident_char. intros H.
  apply orb_false_iff in H as [H _]. apply orb_false_iff in H as [_ H].
  exact H.
Qed.

Lemma is_ident_char_alpha (c : ascii) :
  is_ident_char c = false -> is_alpha c = false.
Proof.
  unfold is_ident_char. intros H.
  apply orb_false_iff in H as [H _]. apply orb_false_iff in H as [H _].
  exact H.
Qed.

Lemma parse_int_digits_app (r : string) (Hr : is_digit (peek r) = false)
  (s : string) :
  forall value found,
    parse_int_digits (s ++ r) value found
    = let '(v, f, s') := parse_int_digits s value found in (v, f, s' ++ r).
Proof.
  induction s as [|c s IH]; intros value found; cbn.
  - destruct r as [|c r]; cbn in *; [reflexivity | rewrite Hr; reflexivity].
  - destruct (is_digit c); [apply IH | reflexivity].
Qed.

Lemma parse_frac_digits_app (r : string) (Hr : is_digit (peek r) = false)
  (s : string) :
  forall value frac,
    parse_frac_digits (s ++ r) value frac
    = let '(v, s') := parse_frac_digits s value frac in (v, s' ++ r).
Proof.
  induction s as [|c s IH]; intros value frac; cbn.
  - destruct r as [|c r]; cbn in *; [reflexivity | rewrite Hr; reflexivity].
  - destruct (is_digit c); [apply IH | reflexivity].
Qed.

Lemma parse_number_app (r s : string) :
  is_digit (peek r) = false ->
  Ascii.eqb (peek r) "." = false ->
  skip_spaces s <> "" ->
  parse_number (s ++ r)
  = let '(v, f, s') := parse_number s in (v, f, s' ++ r).
Proof.
  intros Hdigit Hdot Hs. unfold parse_number.
  rewrite skip_spaces_app.
  destruct (skip_spaces s) as [|c0 s0] eqn:Hskip; [contradiction|].
  rewrite (parse_int_digits_app r Hdigit).
  destruct (parse_int_digits (String c0 s0) 0 false) as [[v f] s1].
  destruct s1 as [|c1 s1]; cbn [append peek].
  - rewrite Hdot. reflexivity.
  - destruct (Ascii.eqb c1 "."); [|reflexivity].
    cbn [advance]. rewrite (parse_frac_digits_app r Hdigit).
    destruct (parse_frac_digits s1 v 0.1); reflexivity.
Qed.

Lemma scan_identifier_app (r : string)
  (Hr : is_ident_char (peek r) = false) (s : string) :
  scan_identifier (s ++ r)
  = let '(name, s') := scan_identifier s in (name, s' ++ r).
Proof.
  induction s as [|c s IH]; cbn.
  - destruct r as [|c r]; cbn in *; [reflexivity | rewrite Hr; reflexivity].
  - destruct (is_ident_char c); [|reflexivity].
    rewrite IH. destruct (scan_identifier s). reflexivity.
Qed.

(** ** Precedence and associativity *)

Lemma parse_sum_of_product (libm : Libm) (cs : list ExprLibConstant)
  (context : ExprContext) :
  exprlib_parse libm cs context "2 + 3 * 4"
  = Some (Some (EXPR_NODE_NUMBER 14), EXPRLIB_SUCCESS).
Proof. reflexivity. Qed.

Lemma parse_difference_chain (libm : Libm) (cs : list ExprLibConstant)
  (context : ExprContext) :
  exprlib_parse libm cs context "10 - 4 - 3"
  = Some (Some (EXPR_NODE_NUMBER 3), EXPRLIB_SUCCESS).
Proof. reflexivity. Qed.

(** C1, at the input ["2 ^ 3 ^ 2"]: the recursive call for the right-hand
    side is made with [tok_prec + 1] also when the operator is [^], so it
    returns at once on the second [^] and the chain is grouped from the
    left: the parser folds the text to [pow (pow 2 3) 2], whatever [pow]
    is, and evaluation returns that number; with an exact [pow] this is 64,
    while the right-associative reading [2 ^ (3 ^ 2)] is 512. *)
Theorem caret_chain_groups_left :
  (forall (libm : Libm) (g : Globals) (context : ExprContext),
     exprlib_parse libm (g_constants g) context "2 ^ 3 ^ 2"
     = Some (Some (EXPR_NODE_NUMBER (m_pow libm (m_pow libm 2 3) 2)),
             EXPRLIB_SUCCESS)
     /\ parse_then_evaluate libm g "2 ^ 3 ^ 2" context
        = Some (Value (m_pow libm (m_pow libm 2 3) 2)
                  (mkEval EXPRLIB_SUCCESS [])))
  /\ parse_then_evaluate test_libm (initialized test_libm) "2 ^ 3 ^ 2" []
     = Some (Value 64 (mkEval EXPRLIB_SUCCESS []))
  /\ parse_then_evaluate test_libm (initialized test_libm) "2 ^ (3 ^ 2)" []
     = Some (Value 512 (mkEval EXPRLIB_SUCCESS [])).
Proof.
  split; [ intros libm g context; split; reflexivity | ].
  split; vm_compute; reflexivity.
Qed.

(** ** Operands *)

Lemma alpha_char (c : ascii) :
  is_alpha c = true ->
  Ascii.eqb c " " = false /\ Ascii.eqb c "-" = false
  /\ Ascii.eqb c "(" = false /\ Ascii.eqb c "." = false
  /\ is_digit c = false.
Proof.
  destruct c as [[] [] [] [] [] [] [] []]; vm_compute; intros H;
    try discriminate H; repeat split.
Qed.




Lemma skip_spaces_start (s : string) :
  Ascii.eqb (peek s) " " = false -> skip_spaces s = s.
Proof. destruct s as [|c r]; cbn; [reflexivity | intros ->; reflexivity]. Qed.

Section Operands.

Variable libm : Libm.
Variable cs : list ExprLibConstant.
Variable context : ExprContext.


(** A name under the cursor that no parenthesis follows is parsed as a
    [Variable] node when it is defined, and rejected when it is not. *)
Lemma parse_unary_name (fuel : nat) (spaces name rest : string)
  (e : ExprLibError) :
  skip_spaces spaces = "" ->
  is_alpha (peek name) = true ->
  scan_identifier name = (name, "") ->
  is_ident_char (peek rest) = false ->
  Ascii.eqb (peek (skip_spaces rest)) "(" = false ->
  parse_unary libm cs context (S fuel) (spaces ++ name ++ rest) e
  = if is_defined_variable cs name context
    then Built (EXPR_NODE_VARIABLE name) rest EXPRLIB_SUCCESS
    else Null EXPRLIB_ERROR_UNDEFINED_VARIABLE.
Proof.
  intros Hspaces Halpha Hname Hrest Hparen.
  destruct (alpha_char _ Halpha) as (Hsp & Hminus & Hopen & Hdot & Hdigit).
  assert (Hpeek : peek (name ++ rest) = peek name)
    by (destruct name; [discriminate Halpha | reflexivity]).
  rewrite parse_unary_eq. cbn zeta.
  rewrite skip_spaces_app, Hspaces.
  rewrite (skip_spaces_start (name ++ rest)) by (rewrite Hpeek; exact Hsp).
  rewrite Hpeek, Hminus, Hopen.
  assert (Hnumber : parse_number (name ++ rest) = (0%float, false, name ++ rest)).
  { unfold parse_number.
    rewrite (skip_spaces_start (name ++ rest)) by (rewrite Hpeek; exact Hsp).
    destruct name as [|c name']; [discriminate Halpha|].
    cbn in *. rewrite Hdigit. cbn. rewrite Hdot. reflexivity. }
  rewrite Hnumber, Hpeek, Halpha.
  rewrite (scan_identifier_app rest Hrest), Hname.
  cbn [append]. rewrite Hparen.
  destruct (is_defined_variable cs name context); reflexivity.
Qed.

End Operands.

(** ** Names that are not defined *)

Lemma append_empty (s : string) : s ++ "" = s.
Proof. induction s as [|c s IH]; cbn; congruence. Qed.

Lemma parse_budget_three (text : string) :
  exists fuel, parse_budget text = S (S (S fuel)).
Proof. exists (3 * String.length text)%nat. unfold parse_budget. lia. Qed.

Lemma is_defined_variable_spec (cs : list ExprLibConstant) (name : string)
  (context : ExprContext) :
  is_defined_variable cs name context = true
  <-> In name (map const_name cs) \/ In name (map var_name context).
Proof.
  unfold is_defined_variable.
  assert (Hc : existsb (fun c => String.eqb (const_name c) name) cs = true
               <-> In name (map const_name cs)).
  { rewrite existsb_exists, in_map_iff.
    split; intros [c [H1 H2]]; exists c.
    - apply String.eqb_eq in H2. auto.
    - split; [exact H2 | apply String.eqb_eq; exact H1]. }
  assert (Hv : existsb (fun v => String.eqb (var_name v) name) context = true
               <-> In name (map var_name context)).
  { rewrite existsb_exists, in_map_iff.
    split; intros [c [H1 H2]]; exists c.
    - apply String.eqb_eq in H2. auto.
    - split; [exact H2 | apply String.eqb_eq; exact H1]. }
  destruct (existsb _ cs); [tauto|].
  destruct (existsb _ context); [tauto|].
  split; [discriminate|].
  intros [H|H]; [apply Hc in H | apply Hv in H]; discriminate.
Qed.


(** A [NULL] that a call gets back from a call it makes is what it
    returns, with the error as it stands: no parsing function goes on
    after a failure, and none replaces the error. *)
Lemma failure_is_forwarded (libm : Libm) (cs : list ExprLibConstant)
  (context : ExprContext) (c c' : call) :
  makes libm cs context c c' ->
  (forall failure,
     fails_with libm cs context c' failure ->
     fails_with libm cs context c failure)
  /\ (starves libm cs context c' -> starves libm cs context c).
Proof.
  intros Hmakes.
  destruct Hmakes
    as [fuel s e Hminus
       |fuel s e Hminus Hparen
       |fuel s e number s1 name s2 Hminus Hparen Hnumber Halpha Hscan
          Hopen Hclosing
       |fuel s e args
       |fuel s e args arg s1 e1 Harg He1 Hcomma
       |fuel expr_prec lhs s e Hprec
       |fuel expr_prec lhs s e rhs s1 e1 Hprec Hrhs Hclimb
       |fuel expr_prec lhs s e rhs s1 e1 rhs' s2 e2 lhs' Hprec Hrhs
          Hclimbed Hcombine
       |fuel s e
       |fuel s e lhs s1 e1 Hlhs He1];
    cbn [fails_with starves].
  - split; [intros failure H | intros H];
      rewrite parse_unary_eq; cbn zeta; rewrite Hminus, H; reflexivity.
  - split; [intros failure H | intros H];
      rewrite parse_unary_eq; cbn zeta; rewrite Hminus, Hparen, H;
      reflexivity.
  - split; [intros failure H | intros H];
      rewrite parse_unary_eq; cbn zeta;
      rewrite Hminus, Hparen, Hnumber, Halpha, Hscan; cbn zeta;
      rewrite Hopen, Hclosing; cbn [negb]; rewrite H; reflexivity.
  - split; [intros failure H | intros H];
      rewrite parse_args_eq, H; reflexivity.
  - split; [intros failure H | intros H];
      rewrite parse_args_eq, Harg, He1; cbn [negb]; cbn zeta;
      rewrite Hcomma; exact H.
  - split; [intros failure H | intros H];
      rewrite parse_binary_rhs_eq; cbn zeta; rewrite Hprec, H; reflexivity.
  - split; [intros failure H | intros H];
      rewrite parse_binary_rhs_eq; cbn zeta; rewrite Hprec, Hrhs, Hclimb, H;
      reflexivity.
  - assert (Hdone :
              parse_binary_rhs libm cs context (S fuel) expr_prec lhs s e
              = parse_binary_rhs libm cs context fuel expr_prec lhs' s2
                  EXPRLIB_SUCCESS).
    { rewrite parse_binary_rhs_eq. cbn zeta.
      rewrite Hprec, Hrhs, Hclimbed.
      unfold combine in Hcombine.
      destruct lhs; try (injection Hcombine as <-; reflexivity).
      destruct rhs'; try (injection Hcombine as <-; reflexivity).
      destruct (fold_constants libm (peek (skip_spaces s)) number number0);
        [injection Hcombine as <-; reflexivity | discriminate Hcombine]. }
    split; [intros failure H | intros H]; rewrite Hdone; exact H.
  - split; [intros failure H | intros H];
      rewrite parse_internal_eq, H; reflexivity.
  - split; [intros failure H | intros H];
      rewrite parse_internal_eq, Hlhs, He1; exact H.
Qed.

Lemma failure_comes_back (libm : Libm) (cs : list ExprLibConstant)
  (context : ExprContext) (c c' : call) :
  comes_to libm cs context c c' ->
  (forall failure,
     fails_with libm cs context c' failure ->
     fails_with libm cs context c failure)
  /\ (starves libm cs context c' -> starves libm cs context c).
Proof.
  induction 1 as [c|c c' c'' Hmakes _ [IHfails IHstarves]];
    [split; auto|].
  destruct (failure_is_forwarded libm cs context c c' Hmakes)
    as [Hfails Hstarves].
  split; auto.
Qed.

(** C7, amended: an operand that is a bare name (a letter, then letters,
    digits and [_]; no opening parenthesis after it) which is neither a
    registered constant nor a variable of the context is rejected by
    [parse_unary] with [EXPRLIB_ERROR_UNDEFINED_VARIABLE] wherever the
    parser comes to it; [exprlib_parse] of a text that begins with such a
    name returns [NULL] with that error; and so does [exprlib_parse] of
    every text in whose parse the parser comes to such a name, at any
    depth: after an operator, inside parentheses, under a unary minus,
    among the arguments of a call. *)
Theorem undefined_name_rejected (libm : Libm) (cs : list ExprLibConstant)
  (context : ExprContext) (spaces name rest : string)
  (Hspaces : skip_spaces spaces = "")
  (Halpha : is_alpha (peek name) = true)
  (Hname : scan_identifier name = (name, ""))
  (Hrest : is_ident_char (peek rest) = false)
  (Hnocall : Ascii.eqb (peek (skip_spaces rest)) "(" = false)
  (Hconstant : ~ In name (map const_name cs))
  (Hvariable : ~ In name (map var_name context)) :
  (forall fuel e,
     parse_unary libm cs context (S fuel) (spaces ++ name ++ rest) e
     = Null EXPRLIB_ERROR_UNDEFINED_VARIABLE)
  /\ exprlib_parse libm cs context (spaces ++ name ++ rest)
     = Some (None, EXPRLIB_ERROR_UNDEFINED_VARIABLE)
  /\ (forall text fuel e,
        comes_to libm cs context
          (parse_internal_call (parse_budget text) text EXPRLIB_SUCCESS)
          (parse_unary_call fuel (spaces ++ name ++ rest) e) ->
        exprlib_parse libm cs context text
        = Some (None, EXPRLIB_ERROR_UNDEFINED_VARIABLE)).
Proof.
  assert (Hundefined : is_defined_variable cs name context = false).
  { destruct (is_defined_variable cs name context) eqn:E; [|reflexivity].
    apply is_defined_variable_spec in E. tauto. }
  assert (Hunary : forall fuel e,
             parse_unary libm cs context (S fuel) (spaces ++ name ++ rest) e
             = Null EXPRLIB_ERROR_UNDEFINED_VARIABLE).
  { intros fuel e. rewrite parse_unary_name by assumption.
    rewrite Hundefined. reflexivity. }
  split; [exact Hunary|]. split.
  - unfold exprlib_parse.
    destruct (parse_budget_three (spaces ++ name ++ rest)) as [fuel ->].
    rewrite parse_internal_eq, Hunary. reflexivity.
  - intros text fuel e Hcomes.
    destruct (failure_comes_back libm cs context _ _ Hcomes)
      as [Hfails Hstarves].
    cbn [fails_with starves] in Hfails, Hstarves.
    unfold exprlib_parse.
    destruct fuel as [|fuel].
    + exfalso.
      destruct (parse_never_starved libm cs context (parse_budget text))
        as (_ & _ & _ & Hi).
      apply (Hi text EXPRLIB_SUCCESS);
        [unfold parse_budget; lia | apply Hstarves; reflexivity].
    + rewrite (Hfails _ (Hunary fuel e)). reflexivity.
Qed.

(** C7 at ["x * (2 + f(-a))"] with [x] defined and [a] not: the parser
    comes to [a] after an operator, inside parentheses, after a second
    operator, among the arguments of a call and under a unary minus. *)
Lemma undefined_name_rejected_witness :
  exprlib_parse test_libm [] [mkVariable "x" 1%float] "x * (2 + f(-a))"
  = Some (None, EXPRLIB_ERROR_UNDEFINED_VARIABLE).
Proof.
  apply (undefined_name_rejected test_libm [] [mkVariable "x" 1%float]
           "" "a" "))" eq_refl eq_refl eq_refl eq_refl eq_refl)
    with (fuel := 39%nat) (e := EXPRLIB_SUCCESS).
  - intros [].
  - intros [H|[]]. discriminate H.
  - (* parse_internal: the operand x, then the operators *)
    eapply comes_further; [eapply operators; reflexivity|].
    (* parse_binary_rhs at " * (...": its right operand *)
    eapply comes_further; [eapply right_operand; reflexivity|].
    (* parse_unary at " (2 + f(-a))" *)
    eapply comes_further; [eapply inside_parentheses; reflexivity|].
    (* parse_internal at "2 + f(-a))": the operand 2, then the operators *)
    eapply comes_further; [eapply operators; reflexivity|].
    (* parse_binary_rhs at " + f(-a))": its right operand *)
    eapply comes_further; [eapply right_operand; reflexivity|].
    (* parse_unary at " f(-a))": the arguments *)
    eapply comes_further; [eapply arguments_of_call; reflexivity|].
    (* parse_args at "-a))": the first argument *)
    eapply comes_further; [eapply argument|].
    eapply comes_further; [eapply first_operand|].
    (* parse_unary at "-a))" *)
    eapply comes_further; [eapply operand_of_minus; reflexivity|].
    exact (comes_here test_libm [] [mkVariable "x" 1%float]
             (parse_unary_call 39 "a))" EXPRLIB_SUCCESS)).
Defined.

(** C7 as stated fails when the parse ends before it comes to the name:
    in ["1 / 0 + a"] the literal division is folded first and the parse
    fails with [EXPRLIB_ERROR_DIVISION_BY_ZERO]; in ["1 a"] the parser
    stops after the number and succeeds. [a] is defined nowhere. *)
Lemma undefined_name_not_reached :
  is_defined_variable [] "a" [] = false
  /\ exprlib_parse test_libm [] [] "1 / 0 + a"
     = Some (None, EXPRLIB_ERROR_DIVISION_BY_ZERO)
  /\ exprlib_parse test_libm [] [] "1 a"
     = Some (Some (EXPR_NODE_NUMBER 1), EXPRLIB_SUCCESS).
Proof. repeat split. Qed.

(** ** Constant folding *)


(** The parser's fold of two numbers is the evaluator's operator applied
    to them, value for value and error for error. *)
Lemma fold_constants_is_apply_operator (libm : Libm) (op : ascii)
  (left_val right_val : float) (st : eval_state) :
  apply_operator libm op left_val right_val st
  = match fold_constants libm op left_val right_val with
    | inl result => Value result st
    | inr failure => Value 0%float (fail_with failure st)
    end.
Proof.
  unfold apply_operator, fold_constants.
  repeat match goal with
         | |- context [if ?b then _ else _] => destruct b
         end; reflexivity.
Qed.

Lemma evaluate_operator_on_numbers (libm : Libm)
  (functions : list ExprLibFunction) (constants : list ExprLibConstant)
  (context : ExprContext) (op : ascii) (left_val right_val : float)
  (st : eval_state) :
  is_success (error st) = true ->
  evaluate_node libm functions constants context
    (EXPR_NODE_OPERATOR op (EXPR_NODE_NUMBER left_val)
       (EXPR_NODE_NUMBER right_val)) st
  = apply_operator libm op left_val right_val st.
Proof. intros H. cbn. rewrite H. reflexivity. Qed.

(** C5: in [parse_binary_rhs], once the operator [op] is read and the
    right-hand side has come out as a number (directly, or from the
    recursive call that climbs to a tighter operator), a left-hand side
    that is a number too is folded: the loop goes on with the single
    [Number] node whose value is what [evaluate_node] returns for the
    operator node over the two numbers, so evaluating the folded node and
    evaluating the unfolded one give the same value; and when
    [evaluate_node] fails on the unfolded node, the parse is abandoned with
    the same error code. *)
Theorem folding_agrees_with_evaluation (libm : Libm)
  (cs : list ExprLibConstant) (context : ExprContext)
  (functions : list ExprLibFunction) (constants : list ExprLibConstant)
  (run_context : ExprContext)
  (fuel : nat) (expr_prec : Z) (left_val right_val : float)
  (s s1 s2 : string) (e e1 e2 : ExprLibError) (rhs : ExprNode)
  (st : eval_state)
  (Hop : expr_prec <= get_precedence (peek (skip_spaces s)))
  (Hrhs : parse_unary libm cs context fuel (advance (skip_spaces s)) e
          = Built rhs s1 e1)
  (Hclimbed :
     (if (get_precedence (peek (skip_spaces s))
          <? get_precedence (peek (skip_spaces s1)))
         || ((get_precedence (peek (skip_spaces s))
              =? get_precedence (peek (skip_spaces s1)))
             && is_right_associative (peek (skip_spaces s)))
      then parse_binary_rhs libm cs context fuel
             (get_precedence (peek (skip_spaces s)) + 1) rhs
             (skip_spaces s1) e1
      else Built rhs (skip_spaces s1) e1)
     = Built (EXPR_NODE_NUMBER right_val) s2 e2)
  (Hst : is_success (error st) = true) :
  let unfolded :=
    EXPR_NODE_OPERATOR (peek (skip_spaces s)) (EXPR_NODE_NUMBER left_val)
      (EXPR_NODE_NUMBER right_val) in
  let eval := evaluate_node libm functions constants run_context in
  match eval unfolded st with
  | Value v st' =>
      if is_success (error st')
      then parse_binary_rhs libm cs context (S fuel) expr_prec
             (EXPR_NODE_NUMBER left_val) s e
           = parse_binary_rhs libm cs context fuel expr_prec
               (EXPR_NODE_NUMBER v) s2 EXPRLIB_SUCCESS
           /\ eval (EXPR_NODE_NUMBER v) st = eval unfolded st
      else parse_binary_rhs libm cs context (S fuel) expr_prec
             (EXPR_NODE_NUMBER left_val) s e
           = Null (error st')
  | Aborted _ | Undefined _ => False
  end.
Proof.
  cbn zeta.
  rewrite evaluate_operator_on_numbers by exact Hst.
  rewrite parse_binary_rhs_eq. cbn zeta.
  destruct (Z.ltb_spec (get_precedence (peek (skip_spaces s))) expr_prec);
    [lia|].
  rewrite Hrhs, Hclimbed, fold_constants_is_apply_operator.
  destruct (fold_constants libm (peek (skip_spaces s)) left_val right_val)
    as [result|failure] eqn:Hfold.
  - rewrite Hst. cbn. split; reflexivity.
  - cbn [fail_with error].
    assert (Hfailure : is_success failure = false).
    { unfold fold_constants in Hfold.
      repeat match type of Hfold with
             | context [if ?b then _ else _] => destruct b
             end; inversion Hfold; reflexivity. }
    rewrite Hfailure. reflexivity.
Qed.

(** C5 at [" + 3"] after the number 2: the loop goes on with the number
    5, and the whole of ["2 + 3"] parses to it. *)
Lemma folding_agrees_with_evaluation_witness :
  parse_binary_rhs test_libm [] [] 2 0 (EXPR_NODE_NUMBER 2) " + 3"
    EXPRLIB_SUCCESS
  = parse_binary_rhs test_libm [] [] 1 0 (EXPR_NODE_NUMBER 5) ""
      EXPRLIB_SUCCESS
  /\ evaluate_node test_libm [] [] [] (EXPR_NODE_NUMBER 5)
       (mkEval EXPRLIB_SUCCESS [])
     = evaluate_node test_libm [] [] []
         (EXPR_NODE_OPERATOR "+" (EXPR_NODE_NUMBER 2) (EXPR_NODE_NUMBER 3))
         (mkEval EXPRLIB_SUCCESS []).
Proof.
  exact (folding_agrees_with_evaluation test_libm [] [] [] [] []
           1 0 2 3 " + 3" "" "" EXPRLIB_SUCCESS EXPRLIB_SUCCESS
           EXPRLIB_SUCCESS (EXPR_NODE_NUMBER 3) (mkEval EXPRLIB_SUCCESS [])
           ltac:(vm_compute; discriminate) eq_refl eq_refl eq_refl).
Defined.

(** ** Division by zero *)




(** ** Text after the expression *)

Lemma get_precedence_negative (c : ascii) :
  (get_precedence c <? 0) = true -> get_precedence c = -1.
Proof.
  unfold get_precedence.
  repeat match goal with
         | |- context [if ?b then _ else _] => destruct b
         end; cbn; congruence.
Qed.

Lemma peek_app (s r : string) : s <> "" -> peek (s ++ r) = peek s.
Proof. destruct s; [contradiction | reflexivity]. Qed.

Lemma advance_app (s r : string) :
  s <> "" -> advance (s ++ r) = advance s ++ r.
Proof. destruct s; [contradiction | reflexivity]. Qed.

Section Extension.

Variable libm : Libm.
Variable cs : list ExprLibConstant.
Variable context : ExprContext.
Variable rest : string.
Hypothesis Hcut : clean_cut rest = true.

Lemma cut_facts :
  is_ident_char (peek rest) = false
  /\ Ascii.eqb (peek rest) "." = false
  /\ Ascii.eqb (peek (skip_spaces rest)) "(" = false
  /\ get_precedence (peek (skip_spaces rest)) = -1.
Proof.
  unfold clean_cut in Hcut.
  apply andb_prop in Hcut as [H Hprec].
  apply andb_prop in H as [H Hparen].
  apply andb_prop in H as [Hident Hdot].
  apply negb_true_iff in Hident, Hdot, Hparen.
  auto using get_precedence_negative.
Qed.

Lemma follows_app (s : string) : follows rest s (s ++ rest).
Proof.
  destruct s as [|c s]; [right; auto | left; split; [discriminate | reflexivity]].
Qed.

Lemma follows_skipped_follows (s t : string) :
  follows_skipped rest s t -> follows rest s t.
Proof. intros [H|[H1 H2]]; [left; exact H | right; auto]. Qed.

Lemma follows_skip (s t : string) :
  follows rest s t -> follows_skipped rest (skip_spaces s) (skip_spaces t).
Proof.
  intros [[_ ->]|[-> [->| ->]]].
  - rewrite skip_spaces_app.
    destruct (skip_spaces s) eqn:E; [right; auto | left; split; [discriminate | reflexivity]].
  - right; auto.
  - right. rewrite skip_spaces_idem. auto.
Qed.

Lemma follows_advance (s : string) :
  s <> "" -> follows rest (advance s) (advance (s ++ rest)).
Proof. intros H. rewrite advance_app by exact H. apply follows_app. Qed.

Lemma skipped_precedence (s t : string) :
  follows_skipped rest s t ->
  get_precedence (peek t) = get_precedence (peek s).
Proof.
  intros [[H ->]|[-> ->]]; [rewrite peek_app by exact H; reflexivity|].
  apply cut_facts.
Qed.

Lemma skipped_paren (s t : string) :
  follows_skipped rest s t ->
  Ascii.eqb (peek t) "(" = Ascii.eqb (peek s) "(".
Proof.
  intros [[H ->]|[-> ->]]; [rewrite peek_app by exact H; reflexivity|].
  apply cut_facts.
Qed.

Lemma parse_unary_end (fuel : nat) (e : ExprLibError) :
  forall node s' e', parse_unary libm cs context fuel "" e <> Built node s' e'.
Proof.
  destruct fuel; intros; [discriminate|].
  rewrite parse_unary_eq. discriminate.
Qed.

Lemma parse_internal_end (fuel : nat) (e : ExprLibError) :
  forall node s' e',
    parse_internal libm cs context fuel "" e <> Built node s' e'.
Proof.
  destruct fuel; intros node s' e'; [discriminate|].
  rewrite parse_internal_eq.
  destruct (parse_unary libm cs context fuel "" e) eqn:E; try discriminate.
  exfalso. exact (parse_unary_end _ _ _ _ _ E).
Qed.

Lemma parse_args_end (fuel : nat) (e : ExprLibError) (args : list ExprNode) :
  forall l s' e',
    parse_args libm cs context fuel "" e args <> Built l s' e'.
Proof.
  destruct fuel; intros l s' e'; [discriminate|].
  rewrite parse_args_eq.
  destruct (parse_internal libm cs context fuel "" e) eqn:E; try discriminate.
  exfalso. exact (parse_internal_end _ _ _ _ _ E).
Qed.


(** Every node one of the four parsing functions builds on a text, it
    builds on the text followed by a [clean_cut], within the same budget. *)
Lemma parse_carried (fuel : nat) :
  (forall s t e,
     follows rest s t ->
     carried rest (parse_unary libm cs context fuel s e)
       (parse_unary libm cs context fuel t e))
  /\ (forall s t e args,
        follows rest s t ->
        carried rest (parse_args libm cs context fuel s e args)
          (parse_args libm cs context fuel t e args))
  /\ (forall expr_prec lhs s t e,
        follows rest s t ->
        carried rest (parse_binary_rhs libm cs context fuel expr_prec lhs s e)
          (parse_binary_rhs libm cs context fuel expr_prec lhs t e))
  /\ (forall s t e,
        follows rest s t ->
        carried rest (parse_internal libm cs context fuel s e)
          (parse_internal libm cs context fuel t e)).
Proof.
  destruct cut_facts as (Hident & Hdot & Hparen & Hprec).
  induction fuel as [|fuel (IHu & IHa & IHb & IHi)].
  - repeat split; intros; exact I.
  - repeat split.
    + (* parse_unary *)
      intros s t e Hst.
      apply follows_skip in Hst.
      rewrite !parse_unary_eq. cbn zeta.
      destruct Hst as [[Hs ->]|[-> ->]]; [|exact I].
      rewrite (peek_app _ _ Hs).
      destruct (Ascii.eqb (peek (skip_spaces s)) "-").
      { specialize (IHu _ _ e (follows_advance _ Hs)).
        destruct (parse_unary libm cs context fuel (advance (skip_spaces s)) e)
          as [operand s1 e1|e1|]; try exact I.
        destruct IHu as (t1 & -> & Ht1).
        destruct (negb (is_success e1)); [exact I|].
        cbn. exists t1. auto. }
      destruct (Ascii.eqb (peek (skip_spaces s)) "(").
      { specialize (IHi _ _ e (follows_advance _ Hs)).
        destruct (parse_internal libm cs context fuel (advance (skip_spaces s)) e)
          as [node s1 e1|e1|]; try exact I.
        destruct IHi as (t1 & -> & Ht1).
        destruct (negb (is_success e1)); [exact I|].
        destruct Ht1 as [[Hs1 ->]|[-> _]]; [|exact I].
        rewrite (peek_app _ _ Hs1).
        destruct (negb (Ascii.eqb (peek s1) ")")); [exact I|].
        cbn. eexists. split; [reflexivity | apply follows_advance; exact Hs1]. }
      rewrite parse_number_app;
        [| apply is_ident_char_digit; exact Hident | exact Hdot
         | rewrite skip_spaces_idem; exact Hs].
      destruct (parse_number (skip_spaces s)) as [[number found] s1].
      destruct found.
      { cbn. eexists. split; [reflexivity | apply follows_app]. }
      destruct s1 as [|c1 s1]; [exact I|].
      rewrite peek_app by discriminate.
      destruct (is_alpha (peek (String c1 s1))); [|exact I].
      rewrite (scan_identifier_app _ Hident).
      destruct (scan_identifier (String c1 s1)) as [name s2].
      pose proof (follows_skip _ _ (follows_app s2)) as Hlook.
      rewrite (skipped_paren _ _ Hlook).
      destruct (Ascii.eqb (peek (skip_spaces s2)) "(") eqn:Hcall.
      * destruct Hlook as [[Hs2 Hlook]|[Hs2 _]];
          [|rewrite Hs2 in Hcall; discriminate].
        rewrite Hlook.
        pose proof (follows_skip _ _ (follows_advance _ Hs2)) as Hargs.
        destruct Hargs as [[Hs3 Hargs]|[Hs3 _]].
        2:{ rewrite Hs3. cbn [peek Ascii.eqb negb].
            change (negb ("000" =? ")")%char) with true. cbn match.
            pose proof (parse_args_end fuel e []) as Hend.
            destruct (parse_args libm cs context fuel "" e []); try exact I.
            exfalso. eapply Hend. reflexivity. }
        rewrite Hargs, (peek_app _ _ Hs3).
        assert (Hcarried :
                  carried rest
                    (if negb (Ascii.eqb (peek (skip_spaces (advance (skip_spaces s2)))) ")")
                     then parse_args libm cs context fuel
                            (skip_spaces (advance (skip_spaces s2))) e []
                     else Built [] (skip_spaces (advance (skip_spaces s2))) e)
                    (if negb (Ascii.eqb (peek (skip_spaces (advance (skip_spaces s2)))) ")")
                     then parse_args libm cs context fuel
                            (skip_spaces (advance (skip_spaces s2)) ++ rest) e []
                     else Built [] (skip_spaces (advance (skip_spaces s2)) ++ rest) e)).
        { destruct (negb (Ascii.eqb (peek (skip_spaces (advance (skip_spaces s2)))) ")")).
          - apply IHa. apply follows_app.
          - cbn. eexists. split; [reflexivity | apply follows_app]. }
        destruct (if negb (Ascii.eqb (peek (skip_spaces (advance (skip_spaces s2)))) ")")
                  then parse_args libm cs context fuel
                         (skip_spaces (advance (skip_spaces s2))) e []
                  else Built [] (skip_spaces (advance (skip_spaces s2))) e)
          as [args s4 e4|e4|]; try exact I.
        destruct Hcarried as (t4 & -> & Ht4).
        destruct Ht4 as [[Hs4 ->]|[-> _]]; [|exact I].
        rewrite (peek_app _ _ Hs4).
        destruct (negb (Ascii.eqb (peek s4) ")")); [exact I|].
        cbn. eexists. split; [reflexivity | apply follows_advance; exact Hs4].
      * destruct (negb (is_defined_variable cs name context)); [exact I|].
        cbn. eexists. split; [reflexivity | apply follows_app].
    + (* parse_args *)
      intros s t e args Hst.
      rewrite !parse_args_eq.
      specialize (IHi _ _ e Hst).
      destruct (parse_internal libm cs context fuel s e) as [arg s1 e1|e1|];
        try exact I.
      destruct IHi as (t1 & -> & Ht1).
      destruct (negb (is_success e1)); [exact I|].
      cbn zeta.
      apply follows_skip in Ht1.
      destruct Ht1 as [[Hs1 Ht1]|[Hs1 _]]; [|rewrite Hs1; exact I].
      rewrite Ht1, (peek_app _ _ Hs1).
      destruct (Ascii.eqb (peek (skip_spaces s1)) ",").
      { apply IHa. apply follows_skipped_follows, follows_skip, follows_advance.
        exact Hs1. }
      destruct (Ascii.eqb (peek (skip_spaces s1)) ")"); [|exact I].
      cbn. eexists. split; [reflexivity | apply follows_app].
    + (* parse_binary_rhs *)
      intros expr_prec lhs s t e Hst.
      apply follows_skip in Hst.
      rewrite !parse_binary_rhs_eq. cbn zeta.
      rewrite (skipped_precedence _ _ Hst).
      destruct (get_precedence (peek (skip_spaces s)) <? expr_prec).
      { cbn. eexists. split; [reflexivity|].
        apply follows_skipped_follows. exact Hst. }
      destruct Hst as [[Hs Hst]|[Hs _]].
      2:{ rewrite Hs. cbn [advance].
          pose proof (parse_unary_end fuel e) as Hend.
          destruct (parse_unary libm cs context fuel "" e); try exact I.
          exfalso. eapply Hend. reflexivity. }
      rewrite Hst, (peek_app _ _ Hs).
      specialize (IHu _ _ e (follows_advance _ Hs)).
      destruct (parse_unary libm cs context fuel (advance (skip_spaces s)) e)
        as [rhs s1 e1|e1|]; try exact I.
      destruct IHu as (t1 & -> & Ht1).
      apply follows_skip in Ht1.
      rewrite (skipped_precedence _ _ Ht1).
      set (tok_prec := get_precedence (peek (skip_spaces s))).
      set (climb := (tok_prec <? get_precedence (peek (skip_spaces s1)))
                    || (tok_prec =? get_precedence (peek (skip_spaces s1)))
                       && is_right_associative (peek (skip_spaces s))).
      assert (Hclimbed :
                carried rest
                  (if climb
                   then parse_binary_rhs libm cs context fuel (tok_prec + 1) rhs
                          (skip_spaces s1) e1
                   else Built rhs (skip_spaces s1) e1)
                  (if climb
                   then parse_binary_rhs libm cs context fuel (tok_prec + 1) rhs
                          (skip_spaces t1) e1
                   else Built rhs (skip_spaces t1) e1)).
      { destruct climb.
        - apply IHb. apply follows_skipped_follows. exact Ht1.
        - cbn. eexists. split; [reflexivity|].
          apply follows_skipped_follows. exact Ht1. }
      destruct (if climb
                then parse_binary_rhs libm cs context fuel (tok_prec + 1) rhs
                       (skip_spaces s1) e1
                else Built rhs (skip_spaces s1) e1)
        as [rhs' s2 e2|e2|]; try exact I.
      destruct Hclimbed as (t2 & -> & Ht2).
      destruct lhs, rhs'; cbn; try (apply IHb; exact Ht2).
      destruct (fold_constants libm _ number number0); [|exact I].
      apply IHb; exact Ht2.
    + (* parse_internal *)
      intros s t e Hst.
      rewrite !parse_internal_eq.
      specialize (IHu _ _ e Hst).
      destruct (parse_unary libm cs context fuel s e) as [lhs s1 e1|e1|];
        try exact I.
      destruct IHu as (t1 & -> & Ht1).
      destruct (negb (is_success e1)); [exact I|].
      apply IHb. exact Ht1.
Qed.

End Extension.

Lemma parse_internal_fuel_le (libm : Libm) (cs : list ExprLibConstant)
  (context : ExprContext) (s : string) (e : ExprLibError) (fuel more : nat) :
  parse_internal libm cs context fuel s e <> Starved ->
  parse_internal libm cs context (more + fuel) s e
  = parse_internal libm cs context fuel s e.
Proof.
  intros H. induction more as [|more IH]; [reflexivity|].
  cbn [Nat.add].
  destruct (parse_fuel_succ libm cs context (more + fuel)) as (_ & _ & _ & Hi).
  rewrite Hi; [exact IH | rewrite IH; exact H].
Qed.

Lemma parse_budget_app (text rest : string) :
  parse_budget (text ++ rest)
  = (3 * String.length rest + parse_budget text)%nat.
Proof.
  unfold parse_budget.
  assert (String.length (text ++ rest)
          = (String.length text + String.length rest)%nat) as ->
    by (induction text; cbn; congruence).
  lia.
Qed.

(** C10, amended: when a text parses successfully, the text followed by
    anything that begins with a [clean_cut] parses successfully to the same
    tree: the rest of the input is not looked at beyond its first
    characters, and no error is raised for it. *)
Theorem parse_ignores_rest_after_clean_cut (libm : Libm)
  (cs : list ExprLibConstant) (context : ExprContext)
  (text rest : string) (node : ExprNode)
  (Hparse : exprlib_parse libm cs context text
            = Some (Some node, EXPRLIB_SUCCESS))
  (Hcut : clean_cut rest = true) :
  exprlib_parse libm cs context (text ++ rest)
  = Some (Some node, EXPRLIB_SUCCESS).
Proof.
  unfold exprlib_parse in *.
  destruct (parse_internal libm cs context (parse_budget text) text
              EXPRLIB_SUCCESS) as [node' s' e'|e'|] eqn:E; try discriminate.
  injection Hparse as -> ->.
  destruct (parse_carried libm cs context rest Hcut (parse_budget text))
    as (_ & _ & _ & Hi).
  specialize (Hi text (text ++ rest) EXPRLIB_SUCCESS (follows_app rest text)).
  rewrite E in Hi. destruct Hi as (t' & Ht & _).
  rewrite parse_budget_app, parse_internal_fuel_le, Ht; [reflexivity|].
  rewrite Ht. discriminate.
Qed.

(** C10 at ["1 2"]: the text ["1"], then [" 2"]. *)
Lemma parse_ignores_rest_after_clean_cut_witness :
  exprlib_parse test_libm [] [] "1 2"
  = Some (Some (EXPR_NODE_NUMBER 1), EXPRLIB_SUCCESS).
Proof.
  apply (parse_ignores_rest_after_clean_cut test_libm [] [] "1" " 2");
    reflexivity.
Defined.

(** C10 as stated fails where the rest of the input continues the
    expression without a binary operator: after the name [x], which parses
    as a complete expression, [" (2)"] begins with no operator, yet
    ["x (2)"] is parsed as a call of [x]; and after ["1"] the digit ["2"]
    gives the number 12. *)
Lemma rest_may_continue_the_expression :
  exprlib_parse test_libm [] [mkVariable "x" 1%float] "x"
  = Some (Some (EXPR_NODE_VARIABLE "x"), EXPRLIB_SUCCESS)
  /\ get_precedence (peek (skip_spaces " (2)")) = -1
  /\ exprlib_parse test_libm [] [mkVariable "x" 1%float] ("x" ++ " (2)")
     = Some (Some (EXPR_NODE_FUNCTION_CALL "x" [EXPR_NODE_NUMBER 2]),
             EXPRLIB_SUCCESS)
  /\ exprlib_parse test_libm [] [] "1"
     = Some (Some (EXPR_NODE_NUMBER 1), EXPRLIB_SUCCESS)
  /\ get_precedence (peek (skip_spaces "2")) = -1
  /\ exprlib_parse test_libm [] [] ("1" ++ "2")
     = Some (Some (EXPR_NODE_NUMBER 12), EXPRLIB_SUCCESS).
Proof. repeat split. Qed.

(** ** Evaluation of calls *)

Section Calls.

Variable libm : Libm.
Variable functions : list ExprLibFunction.
Variable constants : list ExprLibConstant.
Variable context : ExprContext.

Let eval := evaluate_node libm functions constants context.
Let fill := fill_arguments libm functions constants context.
Let loop := argument_loop libm functions constants context.

(** The [EXPR_NODE_FUNCTION_CALL] case, with its loop named. *)
Lemma evaluate_call (name : string) (args : list ExprNode) (st : eval_state) :
  eval (EXPR_NODE_FUNCTION_CALL name args) st
  = match find_function functions name with
    | None => Value 0%float (fail_with EXPRLIB_ERROR_UNKNOWN st)
    | Some fn =>
        if negb (fn_arity fn =? -1)
           && negb (fn_arity fn =? Z.of_nat (List.length args))
        then Value 0%float (fail_with EXPRLIB_ERROR_SYNTAX st)
        else
          match loop args [] st with
          | inl (argv, st) => invoke fn argv st
          | inr no_return => no_return
          end
    end.
Proof.
  unfold eval, loop. cbn [evaluate_node].
  destruct (find_function functions name) as [fn|]; [|reflexivity].
  destruct (negb (fn_arity fn =? -1)
            && negb (fn_arity fn =? Z.of_nat (List.length args)));
    [reflexivity|].
  match goal with
  | |- match ?inner args [] st with _ => _ end = _ =>
      assert (Hloop : forall l argv st0,
                 inner l argv st0
                 = argument_loop libm functions constants context l argv st0)
  end.
  { induction l as [|arg rest IH]; intros argv st0; [reflexivity|].
    cbn [argument_loop].
    destruct (evaluate_node libm functions constants context arg st0);
      [apply IH | reflexivity | reflexivity]. }
  rewrite Hloop. reflexivity.
Qed.

(** The triple says that the loop came to its end exactly when the loop
    does. *)
Lemma argument_loop_completed (args : list ExprNode) :
  forall (acc argv : list float) (st st' : eval_state),
    fill args acc st = (argv, st', false)
    <-> loop args acc st = inl (argv, st').
Proof.
  unfold fill, loop.
  induction args as [|arg rest IH]; intros acc argv st st';
    cbn [fill_arguments argument_loop].
  - split; intros H; injection H as <- <-; reflexivity.
  - destruct (evaluate_node libm functions constants context arg st)
      as [v st1|st1|st1]; [apply IH | |]; split; discriminate.
Qed.

(** C8: a call whose registered function has a fixed arity [n] (any value
    but the variadic sentinel -1) and whose argument count is not [n]
    returns with [EXPRLIB_ERROR_SYNTAX]; the record of invoked native
    functions is as it was, and no argument was evaluated. *)
Theorem arity_mismatch_is_syntax_error (name : string)
  (args : list ExprNode) (fn : ExprLibFunction) (st : eval_state)
  (Hfound : find_function functions name = Some fn)
  (Hfixed : fn_arity fn <> -1)
  (Hcount : Z.of_nat (List.length args) <> fn_arity fn) :
  eval (EXPR_NODE_FUNCTION_CALL name args) st
  = Value 0%float (mkEval EXPRLIB_ERROR_SYNTAX (invoked st)).
Proof.
  rewrite evaluate_call, Hfound.
  destruct (Z.eqb_spec (fn_arity fn) (-1)) as [E|_]; [contradiction|].
  destruct (Z.eqb_spec (fn_arity fn) (Z.of_nat (List.length args)))
    as [E|_]; [symmetry in E; contradiction|].
  reflexivity.
Qed.

End Calls.

(** C8 at [pow(3)]: [pow] is registered with arity 2. *)
Lemma arity_mismatch_is_syntax_error_witness :
  find_function (g_functions (initialized test_libm)) "pow"
  = Some (mkFunction "pow" 2 (fn_pow test_libm))
  /\ exprlib_evaluate test_libm (initialized test_libm)
       (Some (EXPR_NODE_FUNCTION_CALL "pow" [EXPR_NODE_NUMBER 3])) []
     = Value 0%float (mkEval EXPRLIB_ERROR_SYNTAX []).
Proof.
  split; [reflexivity|].
  apply (arity_mismatch_is_syntax_error test_libm
           (g_functions (initialized test_libm))
           (g_constants (initialized test_libm)) []
           "pow" [EXPR_NODE_NUMBER 3]
           (mkFunction "pow" 2 (fn_pow test_libm))
           (mkEval EXPRLIB_SUCCESS []));
    [reflexivity | discriminate | discriminate].
Defined.

(** Once the function is found and the arity accepted, the native function
    is called with whatever the argument loop stored, whether or not an
    argument left an error in [EXPRLIB_ERROR]: the loop does not look at
    it. *)
Lemma call_invokes_after_argument_loop (libm : Libm)
  (functions : list ExprLibFunction) (constants : list ExprLibConstant)
  (context : ExprContext) (name : string) (args : list ExprNode)
  (fn : ExprLibFunction) (st st' : eval_state) (argv : list float) :
  find_function functions name = Some fn ->
  fn_arity fn = -1 \/ fn_arity fn = Z.of_nat (List.length args) ->
  fill_arguments libm functions constants context args [] st
  = (argv, st', false) ->
  evaluate_node libm functions constants context
    (EXPR_NODE_FUNCTION_CALL name args) st
  = invoke fn argv st'.
Proof.
  intros Hfound Harity Hfill.
  apply argument_loop_completed in Hfill.
  rewrite evaluate_call, Hfound, Hfill.
  destruct Harity as [-> | <-]; [reflexivity|].
  rewrite Z.eqb_refl, andb_false_r. reflexivity.
Qed.

(** C2, at [max(1 / z, 5)] with [z = 0.0]: the first argument fails with
    [EXPRLIB_ERROR_DIVISION_BY_ZERO] (and evaluates to 0.0); the second
    argument is evaluated all the same, [max] is invoked on [0.0; 5.0] and
    its result 5.0 is returned, the error still set. *)
Theorem call_proceeds_after_failed_argument (libm : Libm) :
  exprlib_evaluate libm (initialized libm)
    (Some (EXPR_NODE_OPERATOR "/" (EXPR_NODE_NUMBER 1)
             (EXPR_NODE_VARIABLE "z")))
    [mkVariable "z" 0%float]
  = Value 0%float (mkEval EXPRLIB_ERROR_DIVISION_BY_ZERO [])
  /\ parse_then_evaluate libm (initialized libm) "max(1 / z, 5)"
       [mkVariable "z" 0%float]
     = Some (Value 5%float
               (mkEval EXPRLIB_ERROR_DIVISION_BY_ZERO
                  [("max", [0%float; 5%float])])).
Proof. split; reflexivity. Qed.

(** C3, at [min(1 / z, factorial(0 - 1))] with [z = 0.0]: the first
    failure of the call is the division by zero in the first argument; the
    argument loop goes on, [factorial] is invoked on -1.0 and stores
    [EXPRLIB_ERROR_INVALID_ARGUMENT] over it, and that is the error the
    call reports. *)
Theorem later_failure_overwrites_first (libm : Libm) :
  exprlib_evaluate libm (initialized libm)
    (Some (EXPR_NODE_OPERATOR "/" (EXPR_NODE_NUMBER 1)
             (EXPR_NODE_VARIABLE "z")))
    [mkVariable "z" 0%float]
  = Value 0%float (mkEval EXPRLIB_ERROR_DIVISION_BY_ZERO [])
  /\ parse_then_evaluate libm (initialized libm)
       "min(1 / z, factorial(0 - 1))" [mkVariable "z" 0%float]
     = Some (Value 0%float
               (mkEval EXPRLIB_ERROR_INVALID_ARGUMENT
                  [("factorial", [(-1)%float]);
                   ("min", [0%float; 0%float])])).
Proof. split; reflexivity. Qed.

(** ** Registration *)

Lemma existsb_find_function (fs : list ExprLibFunction) (name : string) :
  existsb (fun f => String.eqb (fn_name f) name) fs = true
  <-> exists f, find_function fs name = Some f /\ fn_name f = name.
Proof.
  induction fs as [|f fs IH]; cbn.
  - split; [discriminate | intros [f [H _]]; discriminate].
  - destruct (String.eqb_spec (fn_name f) name) as [E|E]; cbn.
    + split; [intros _; exists f; auto | reflexivity].
    + exact IH.
Qed.

Lemma existsb_registered (fs : list ExprLibFunction) (name : string) :
  existsb (fun f => String.eqb (fn_name f) name) fs = true
  <-> In name (map fn_name fs).
Proof.
  rewrite existsb_exists, in_map_iff.
  split; intros [f [H1 H2]]; exists f.
  - apply String.eqb_eq in H2. auto.
  - split; [exact H2 | apply String.eqb_eq; exact H1].
Qed.

(** The names of the table stay pairwise distinct under registration. *)
Lemma register_function_keeps_names_unique (name : option string)
  (arity : Z) (fn : option ExprLibFnPtr) (g : Globals) :
  NoDup (map fn_name (g_functions g)) ->
  NoDup (map fn_name
           (g_functions (snd (exprlib_register_function name arity fn g)))).
Proof.
  intros Hnodup. unfold exprlib_register_function.
  destruct name as [[|c rest]|]; [exact Hnodup | | exact Hnodup].
  destruct fn as [fn|]; [|exact Hnodup].
  destruct (arity <? -1); [exact Hnodup|].
  destruct (existsb _ _) eqn:Hdup; [exact Hnodup|].
  cbn. rewrite map_app. cbn.
  apply NoDup_app; [exact Hnodup | repeat constructor; intros [] | ].
  intros x Hin [<-|[]].
  apply existsb_registered in Hin. congruence.
Qed.

(** C6: registering under a name the table already holds returns [false]
    and changes neither table, whatever the arity and the function given
    (the table after the call is the table before it, entry by entry and
    in the same order); when the call is otherwise well formed (arity not
    below -1) the error stored is [EXPRLIB_ERROR_DUPLICATE_FUNCTION];
    [find_function] still returns the entry it returned before, and every
    evaluation, hence every dispatch of a call on that name, is what it
    was before. *)
Theorem duplicate_registration_rejected (g : Globals) (name : string)
  (arity : Z) (fn : ExprLibFnPtr)
  (Hpresent : In name (map fn_name (g_functions g)))
  (Hname : name <> "") :
  let result := exprlib_register_function (Some name) arity (Some fn) g in
  fst result = false
  /\ g_functions (snd result) = g_functions g
  /\ g_constants (snd result) = g_constants g
  /\ (-1 <= arity ->
      result = (false, set_error EXPRLIB_ERROR_DUPLICATE_FUNCTION g))
  /\ (exists original,
        find_function (g_functions g) name = Some original
        /\ fn_name original = name
        /\ find_function (g_functions (snd result)) name = Some original)
  /\ (forall libm expr context,
        exprlib_evaluate libm (snd result) expr context
        = exprlib_evaluate libm g expr context).
Proof.
  apply existsb_registered in Hpresent.
  destruct name as [|c rest]; [contradiction|].
  cbn zeta. unfold exprlib_register_function.
  assert (Hsame : g_functions
                    (snd (if arity <? -1
                          then (false,
                                set_error EXPRLIB_ERROR_INVALID_ARGUMENT g)
                          else (false,
                                set_error EXPRLIB_ERROR_DUPLICATE_FUNCTION g)))
                  = g_functions g)
    by (destruct (arity <? -1); reflexivity).
  rewrite Hpresent.
  repeat split.
  - destruct (arity <? -1); reflexivity.
  - exact Hsame.
  - destruct (arity <? -1); reflexivity.
  - intros Harity. destruct (Z.ltb_spec arity (-1)); [lia | reflexivity].
  - apply existsb_find_function in Hpresent as [f [Hf Hn]].
    exists f. rewrite Hsame. auto.
  - intros libm expr context. unfold exprlib_evaluate.
    destruct (arity <? -1); reflexivity.
Qed.

(** C6 at a second registration of ["min"], with arity 2 and [fn_max]. *)
Lemma duplicate_registration_rejected_witness :
  exprlib_register_function (Some "min") 2 (Some fn_max)
    (initialized test_libm)
  = (false,
     set_error EXPRLIB_ERROR_DUPLICATE_FUNCTION (initialized test_libm))
  /\ find_function
       (g_functions
          (snd (exprlib_register_function (Some "min") 2 (Some fn_max)
                  (initialized test_libm)))) "min"
     = Some (mkFunction "min" (-1) fn_min).
Proof.
  pose proof (duplicate_registration_rejected (initialized test_libm)
                "min" 2 fn_max) as H.
  cbn zeta in H.
  destruct H as (_ & _ & _ & Herr & _ & _).
  - vm_compute. tauto.
  - discriminate.
  - split; [apply Herr; lia | reflexivity].
Defined.

(** ** Order of doubles *)

Lemma SFcompare_lt_trans (x y z : spec_float) :
  SFcompare x y = Some Lt -> SFcompare y z = Some Lt ->
  SFcompare x z = Some Lt.
Proof.
  destruct x as [sx|sx| |sx mx ex], y as [sy|sy| |sy my ey],
    z as [sz|sz| |sz mz ez]; cbn;
    try discriminate; try (destruct sx, sy, sz; cbn; congruence);
    try (destruct sx, sy; cbn; congruence);
    try (destruct sx, sz; cbn; congruence);
    try (destruct sy, sz; cbn; congruence).
  change (Pos.compare_cont Eq) with Pos.compare.
  destruct sx, sy, sz; try congruence;
    destruct (Z.compare_spec ex ey), (Z.compare_spec ey ez),
      (Z.compare_spec ex ez); try congruence; try lia;
    destruct (Pos.compare_spec mx my), (Pos.compare_spec my mz),
      (Pos.compare_spec mx mz); cbn; try congruence; try lia.
Qed.

Lemma SFcompare_antisym (x y : spec_float) :
  SFcompare y x = option_map CompOpp (SFcompare x y).
Proof.
  destruct x as [sx|sx| |sx mx ex], y as [sy|sy| |sy my ey]; cbn;
    try reflexivity; try (destruct sx, sy; reflexivity);
    try (destruct sx; reflexivity); try (destruct sy; reflexivity).
  change (Pos.compare_cont Eq) with Pos.compare.
  rewrite (Z.compare_antisym ex ey), (Pos.compare_antisym mx my).
  destruct sx, sy; try reflexivity;
    destruct (ex ?= ey); cbn; try reflexivity;
    destruct (mx ?= my)%positive; reflexivity.
Qed.

Lemma ltb_trans (x y z : float) :
  (x <? y)%float = true -> (y <? z)%float = true -> (x <? z)%float = true.
Proof.
  rewrite !ltb_spec. unfold SFltb.
  destruct (SFcompare (Prim2SF x) (Prim2SF y)) as [[]|] eqn:Hxy;
    try discriminate.
  destruct (SFcompare (Prim2SF y) (Prim2SF z)) as [[]|] eqn:Hyz;
    try discriminate.
  rewrite (SFcompare_lt_trans _ _ _ Hxy Hyz). reflexivity.
Qed.

Lemma ltb_irrefl (x : float) : (x <? x)%float = false.
Proof.
  rewrite ltb_spec. unfold SFltb.
  pose proof (SFcompare_antisym (Prim2SF x) (Prim2SF x)) as H.
  destruct (SFcompare (Prim2SF x) (Prim2SF x)) as [[]|]; try reflexivity.
  discriminate.
Qed.

Lemma not_ltb_leb (x y : float) :
  is_nan x = false -> is_nan y = false ->
  (x <? y)%float = false -> (y <=? x)%float = true.
Proof.
  unfold is_nan. rewrite !eqb_spec, ltb_spec, leb_spec.
  unfold SFeqb, SFltb, SFleb.
  rewrite (SFcompare_antisym (Prim2SF x) (Prim2SF y)).
  destruct (Prim2SF x) as [sx|sx| |sx mx ex], (Prim2SF y) as [sy|sy| |sy my ey];
    cbn; try discriminate; try reflexivity;
    try (destruct sx, sy; cbn; congruence);
    try (destruct sx; cbn; congruence); try (destruct sy; cbn; congruence).
  intros _ _.
  destruct sx, sy; cbn; try congruence;
   destruct (ex ?= ey); cbn; try congruence;
   destruct (Pos.compare_cont Eq mx my); cbn; congruence.
Qed.

(** ** [min] and [max] *)

Section Extremum.

(** A strict comparison of doubles, and the scan
    [if (lt a[i] best) best = a[i]]. *)
Variable lt : float -> float -> bool.
Hypothesis lt_trans :
  forall x y z, lt x y = true -> lt y z = true -> lt x z = true.
Hypothesis lt_irrefl : forall x, lt x x = false.

Let scan := fold_left (fun best ai => if lt ai best then ai else best).

Lemma scan_member (rest : list float) (a0 : float) :
  In (scan rest a0) (a0 :: rest).
Proof.
  revert a0. induction rest as [|x rest IH]; intros a0; cbn.
  - left. reflexivity.
  - destruct (IH (if lt x a0 then x else a0)) as [H|H].
    + destruct (lt x a0); rewrite <- H; auto.
    + auto.
Qed.

Lemma scan_below (rest : list float) (a0 : float) :
  forall seen : list float,
    (forall a, In a seen -> lt a a0 = false) ->
    forall a, In a (seen ++ rest) -> lt a (scan rest a0) = false.
Proof.
  revert a0. induction rest as [|x rest IH]; intros a0 seen Hseen a Hin; cbn.
  - rewrite app_nil_r in Hin. auto.
  - apply (IH _ (seen ++ [x])%list).
    + intros b Hb. apply in_app_or in Hb as [Hb|[<-|[]]].
      * destruct (lt x a0) eqn:Hx; [|auto].
        destruct (lt b x) eqn:Hbx; [|reflexivity].
        rewrite <- (Hseen b Hb). symmetry. eapply lt_trans; eassumption.
      * destruct (lt x a0) eqn:Hx; [apply lt_irrefl | exact Hx].
    + rewrite <- app_assoc. exact Hin.
Qed.

Lemma scan_extremum (rest : list float) (a0 : float) :
  forall a, In a (a0 :: rest) -> lt a (scan rest a0) = false.
Proof.
  intros a Hin. apply (scan_below rest a0 [a0]).
  - intros b [<-|[]]. apply lt_irrefl.
  - exact Hin.
Qed.

End Extremum.

Lemma fill_arguments_length (libm : Libm) (functions : list ExprLibFunction)
  (constants : list ExprLibConstant) (context : ExprContext)
  (args : list ExprNode) :
  forall (acc argv : list float) (st st' : eval_state),
    fill_arguments libm functions constants context args acc st
    = (argv, st', false) ->
    List.length argv = (List.length acc + List.length args)%nat.
Proof.
  induction args as [|arg rest IH]; intros acc argv st st' H; cbn in H.
  - injection H as <- _. cbn. lia.
  - destruct (evaluate_node libm functions constants context arg st);
      [|discriminate|discriminate].
    apply IH in H. rewrite H, length_app. cbn. lia.
Qed.

(** C9: in the library as initialised, a call of [min] (of [max]) with at
    least one argument passes the arity check whatever the count, and
    returns one of the argument values below (above) which no argument
    value lies; when no argument is NaN it is less (greater) than or equal
    to every argument. With no argument at all the call returns no value:
    [assert(n >= 1)] fails in the native function and the process is
    aborted. *)
Theorem min_max_variadic (libm : Libm) (context : ExprContext)
  (args : list ExprNode) (st st' : eval_state) (argv : list float)
  (Hargs : args <> [])
  (Hfill : fill_arguments libm (g_functions (initialized libm))
             (g_constants (initialized libm)) context args [] st
           = (argv, st', false)) :
  let eval :=
    evaluate_node libm (g_functions (initialized libm))
      (g_constants (initialized libm)) context in
  (exists least,
     eval (EXPR_NODE_FUNCTION_CALL "min" args) st
     = Value least (mkEval (error st') (invoked st' ++ [("min", argv)]))
     /\ In least argv
     /\ (forall a, In a argv -> (a <? least)%float = false)
     /\ ((forall a, In a argv -> is_nan a = false) ->
         forall a, In a argv -> (least <=? a)%float = true))
  /\ (exists greatest,
        eval (EXPR_NODE_FUNCTION_CALL "max" args) st
        = Value greatest (mkEval (error st') (invoked st' ++ [("max", argv)]))
        /\ In greatest argv
        /\ (forall a, In a argv -> (greatest <? a)%float = false)
        /\ ((forall a, In a argv -> is_nan a = false) ->
            forall a, In a argv -> (a <=? greatest)%float = true))
  /\ eval (EXPR_NODE_FUNCTION_CALL "min" []) st
     = Aborted (mkEval (error st) (invoked st ++ [("min", [])]))
  /\ eval (EXPR_NODE_FUNCTION_CALL "max" []) st
     = Aborted (mkEval (error st) (invoked st ++ [("max", [])])).
Proof.
  intros eval.
  pose proof (fill_arguments_length _ _ _ _ _ _ _ _ _ Hfill) as Hlen.
  destruct argv as [|a0 rest];
    [destruct args; [contradiction | discriminate]|].
  split; [|split; [|split; reflexivity]].
  - exists (fold_left
              (fun best ai => if (ai <? best)%float then ai else best)
              rest a0).
    split.
    { unfold eval.
      rewrite (call_invokes_after_argument_loop _ _ _ _ "min" args
                 (mkFunction "min" (-1) fn_min) st st' (a0 :: rest));
        [reflexivity | reflexivity | left; reflexivity | exact Hfill]. }
    split; [apply scan_member|].
    assert (Hleast := scan_extremum PrimFloat.ltb ltb_trans ltb_irrefl rest a0).
    split; [exact Hleast|].
    intros Hnan a Hin. apply not_ltb_leb; auto.
    apply Hnan, scan_member.
  - exists (fold_left
              (fun best ai => if (best <? ai)%float then ai else best)
              rest a0).
    split.
    { unfold eval.
      rewrite (call_invokes_after_argument_loop _ _ _ _ "max" args
                 (mkFunction "max" (-1) fn_max) st st' (a0 :: rest));
        [reflexivity | reflexivity | left; reflexivity | exact Hfill]. }
    split; [apply (scan_member (fun x y => PrimFloat.ltb y x))|].
    assert (Hgreatest :=
              scan_extremum (fun x y => PrimFloat.ltb y x)
                (fun x y z Hxy Hyz => ltb_trans z y x Hyz Hxy)
                ltb_irrefl rest a0).
    split; [exact Hgreatest|].
    intros Hnan a Hin. apply not_ltb_leb; auto.
    apply Hnan, (scan_member (fun x y => PrimFloat.ltb y x)).
Qed.

(** C9 at [min(3, 1, 2)] and [max(3, 1, 2)]. *)
Lemma min_max_variadic_witness :
  exprlib_evaluate test_libm (initialized test_libm)
    (Some (EXPR_NODE_FUNCTION_CALL "min"
             [EXPR_NODE_NUMBER 3; EXPR_NODE_NUMBER 1; EXPR_NODE_NUMBER 2])) []
  = Value 1%float
      (mkEval EXPRLIB_SUCCESS [("min", [3%float; 1%float; 2%float])])
  /\ exists greatest,
       exprlib_evaluate test_libm (initialized test_libm)
         (Some (EXPR_NODE_FUNCTION_CALL "max"
                  [EXPR_NODE_NUMBER 3; EXPR_NODE_NUMBER 1;
                   EXPR_NODE_NUMBER 2])) []
       = Value greatest
           (mkEval EXPRLIB_SUCCESS [("max", [3%float; 1%float; 2%float])])
       /\ (forall a, In a [3%float; 1%float; 2%float] ->
           (greatest <? a)%float = false).
Proof.
  split; [reflexivity|].
  destruct (min_max_variadic test_libm []
              [EXPR_NODE_NUMBER 3; EXPR_NODE_NUMBER 1; EXPR_NODE_NUMBER 2]
              (mkEval EXPRLIB_SUCCESS []) (mkEval EXPRLIB_SUCCESS [])
              [3%float; 1%float; 2%float])
    as (_ & (greatest & Heval & _ & Habove & _) & _);
    [discriminate | reflexivity |].
  exists greatest. split; [exact Heval | exact Habove].
Defined.

(* ================================================================== *)
(** * Further properties *)

(** ** The function table *)

Lemma find_function_app (fs more : list ExprLibFunction) (name : string) :
  find_function (fs ++ more) name
  = match find_function fs name with
    | Some f => Some f
    | None => find_function more name
    end.
Proof.
  induction fs as [|f fs IH]; cbn; [reflexivity|].
  destruct (String.eqb (fn_name f) name); [reflexivity | exact IH].
Qed.

Lemma find_function_absent (fs : list ExprLibFunction) (name : string) :
  ~ In name (map fn_name fs) -> find_function fs name = None.
Proof.
  intros H. destruct (find_function fs name) as [f|] eqn:E; [|reflexivity].
  exfalso. apply H, existsb_registered, existsb_find_function.
  exists f. split; [exact E|].
  clear H. induction fs as [|f0 fs IH]; cbn in E; [discriminate|].
  destruct (String.eqb_spec (fn_name f0) name); [congruence | auto].
Qed.

(** X1: a registration under a new, non-empty name with an arity of at
    least -1 succeeds: the entry is appended after the existing ones,
    [find_function] returns it for that name and what it returned before
    for every other name; the constants and [EXPRLIB_ERROR] (which a
    success does not clear) are as they were. *)
Theorem registration_then_lookup (g : Globals) (name : string) (arity : Z)
  (fn : ExprLibFnPtr)
  (Hname : name <> "")
  (Harity : -1 <= arity)
  (Hfresh : ~ In name (map fn_name (g_functions g))) :
  let result := exprlib_register_function (Some name) arity (Some fn) g in
  fst result = true
  /\ g_functions (snd result)
     = (g_functions g ++ [mkFunction name arity fn])%list
  /\ g_constants (snd result) = g_constants g
  /\ EXPRLIB_ERROR (snd result) = EXPRLIB_ERROR g
  /\ find_function (g_functions (snd result)) name
     = Some (mkFunction name arity fn)
  /\ (forall other,
        other <> name ->
        find_function (g_functions (snd result)) other
        = find_function (g_functions g) other).
Proof.
  cbn zeta. unfold exprlib_register_function.
  destruct name as [|c rest]; [contradiction|].
  destruct (Z.ltb_spec arity (-1)); [lia|].
  destruct (existsb _ (g_functions g)) eqn:Hdup;
    [apply existsb_registered in Hdup; contradiction|].
  cbn [fst snd g_functions g_constants EXPRLIB_ERROR].
  repeat split.
  - rewrite find_function_app, (find_function_absent _ _ Hfresh).
    cbn [find_function fn_name]. rewrite String.eqb_refl. reflexivity.
  - intros other Hother. rewrite find_function_app.
    destruct (find_function (g_functions g) other); [reflexivity|].
    cbn [find_function fn_name].
    destruct (String.eqb_spec (String c rest) other);
      [congruence | reflexivity].
Qed.

(** X1 at a user function ["twice"] of one argument. *)
Lemma registration_then_lookup_witness :
  find_function
    (g_functions
       (snd (exprlib_register_function (Some "twice") 1 (Some fn_abs)
               (initialized test_libm)))) "twice"
  = Some (mkFunction "twice" 1 fn_abs)
  /\ find_function
       (g_functions
          (snd (exprlib_register_function (Some "twice") 1 (Some fn_abs)
                  (initialized test_libm)))) "sqrt"
     = Some (mkFunction "sqrt" 1 fn_sqrt).
Proof.
  destruct (registration_then_lookup (initialized test_libm) "twice" 1
              fn_abs) as (_ & _ & _ & _ & Hnew & Hold).
  - discriminate.
  - lia.
  - vm_compute. intuition discriminate.
  - split; [exact Hnew|]. rewrite Hold by discriminate. reflexivity.
Defined.

(** X2: [exprlib_register_function] returns [true] exactly when the name
    is neither [NULL] nor empty, the function is not [NULL], the arity is
    at least -1 and the name is not registered yet. When it returns
    [false] both tables are unchanged and the error stored is, in this
    order of tests, [EXPRLIB_ERROR_NULL], [EXPRLIB_ERROR_INVALID_ARGUMENT]
    or [EXPRLIB_ERROR_DUPLICATE_FUNCTION]. *)
Theorem registration_succeeds_exactly_when (g : Globals)
  (name : option string) (arity : Z) (fn : option ExprLibFnPtr) :
  let result := exprlib_register_function name arity fn g in
  let well_formed_pointers :=
    match name, fn with
    | Some (String _ _), Some _ => true
    | _, _ => false
    end in
  let registered :=
    match name with
    | Some n => existsb (fun f => String.eqb (fn_name f) n) (g_functions g)
    | None => false
    end in
  fst result = well_formed_pointers && (-1 <=? arity) && negb registered
  /\ (fst result = false ->
      g_functions (snd result) = g_functions g
      /\ g_constants (snd result) = g_constants g
      /\ EXPRLIB_ERROR (snd result)
         = if negb well_formed_pointers then EXPRLIB_ERROR_NULL
           else if arity <? -1 then EXPRLIB_ERROR_INVALID_ARGUMENT
           else EXPRLIB_ERROR_DUPLICATE_FUNCTION).
Proof.
  cbn zeta. unfold exprlib_register_function.
  destruct name as [[|c rest]|], fn as [fn|]; cbn;
    try (split; [reflexivity | intros _; repeat split]).
  destruct (Z.ltb_spec arity (-1)) as [Hlt|Hge].
  - destruct (Z.leb_spec (-1) arity); [lia|].
    cbn. split; [reflexivity | intros _; repeat split].
  - destruct (Z.leb_spec (-1) arity); [|lia].
    destruct (existsb _ (g_functions g)); cbn.
    + split; [reflexivity | intros _; repeat split].
    + split; [reflexivity | discriminate].
Qed.

Lemma register_all_keeps_names_unique (calls : list registration) :
  forall g,
    NoDup (map fn_name (g_functions g)) ->
    NoDup (map fn_name (g_functions (register_all calls g))).
Proof.
  induction calls as [|call calls IH]; intros g H; [exact H|].
  cbn. apply IH, register_function_keeps_names_unique, H.
Qed.

(** X3: the names of the function table are pairwise distinct after
    [exprlib_init], whatever the tables held before it, and stay so under
    any run of registrations, successful or not. *)
Theorem registered_names_stay_unique (libm : Libm) (g : Globals)
  (calls : list registration) :
  NoDup (map fn_name (g_functions (register_all calls (exprlib_init libm g)))).
Proof.
  apply register_all_keeps_names_unique.
  destruct g as [fs cs e].
  change (map fn_name (g_functions (exprlib_init libm (mkGlobals fs cs e))))
    with ["sin"; "cos"; "tan"; "cot"; "sec"; "cosec"; "asin"; "acos"; "atan";
          "pow"; "sqrt"; "cbrt"; "ln"; "log10"; "exp"; "abs"; "floor"; "ceil";
          "round"; "deg2rad"; "rad2deg"; "min"; "max"; "factorial"; "nCr";
          "nPr"].
  repeat (constructor; [cbn; intuition discriminate|]).
  constructor.
Qed.

(** ** Constants and initialisation *)

Lemma find_constant_app (cs more : list ExprLibConstant) (name : string) :
  find_constant (cs ++ more) name
  = match find_constant cs name with
    | Some v => Some v
    | None => find_constant more name
    end.
Proof.
  induction cs as [|c cs IH]; cbn; [reflexivity|].
  destruct (String.eqb (const_name c) name); [reflexivity | exact IH].
Qed.

Lemma find_constant_defined (cs : list ExprLibConstant) (name : string) :
  existsb (fun c => String.eqb (const_name c) name) cs = true
  <-> exists v, find_constant cs name = Some v.
Proof.
  induction cs as [|c cs IH]; cbn.
  - split; [discriminate | intros [v H]; discriminate].
  - destruct (String.eqb (const_name c) name); cbn; [|exact IH].
    split; [intros _; eauto | reflexivity].
Qed.

Lemma find_variable_present (context : ExprContext) (name : string) :
  existsb (fun v => String.eqb (var_name v) name) context = true
  <-> exists v, find_variable context name = Some v.
Proof.
  induction context as [|x context IH]; cbn.
  - split; [discriminate | intros [v H]; discriminate].
  - destruct (String.eqb (var_name x) name); cbn; [|exact IH].
    split; [intros _; eauto | reflexivity].
Qed.

(** X4: [exprlib_register_constant] always succeeds and never replaces: a
    name that is a constant already keeps its first value, a new name gets
    the value given; the other names and the function table are untouched,
    and from then on the name counts as defined in every context. *)
Theorem constant_first_registration_wins (g : Globals) (name : string)
  (value : float) :
  let result := exprlib_register_constant name value g in
  fst result = true
  /\ g_functions (snd result) = g_functions g
  /\ EXPRLIB_ERROR (snd result) = EXPRLIB_ERROR g
  /\ find_constant (g_constants (snd result)) name
     = match find_constant (g_constants g) name with
       | Some first => Some first
       | None => Some value
       end
  /\ (forall other,
        other <> name ->
        find_constant (g_constants (snd result)) other
        = find_constant (g_constants g) other)
  /\ (forall context,
        is_defined_variable (g_constants (snd result)) name context = true).
Proof.
  cbn zeta. unfold exprlib_register_constant.
  cbn [fst snd g_functions g_constants EXPRLIB_ERROR].
  assert (Hname : find_constant (g_constants g ++ [mkConstant name value])
                    name
                  = match find_constant (g_constants g) name with
                    | Some first => Some first
                    | None => Some value
                    end).
  { rewrite find_constant_app. cbn [find_constant const_name const_value].
    rewrite String.eqb_refl. reflexivity. }
  repeat split.
  - exact Hname.
  - intros other Hother. rewrite find_constant_app.
    destruct (find_constant (g_constants g) other); [reflexivity|].
    cbn [find_constant const_name].
    destruct (String.eqb_spec name other); [congruence | reflexivity].
  - intros context. unfold is_defined_variable.
    assert (existsb (fun c => String.eqb (const_name c) name)
              (g_constants g ++ [mkConstant name value]) = true) as ->;
      [|reflexivity].
    apply find_constant_defined. rewrite Hname.
    destruct (find_constant (g_constants g) name); eauto.
Qed.

Lemma constants_after_function (name : string) (arity : Z)
  (fn : ExprLibFnPtr) (g : Globals) :
  g_constants (register_function_stmt name arity fn g) = g_constants g.
Proof.
  unfold register_function_stmt, exprlib_register_function.
  destruct name; [reflexivity|].
  destruct (arity <? -1); [reflexivity|].
  destruct (existsb _ _); reflexivity.
Qed.

Lemma constants_after_constant (name : string) (value : float)
  (g : Globals) :
  g_constants (register_constant_stmt name value g)
  = (g_constants g ++ [mkConstant name value])%list.
Proof. reflexivity. Qed.

(** X5: [exprlib_init] forgets every function registered before it and
    leaves the 26 built-ins, the same whatever the tables held; it keeps
    the constants that were there and appends the 13 built-in ones, so a
    second initialisation doubles them without changing what any name
    looks up to; it does not touch [EXPRLIB_ERROR]. *)
Theorem init_resets_functions_appends_constants (libm : Libm) (g : Globals) :
  g_functions (exprlib_init libm g) = g_functions (initialized libm)
  /\ List.length (g_functions (exprlib_init libm g)) = 26%nat
  /\ g_constants (exprlib_init libm g)
     = (g_constants g ++ g_constants (initialized libm))%list
  /\ List.length (g_constants (initialized libm)) = 13%nat
  /\ EXPRLIB_ERROR (exprlib_init libm g) = EXPRLIB_ERROR g
  /\ (forall name,
        find_constant (g_constants (exprlib_init libm (exprlib_init libm g)))
          name
        = find_constant (g_constants (exprlib_init libm g)) name).
Proof.
  assert (Hconstants : forall g0,
             g_constants (exprlib_init libm g0)
             = (g_constants g0 ++ g_constants (initialized libm))%list).
  { intros g0.
    unfold initialized, exprlib_init, exprlib_register_builtins.
    cbv zeta.
    rewrite !constants_after_constant, !constants_after_function.
    cbn [g_constants startup].
    repeat rewrite <- app_assoc. reflexivity. }
  destruct g as [fs cs e].
  split; [reflexivity|]. split; [reflexivity|].
  split; [apply Hconstants|]. split; [reflexivity|]. split; [reflexivity|].
  intros name. rewrite (Hconstants (exprlib_init libm _)), find_constant_app.
  rewrite Hconstants, find_constant_app.
  destruct (find_constant (g_constants (mkGlobals fs cs e)) name);
    [reflexivity|].
  destruct (find_constant (g_constants (initialized libm)) name); reflexivity.
Qed.

(** X6: the test the parser makes on a bare name and the lookup the
    evaluator makes agree: the name is defined exactly when evaluating the
    variable node succeeds; the value is the constant of that name when
    there is one, even if the context has a variable of the same name, and
    the context's first variable of that name otherwise. An undefined
    name evaluates to 0.0 with [EXPRLIB_ERROR_UNDEFINED_VARIABLE]. *)
Theorem defined_iff_variable_evaluates (libm : Libm)
  (functions : list ExprLibFunction) (cs : list ExprLibConstant)
  (context : ExprContext) (name : string) (st : eval_state) :
  evaluate_node libm functions cs context (EXPR_NODE_VARIABLE name) st
  = match find_constant cs name, find_variable context name with
    | Some constant, _ => Value constant st
    | None, Some value => Value value st
    | None, None =>
        Value 0%float (fail_with EXPRLIB_ERROR_UNDEFINED_VARIABLE st)
    end
  /\ is_defined_variable cs name context
     = match find_constant cs name, find_variable context name with
       | None, None => false
       | _, _ => true
       end.
Proof.
  split; [reflexivity|].
  unfold is_defined_variable.
  pose proof (find_constant_defined cs name) as Hc.
  pose proof (find_variable_present context name) as Hv.
  destruct (find_constant cs name) as [c|].
  - destruct Hc as [_ Hc]. rewrite Hc by eauto. reflexivity.
  - destruct (existsb _ cs); [destruct Hc as [[v Hc] _]; [reflexivity | discriminate]|].
    destruct (find_variable context name) as [v|].
    + destruct Hv as [_ Hv]. rewrite Hv by eauto. reflexivity.
    + destruct (existsb _ context); [|reflexivity].
      destruct Hv as [[v Hv] _]; [reflexivity | discriminate].
Qed.

Lemma defined_variable_lookup (cs : list ExprLibConstant)
  (context : ExprContext) (name : string) :
  is_defined_variable cs name context = true ->
  match find_constant cs name, find_variable context name with
  | None, None => False
  | _, _ => True
  end.
Proof.
  unfold is_defined_variable.
  pose proof (find_constant_defined cs name) as Hc.
  pose proof (find_variable_present context name) as Hv.
  destruct (existsb _ cs).
  - destruct Hc as [[v ->] _]; [reflexivity | exact (fun _ => I)].
  - destruct (existsb _ context); [|discriminate].
    destruct Hv as [[v ->] _]; [reflexivity|].
    destruct (find_constant cs name); exact (fun _ => I).
Qed.

(** ** What the parser returns *)

Lemma fold_constants_of_operator (libm : Libm) (op : ascii) (l r : float)
  (failure : ExprLibError) :
  0 <= get_precedence op ->
  fold_constants libm op l r = inr failure ->
  failure = EXPRLIB_ERROR_DIVISION_BY_ZERO.
Proof.
  unfold get_precedence, fold_constants.
  repeat match goal with
         | |- context [Ascii.eqb op ?c] => destruct (Ascii.eqb op c)
         end;
    try (intros _ H; repeat match type of H with
                            | context [if ?b then _ else _] => destruct b
                            end; congruence).
  intros H. exfalso. lia.
Qed.

Section Soundness.

Variable libm : Libm.
Variable cs : list ExprLibConstant.
Variable context : ExprContext.

Lemma parse_sound (fuel : nat) :
  (forall s,
     sound_result (well_formed cs context) (parse_unary libm cs context fuel s EXPRLIB_SUCCESS))
  /\ (forall s args,
        forallb (well_formed cs context) args = true ->
        sound_result (forallb (well_formed cs context))
          (parse_args libm cs context fuel s EXPRLIB_SUCCESS args))
  /\ (forall expr_prec lhs s,
        0 <= expr_prec -> (well_formed cs context) lhs = true ->
        sound_result (well_formed cs context)
          (parse_binary_rhs libm cs context fuel expr_prec lhs s
             EXPRLIB_SUCCESS))
  /\ (forall s,
        sound_result (well_formed cs context)
          (parse_internal libm cs context fuel s EXPRLIB_SUCCESS)).
Proof.
  induction fuel as [|fuel (IHu & IHa & IHb & IHi)].
  - repeat split; intros; exact I.
  - repeat split.
    + intros s. rewrite parse_unary_eq. cbn zeta.
      destruct (Ascii.eqb (peek (skip_spaces s)) "-").
      { specialize (IHu (advance (skip_spaces s))).
        destruct (parse_unary libm cs context fuel _ _) as [operand s1 e1|e1|];
          [|exact IHu|exact I].
        destruct IHu as [-> Hoperand]. cbn. rewrite Hoperand. auto. }
      destruct (Ascii.eqb (peek (skip_spaces s)) "(").
      { specialize (IHi (advance (skip_spaces s))).
        destruct (parse_internal libm cs context fuel _ _) as [inner s1 e1|e1|];
          [|exact IHi|exact I].
        destruct IHi as [-> Hinner]. cbn [negb is_success].
        destruct (negb (Ascii.eqb (peek s1) ")")); cbn; auto. }
      destruct (parse_number (skip_spaces s)) as [[number found] s1].
      destruct found; [cbn; auto|].
      destruct (is_alpha (peek s1)); [|reflexivity].
      destruct (scan_identifier s1) as [name s2].
      destruct (Ascii.eqb (peek (skip_spaces s2)) "(").
      * assert (Hargs :
                  sound_result (forallb (well_formed cs context))
                    (if negb (Ascii.eqb
                                (peek (skip_spaces (advance (skip_spaces s2))))
                                ")")
                     then parse_args libm cs context fuel
                            (skip_spaces (advance (skip_spaces s2)))
                            EXPRLIB_SUCCESS []
                     else Built [] (skip_spaces (advance (skip_spaces s2)))
                            EXPRLIB_SUCCESS)).
        { destruct (negb _); [apply IHa; reflexivity | cbn; auto]. }
        destruct (if negb (Ascii.eqb
                             (peek (skip_spaces (advance (skip_spaces s2))))
                             ")")
                  then _ else _) as [args s4 e4|e4|]; [|exact Hargs|exact I].
        destruct Hargs as [-> Hargs].
        destruct (negb (Ascii.eqb (peek s4) ")")); cbn; auto.
      * destruct (is_defined_variable cs name context) eqn:Hdefined; cbn;
          auto.
    + intros s args Hshape. rewrite parse_args_eq.
      specialize (IHi s).
      destruct (parse_internal libm cs context fuel s _) as [arg s1 e1|e1|];
        [|exact IHi|exact I].
      destruct IHi as [-> Harg]. cbn [negb is_success]. cbn zeta.
      assert (Hall : forallb (well_formed cs context) (args ++ [arg]) = true)
        by (rewrite forallb_app, Hshape; cbn; rewrite Harg; reflexivity).
      destruct (Ascii.eqb (peek (skip_spaces s1)) ","); [apply IHa, Hall|].
      destruct (Ascii.eqb (peek (skip_spaces s1)) ")"); cbn; auto.
    + intros expr_prec lhs s Hprec Hlhs.
      rewrite parse_binary_rhs_eq. cbn zeta.
      destruct (Z.ltb_spec (get_precedence (peek (skip_spaces s))) expr_prec)
        as [|Hop]; [cbn; auto|].
      specialize (IHu (advance (skip_spaces s))).
      destruct (parse_unary libm cs context fuel _ _) as [rhs s1 e1|e1|];
        [|exact IHu|exact I].
      destruct IHu as [-> Hrhs].
      set (op := peek (skip_spaces s)) in *.
      assert (Hstep : forall rhs' s2,
                 (well_formed cs context) rhs' = true ->
                 sound_result (well_formed cs context)
                   match lhs, rhs' with
                   | EXPR_NODE_NUMBER left_val, EXPR_NODE_NUMBER right_val =>
                       match fold_constants libm op left_val right_val with
                       | inr failure => Null failure
                       | inl result =>
                           let '(lhs, e) := create_number_node result in
                           if negb (is_success e) then Null e
                           else parse_binary_rhs libm cs context fuel
                                  expr_prec lhs s2 e
                       end
                   | _, _ =>
                       let '(lhs, e) := create_operator_node op lhs rhs' in
                       if negb (is_success e) then Null e
                       else parse_binary_rhs libm cs context fuel expr_prec
                              lhs s2 e
                   end).
      { intros rhs' s2 Hrhs'.
        assert (Hnode : (well_formed cs context) (EXPR_NODE_OPERATOR op lhs rhs') = true).
        { cbn. rewrite Hlhs, Hrhs'.
          destruct (Z.leb_spec 0 (get_precedence op)); [reflexivity | lia]. }
        destruct lhs, rhs'; cbn [create_operator_node negb is_success];
          try (apply IHb; [exact Hprec | exact Hnode]).
        destruct (fold_constants libm op number number0) eqn:Hfold.
        - apply IHb; [exact Hprec | reflexivity].
        - apply fold_constants_of_operator in Hfold; [|lia].
          subst. reflexivity. }
      match goal with
      | |- context [if ?c then _ else _] => destruct c
      end.
      * match goal with
        | |- context [parse_binary_rhs libm cs context fuel ?p rhs ?t _] =>
            specialize (IHb p rhs t) as Hclimb;
            destruct (parse_binary_rhs libm cs context fuel p rhs t _)
              as [rhs' s2 e2|e2|]; [|apply Hclimb; [lia | exact Hrhs]|exact I]
        end.
        destruct Hclimb as [-> Hrhs']; [lia | exact Hrhs|].
        apply Hstep, Hrhs'.
      * apply Hstep, Hrhs.
    + intros s. rewrite parse_internal_eq.
      specialize (IHu s).
      destruct (parse_unary libm cs context fuel s _) as [lhs s1 e1|e1|];
        [|exact IHu|exact I].
      destruct IHu as [-> Hlhs]. cbn [negb is_success].
      apply IHb; [lia | exact Hlhs].
Qed.

(** X7: [exprlib_parse] ends in one of four ways: a tree with
    [EXPRLIB_SUCCESS], or [NULL] with [EXPRLIB_ERROR_SYNTAX],
    [EXPRLIB_ERROR_UNDEFINED_VARIABLE] or
    [EXPRLIB_ERROR_DIVISION_BY_ZERO]. It never returns a tree with an
    error set, never [NULL] without one, and never reports
    [EXPRLIB_ERROR_UNKNOWN]: the default branch of its constant-folding
    switch cannot be reached. *)
Theorem parse_ends_in_four_ways (expression : string) :
  (exists node,
     exprlib_parse libm cs context expression
     = Some (Some node, EXPRLIB_SUCCESS))
  \/ exprlib_parse libm cs context expression
     = Some (None, EXPRLIB_ERROR_SYNTAX)
  \/ exprlib_parse libm cs context expression
     = Some (None, EXPRLIB_ERROR_UNDEFINED_VARIABLE)
  \/ exprlib_parse libm cs context expression
     = Some (None, EXPRLIB_ERROR_DIVISION_BY_ZERO).
Proof.
  pose proof (exprlib_parse_returns libm cs context expression) as Hreturns.
  unfold exprlib_parse in *.
  destruct (parse_sound (parse_budget expression)) as (_ & _ & _ & Hi).
  specialize (Hi expression).
  destruct (parse_internal libm cs context (parse_budget expression)
              expression EXPRLIB_SUCCESS) as [node s e|e|].
  - destruct Hi as [-> _]. left. eauto.
  - right. destruct e; try discriminate Hi; auto.
  - contradiction.
Qed.

(** X8: in every tree [exprlib_parse] returns, each variable node names a
    registered constant or a variable of the context the text was parsed
    against, and each operator node carries one of [+ - * / ^]. *)
Theorem parsed_tree_is_well_formed (expression : string) (node : ExprNode)
  (e : ExprLibError)
  (Hparse : exprlib_parse libm cs context expression = Some (Some node, e)) :
  well_formed cs context node = true.
Proof.
  unfold exprlib_parse in Hparse.
  destruct (parse_sound (parse_budget expression)) as (_ & _ & _ & Hi).
  specialize (Hi expression).
  destruct (parse_internal libm cs context (parse_budget expression)
              expression EXPRLIB_SUCCESS) as [node' s e'|e'|];
    try discriminate.
  injection Hparse as <- _. apply Hi.
Qed.

End Soundness.

(** X8 at ["x * (pi + f(2 ^ x))"] with [x] in the context. *)
Lemma parsed_tree_is_well_formed_witness :
  exprlib_parse test_libm (g_constants (initialized test_libm))
    [mkVariable "x" 1%float] "x * (pi + f(2 ^ x))"
  = Some
      (Some
         (EXPR_NODE_OPERATOR "*" (EXPR_NODE_VARIABLE "x")
            (EXPR_NODE_OPERATOR "+" (EXPR_NODE_VARIABLE "pi")
               (EXPR_NODE_FUNCTION_CALL "f"
                  [EXPR_NODE_OPERATOR "^" (EXPR_NODE_NUMBER 2)
                     (EXPR_NODE_VARIABLE "x")]))),
       EXPRLIB_SUCCESS)
  /\ well_formed (g_constants (initialized test_libm))
       [mkVariable "x" 1%float]
       (EXPR_NODE_OPERATOR "*" (EXPR_NODE_VARIABLE "x")
          (EXPR_NODE_OPERATOR "+" (EXPR_NODE_VARIABLE "pi")
             (EXPR_NODE_FUNCTION_CALL "f"
                [EXPR_NODE_OPERATOR "^" (EXPR_NODE_NUMBER 2)
                   (EXPR_NODE_VARIABLE "x")])))
     = true.
Proof.
  split; [reflexivity|].
  apply (parsed_tree_is_well_formed test_libm
           (g_constants (initialized test_libm)) [mkVariable "x" 1%float]
           "x * (pi + f(2 ^ x))" _ EXPRLIB_SUCCESS).
  reflexivity.
Defined.

(** ** Evaluation *)

(** Induction on trees, with the property at hand for every argument of a
    call. *)
Lemma ExprNode_nested_ind (P : ExprNode -> Prop)
  (Hnumber : forall v, P (EXPR_NODE_NUMBER v))
  (Hvariable : forall name, P (EXPR_NODE_VARIABLE name))
  (Hoperator : forall op l r, P l -> P r -> P (EXPR_NODE_OPERATOR op l r))
  (Hcall : forall name args,
      Forall P args -> P (EXPR_NODE_FUNCTION_CALL name args)) :
  forall node, P node.
Proof.
  fix IH 1. intros [v|name|op l r|name args].
  - apply Hnumber.
  - apply Hvariable.
  - apply Hoperator; apply IH.
  - apply Hcall.
    exact ((fix all (l : list ExprNode) : Forall P l :=
              match l with
              | [] => Forall_nil P
              | a :: rest => Forall_cons a (IH a) (all rest)
              end) args).
Qed.

Section EvaluationFacts.

Variable libm : Libm.
Variable functions : list ExprLibFunction.
Variable cs : list ExprLibConstant.

Lemma apply_operator_outcome (op : ascii) (l r : float) (st : eval_state) :
  0 <= get_precedence op ->
  (exists v, apply_operator libm op l r st = Value v st)
  \/ apply_operator libm op l r st
     = Value 0%float (fail_with EXPRLIB_ERROR_DIVISION_BY_ZERO st).
Proof.
  unfold get_precedence, apply_operator.
  repeat match goal with
         | |- context [Ascii.eqb op ?c] => destruct (Ascii.eqb op c)
         end;
    intros H; try lia;
    repeat match goal with
           | |- context [if ?b then _ else _] => destruct b
           end; eauto.
Qed.

(** A well-formed tree without calls either evaluates to a value and
    leaves the state as it was, or fails with a division by zero. *)
Lemma call_free_outcome (context : ExprContext) (node : ExprNode) :
  call_free node = true ->
  well_formed cs context node = true ->
  forall st,
    is_success (error st) = true ->
    (exists v,
       evaluate_node libm functions cs context node st = Value v st)
    \/ evaluate_node libm functions cs context node st
       = Value 0%float (fail_with EXPRLIB_ERROR_DIVISION_BY_ZERO st).
Proof.
  induction node as [v|name|op l IHl r IHr|name args];
    intros Hfree Hshape st Hst.
  - left. exists v. reflexivity.
  - left. cbn in Hshape |- *.
    pose proof (defined_variable_lookup cs context name Hshape) as Hlookup.
    destruct (find_constant cs name) as [c|]; [eauto|].
    destruct (find_variable context name) as [v|]; [eauto | contradiction].
  - cbn in Hfree, Hshape.
    apply andb_prop in Hfree as [Hfl Hfr].
    apply andb_prop in Hshape as [Hshape Hsr].
    apply andb_prop in Hshape as [Hop Hsl].
    apply Z.leb_le in Hop.
    cbn [evaluate_node].
    destruct (IHl Hfl Hsl st Hst) as [[lv ->]| ->].
    + rewrite Hst. cbn [negb].
      destruct (IHr Hfr Hsr st Hst) as [[rv ->]| ->].
      * rewrite Hst. cbn [negb]. apply apply_operator_outcome, Hop.
      * right. reflexivity.
    + right. reflexivity.
  - discriminate.
Qed.

End EvaluationFacts.

(** X9: a tree without function calls that [exprlib_parse] returned,
    evaluated under the constants and the context it was parsed against,
    either yields a value with [EXPRLIB_SUCCESS], or yields 0.0 with
    [EXPRLIB_ERROR_DIVISION_BY_ZERO]: no other error is possible, no
    native function is invoked and the process is not aborted. *)
Theorem parsed_arithmetic_fails_only_by_zero_division (libm : Libm)
  (g : Globals) (context : ExprContext) (expression : string)
  (node : ExprNode) (e : ExprLibError)
  (Hparse : exprlib_parse libm (g_constants g) context expression
            = Some (Some node, e))
  (Hfree : call_free node = true) :
  (exists v,
     exprlib_evaluate libm g (Some node) context
     = Value v (mkEval EXPRLIB_SUCCESS []))
  \/ exprlib_evaluate libm g (Some node) context
     = Value 0%float (mkEval EXPRLIB_ERROR_DIVISION_BY_ZERO []).
Proof.
  assert (Hshape : well_formed (g_constants g) context node = true).
  { unfold exprlib_parse in Hparse.
    destruct (parse_sound libm (g_constants g) context
                (parse_budget expression)) as (_ & _ & _ & Hi).
    specialize (Hi expression).
    destruct (parse_internal libm (g_constants g) context
                (parse_budget expression) expression EXPRLIB_SUCCESS)
      as [node' s e'|e'|]; try discriminate.
    injection Hparse as <- _. apply Hi. }
  exact (call_free_outcome libm (g_functions g) (g_constants g) context node
           Hfree Hshape (mkEval EXPRLIB_SUCCESS []) eq_refl).
Qed.

(** X9 at ["(x + 1) / (x - 2)"] with [x = 2.0]. *)
Lemma parsed_arithmetic_fails_only_by_zero_division_witness :
  exprlib_parse test_libm (g_constants (initialized test_libm))
    [mkVariable "x" 2%float] "(x + 1) / (x - 2)"
  = Some (Some (EXPR_NODE_OPERATOR "/"
                  (EXPR_NODE_OPERATOR "+" (EXPR_NODE_VARIABLE "x")
                     (EXPR_NODE_NUMBER 1))
                  (EXPR_NODE_OPERATOR "-" (EXPR_NODE_VARIABLE "x")
                     (EXPR_NODE_NUMBER 2))),
          EXPRLIB_SUCCESS)
  /\ ((exists v,
         exprlib_evaluate test_libm (initialized test_libm)
           (Some (EXPR_NODE_OPERATOR "/"
                    (EXPR_NODE_OPERATOR "+" (EXPR_NODE_VARIABLE "x")
                       (EXPR_NODE_NUMBER 1))
                    (EXPR_NODE_OPERATOR "-" (EXPR_NODE_VARIABLE "x")
                       (EXPR_NODE_NUMBER 2))))
           [mkVariable "x" 2%float]
         = Value v (mkEval EXPRLIB_SUCCESS []))
      \/ exprlib_evaluate test_libm (initialized test_libm)
           (Some (EXPR_NODE_OPERATOR "/"
                    (EXPR_NODE_OPERATOR "+" (EXPR_NODE_VARIABLE "x")
                       (EXPR_NODE_NUMBER 1))
                    (EXPR_NODE_OPERATOR "-" (EXPR_NODE_VARIABLE "x")
                       (EXPR_NODE_NUMBER 2))))
           [mkVariable "x" 2%float]
         = Value 0%float (mkEval EXPRLIB_ERROR_DIVISION_BY_ZERO [])).
Proof.
  split; [reflexivity|].
  apply (parsed_arithmetic_fails_only_by_zero_division test_libm
           (initialized test_libm) [mkVariable "x" 2%float]
           "(x + 1) / (x - 2)" _ EXPRLIB_SUCCESS);
    reflexivity.
Defined.

Section ContextIndependence.

Variable libm : Libm.
Variable functions : list ExprLibFunction.
Variable cs : list ExprLibConstant.

(** X10: an evaluation reads the context only at the names of the
    variable nodes of the tree that no constant shadows: two contexts that
    agree on those names give the same outcome, whatever else they hold
    and in whatever order. *)
Theorem evaluation_reads_only_mentioned_variables
  (context other : ExprContext) (node : ExprNode)
  (Hagree : forall name,
      mentions name node = true ->
      find_constant cs name = None ->
      find_variable context name = find_variable other name) :
  forall st,
    evaluate_node libm functions cs context node st
    = evaluate_node libm functions cs other node st.
Proof.
  revert Hagree.
  induction node as [v|name|op l r IHl IHr|name args IHargs]
    using ExprNode_nested_ind; intros Hagree st.
  - reflexivity.
  - cbn [evaluate_node].
    destruct (find_constant cs name) eqn:Hconstant; [reflexivity|].
    rewrite (Hagree name); [reflexivity | apply String.eqb_refl | exact Hconstant].
  - cbn [evaluate_node].
    rewrite IHl by (intros n Hn; apply Hagree; cbn; rewrite Hn; reflexivity).
    destruct (evaluate_node libm functions cs other l st)
      as [lv st1|st1|st1]; [|reflexivity|reflexivity].
    destruct (negb (is_success (error st1))); [reflexivity|].
    rewrite IHr
      by (intros n Hn; apply Hagree; cbn; rewrite Hn; apply orb_true_r).
    reflexivity.
  - rewrite !evaluate_call.
    destruct (find_function functions name) as [fn|]; [|reflexivity].
    destruct (negb (fn_arity fn =? -1)
              && negb (fn_arity fn =? Z.of_nat (List.length args)))%Z;
      [reflexivity|].
    assert (Hfill : forall argv st0,
               argument_loop libm functions cs context args argv st0
               = argument_loop libm functions cs other args argv st0).
    { cbn [mentions] in Hagree. clear fn.
      induction IHargs as [|arg rest Harg _ IHrest]; intros argv st0;
        [reflexivity|].
      cbn [argument_loop].
      rewrite Harg
        by (intros n Hn; apply Hagree; cbn; rewrite Hn; reflexivity).
      destruct (evaluate_node libm functions cs other arg st0);
        [|reflexivity|reflexivity].
      apply IHrest. intros n Hn. apply Hagree. cbn. rewrite Hn.
      apply orb_true_r. }
    rewrite Hfill. reflexivity.
Qed.

End ContextIndependence.

(** X10 at [x ^ 2 + pi]: the contexts [{x: 3, pi: 0, y: 1}] and
    [{y: 7, x: 3}] agree on [x]; [pi] is a constant. *)
Lemma evaluation_reads_only_mentioned_variables_witness :
  evaluate_node test_libm (g_functions (initialized test_libm))
    (g_constants (initialized test_libm))
    [mkVariable "x" 3%float; mkVariable "pi" 0%float; mkVariable "y" 1%float]
    (EXPR_NODE_OPERATOR "+"
       (EXPR_NODE_OPERATOR "^" (EXPR_NODE_VARIABLE "x") (EXPR_NODE_NUMBER 2))
       (EXPR_NODE_VARIABLE "pi"))
    (mkEval EXPRLIB_SUCCESS [])
  = evaluate_node test_libm (g_functions (initialized test_libm))
      (g_constants (initialized test_libm))
      [mkVariable "y" 7%float; mkVariable "x" 3%float]
      (EXPR_NODE_OPERATOR "+"
         (EXPR_NODE_OPERATOR "^" (EXPR_NODE_VARIABLE "x") (EXPR_NODE_NUMBER 2))
         (EXPR_NODE_VARIABLE "pi"))
      (mkEval EXPRLIB_SUCCESS []).
Proof.
  apply evaluation_reads_only_mentioned_variables.
  intros name Hmentions Hconstant. cbn [mentions] in Hmentions.
  destruct (String.eqb_spec "x" name) as [Hx|_];
    [subst name; reflexivity|].
  destruct (String.eqb_spec "pi" name) as [Hpi|_];
    [|cbn in Hmentions; discriminate Hmentions].
  subst name. vm_compute in Hconstant. discriminate Hconstant.
Defined.

(** ** The built-in functions under dispatch *)

(** The loop of [factorial] comes to its end for every [x] below
    [INT_MAX]: the counter stops at [x + 1]. *)
Lemma factorial_loop_below (count : nat) (x : Z) :
  x < INT_MAX ->
  forall i result,
    1 <= i ->
    (Z.to_nat (x + 1 - i) <= count)%nat ->
    exists v, factorial_loop count x i result = Some v.
Proof.
  change INT_MAX with 2147483647. intros Hx.
  induction count as [|count IH]; intros i result Hi Hcount; cbn.
  - destruct (Z.leb_spec i x); [lia | cbn; eauto].
  - destruct (Z.leb_spec i x); [|cbn; eauto]. cbn [negb].
    change INT_MAX with 2147483647.
    destruct (Z.eqb_spec i 2147483647); [lia|].
    apply IH; lia.
Qed.

(** At [INT_MAX] the counter reaches [INT_MAX] with the test still true,
    and the increment overflows. *)
Lemma factorial_loop_at_INT_MAX (count : nat) :
  forall i result,
    1 <= i <= INT_MAX ->
    (Z.to_nat (INT_MAX - i) <= count)%nat ->
    factorial_loop count INT_MAX i result = None.
Proof.
  change INT_MAX with 2147483647.
  induction count as [|count IH]; intros i result Hi Hcount; cbn;
    change INT_MAX with 2147483647.
  - destruct (Z.leb_spec i 2147483647); [|lia]. cbn [negb].
    destruct (Z.eqb_spec i 2147483647); [reflexivity | lia].
  - destruct (Z.leb_spec i 2147483647); [|lia]. cbn [negb].
    destruct (Z.eqb_spec i 2147483647); [reflexivity|].
    apply IH; lia.
Qed.

Lemma int_of_double_in_range (x : float) :
  int_convertible x = true -> INT_MIN <= int_of_double x <= INT_MAX.
Proof.
  unfold int_convertible, int_of_double.
  destruct (Prim2SF x) as [sign|sign| |sign m e]; try discriminate.
  - intros _. split; discriminate.
  - cbn zeta. intros H. rewrite H.
    apply andb_prop in H as [Hmin Hmax].
    apply Z.leb_le in Hmin, Hmax. split; assumption.
Qed.

(** Where the conversion is defined, [factorial] is undefined past its
    guard exactly at [INT_MAX]: the bound on the iterations of the
    embedding is never what stops the loop. *)
Lemma factorial_value_undefined (x : float) :
  int_convertible x = true ->
  factorial_value x = None <-> int_of_double x = INT_MAX.
Proof.
  intros Hconvertible.
  pose proof (int_of_double_in_range x Hconvertible) as [_ Hmax].
  unfold factorial_value. rewrite Hconvertible.
  set (n := int_of_double x) in *. split.
  - intros Hnone.
    destruct (Z.eq_dec n INT_MAX) as [Hn|Hn]; [exact Hn|].
    destruct (factorial_loop_below (Z.to_nat n) n ltac:(lia) 1 1%float)
      as [v Hv]; [lia | | congruence].
    replace (n + 1 - 1) with n by lia. apply Nat.le_refl.
  - intros ->. apply factorial_loop_at_INT_MAX.
    + change INT_MAX with 2147483647. lia.
    + apply Z2Nat.inj_le; change INT_MAX with 2147483647; lia.
Qed.

(** What [find_function] can return in the initialised library: an entry
    of that name whose native function, on every argument array that
    passes the arity check of [evaluate_node], returns; save [min] and
    [max] on the empty array, whose assertion fails, and save [factorial],
    [nCr] and [nPr] where they are undefined. *)
Lemma builtin_returns (libm : Libm) (name : string) (fn : ExprLibFunction) :
  find_function (g_functions (initialized libm)) name = Some fn ->
  forall argv e,
    fn_arity fn = -1 \/ fn_arity fn = Z.of_nat (List.length argv) ->
    (fn_arity fn = -1 /\ (name = "min" \/ name = "max") /\ argv = [])
    \/ (exists v e', fn_ptr fn argv e = Returned v e')
    \/ ((name = "factorial" \/ name = "nCr" \/ name = "nPr")
        /\ fn_ptr fn argv e = UndefinedBehaviour).
Proof.
  intros Hfind argv e Harity.
  change (g_functions (initialized libm))
    with [mkFunction "sin" 1 (fn_sin libm); mkFunction "cos" 1 (fn_cos libm);
          mkFunction "tan" 1 (fn_tan libm); mkFunction "cot" 1 (fn_cot libm);
          mkFunction "sec" 1 (fn_sec libm);
          mkFunction "cosec" 1 (fn_cosec libm);
          mkFunction "asin" 1 (fn_asin libm);
          mkFunction "acos" 1 (fn_acos libm);
          mkFunction "atan" 1 (fn_atan libm);
          mkFunction "pow" 2 (fn_pow libm); mkFunction "sqrt" 1 fn_sqrt;
          mkFunction "cbrt" 1 (fn_cbrt libm); mkFunction "ln" 1 (fn_log libm);
          mkFunction "log10" 1 (fn_log10 libm);
          mkFunction "exp" 1 (fn_exp libm); mkFunction "abs" 1 fn_abs;
          mkFunction "floor" 1 (fn_floor libm);
          mkFunction "ceil" 1 (fn_ceil libm);
          mkFunction "round" 1 (fn_round libm);
          mkFunction "deg2rad" 1 fn_deg2rad;
          mkFunction "rad2deg" 1 fn_rad2deg; mkFunction "min" (-1) fn_min;
          mkFunction "max" (-1) fn_max; mkFunction "factorial" 1 factorial;
          mkFunction "nCr" 2 nCr; mkFunction "nPr" 2 nPr] in Hfind.
  cbn [find_function fn_name] in Hfind.
  repeat match type of Hfind with
         | context [String.eqb ?builtin name] =>
             destruct (String.eqb_spec builtin name) as [Hname|_];
             [subst name; injection Hfind as <- | ]
         end;
    try discriminate Hfind;
    cbn [fn_arity fn_ptr] in *;
    try (destruct Harity as [Harity|Harity]; [discriminate Harity|];
         destruct argv as [|x [|y [|z argv]]]; cbn in Harity; try lia;
         cbv [fn_sin fn_cos fn_tan fn_cot fn_sec fn_cosec fn_asin fn_acos
              fn_atan fn_pow fn_sqrt fn_cbrt fn_log fn_log10 fn_exp fn_abs
              fn_floor fn_ceil fn_round fn_deg2rad fn_rad2deg unary_builtin
              factorial nCr nPr];
         repeat match goal with
                | |- context [if ?b then _ else _] => destruct b
                | |- context [match factorial_value ?a with _ => _ end] =>
                    destruct (factorial_value a)
                end; eauto 7).
  - destruct argv as [|x argv];
      [left; repeat split; auto | right; left; unfold fn_min; eauto].
  - destruct argv as [|x argv];
      [left; repeat split; auto | right; left; unfold fn_max; eauto].
Qed.

Section Dispatch.

Variable libm : Libm.
Variable cs : list ExprLibConstant.
Variable context : ExprContext.

Let eval :=
  evaluate_node libm (g_functions (initialized libm)) cs context.

(** A tree without an empty [min] or [max] evaluates to a value, unless a
    call of [factorial], [nCr] or [nPr] in it is undefined. *)
Lemma builtins_outcome (node : ExprNode) :
  no_empty_extremum node = true ->
  forall st,
    (exists v st', eval node st = Value v st')
    \/ (no_counting_call node = false
        /\ exists st', eval node st = Undefined st').
Proof.
  unfold eval.
  induction node as [v|name|op l r IHl IHr|name args IHargs]
    using ExprNode_nested_ind; intros Hnode st.
  - left. cbn. eauto.
  - left. cbn. destruct (find_constant cs name); [eauto|].
    destruct (find_variable context name); eauto.
  - cbn in Hnode. apply andb_prop in Hnode as [Hl Hr].
    cbn [evaluate_node no_counting_call].
    destruct (IHl Hl st) as [(lv & st1 & ->)|(Hcl & st1 & ->)];
      [|right; rewrite Hcl; eauto].
    destruct (negb (is_success (error st1))); [eauto|].
    destruct (IHr Hr st1) as [(rv & st2 & ->)|(Hcr & st2 & ->)];
      [|right; rewrite Hcr, andb_false_r; eauto].
    destruct (negb (is_success (error st2))); [eauto|].
    left. unfold apply_operator.
    repeat match goal with
           | |- context [if ?b then _ else _] => destruct b
           end; eauto.
  - cbn [no_empty_extremum] in Hnode.
    apply andb_prop in Hnode as [Hextremum Hargs].
    rewrite evaluate_call. cbn [no_counting_call].
    destruct (find_function (g_functions (initialized libm)) name)
      as [fn|] eqn:Hfind; [|eauto].
    destruct (negb (fn_arity fn =? -1)
              && negb (fn_arity fn =? Z.of_nat (List.length args)))
      eqn:Hcheck; [eauto|].
    assert (Hloop : forall acc st0,
               (exists argv st',
                   argument_loop libm (g_functions (initialized libm)) cs
                     context args acc st0 = inl (argv, st')
                   /\ List.length argv
                      = (List.length acc + List.length args)%nat)
               \/ (forallb no_counting_call args = false
                   /\ exists st',
                     argument_loop libm (g_functions (initialized libm)) cs
                       context args acc st0 = inr (Undefined st'))).
    { clear Hfind Hcheck Hextremum.
      induction IHargs as [|arg rest Harg _ IHrest]; intros acc st0;
        cbn [argument_loop forallb].
      - left. exists acc, st0. split; [reflexivity | cbn; lia].
      - cbn [forallb] in Hargs. apply andb_prop in Hargs as [Harg0 Hrest].
        destruct (Harg Harg0 st0) as [(v & st1 & ->)|(Hc & st1 & ->)];
          [|right; rewrite Hc; eauto].
        destruct (IHrest Hrest (acc ++ [v])%list st1)
          as [(argv & st' & -> & Hlen)|(Hc & st' & ->)].
        + left. exists argv, st'. split; [reflexivity|].
          rewrite Hlen, length_app. cbn. lia.
        + right. rewrite Hc, andb_false_r. eauto. }
    destruct (Hloop [] st) as [(argv & st' & -> & Hlen)|(Hc & st' & ->)];
      [|right; rewrite Hc, andb_false_r; eauto].
    cbn [List.length Nat.add] in Hlen.
    assert (Harity : fn_arity fn = -1
                     \/ fn_arity fn = Z.of_nat (List.length argv)).
    { rewrite Hlen. apply andb_false_iff in Hcheck as [H|H];
        apply negb_false_iff, Z.eqb_eq in H; auto. }
    unfold invoke.
    destruct (builtin_returns libm name fn Hfind argv (error st') Harity)
      as [(_ & Hname & ->)|[(v & e' & ->)|(Hname & ->)]].
    + exfalso. destruct args; [|discriminate Hlen].
      destruct Hname as [-> | ->]; discriminate Hextremum.
    + eauto.
    + right. split; [|eauto].
      destruct Hname as [-> | [-> | ->]]; reflexivity.
Qed.

(** X11: with the built-in functions only, no evaluation trips an
    assertion of a native function, whatever the tree, the constants and
    the context, unless the tree holds a call of [min] or [max] with no
    argument: the arity check of [evaluate_node] keeps every other
    built-in from an argument count it asserts against. If moreover the
    tree calls none of [factorial], [nCr] and [nPr] (whose conversion to
    [int] and whose loop counter are undefined for large arguments), the
    evaluation returns a value. *)
Theorem builtins_abort_only_on_empty_extremum (node : ExprNode)
  (Hnode : no_empty_extremum node = true) :
  (forall st st', eval node st <> Aborted st')
  /\ (no_counting_call node = true ->
      forall st, exists v st', eval node st = Value v st').
Proof.
  split.
  - intros st st' Haborted.
    destruct (builtins_outcome node Hnode st)
      as [(v & st1 & H)|(_ & st1 & H)];
      rewrite H in Haborted; discriminate Haborted.
  - intros Hcalls st.
    destruct (builtins_outcome node Hnode st) as [H|(Hc & _)];
      [exact H|].
    rewrite Hc in Hcalls. discriminate Hcalls.
Qed.

End Dispatch.

(** X11 at [max(abs(0 - 3), pow(2, x))]. *)
Lemma builtins_abort_only_on_empty_extremum_witness :
  exists v st',
    evaluate_node test_libm (g_functions (initialized test_libm))
      (g_constants (initialized test_libm)) [mkVariable "x" 3%float]
      (EXPR_NODE_FUNCTION_CALL "max"
         [EXPR_NODE_FUNCTION_CALL "abs"
            [EXPR_NODE_OPERATOR "-" (EXPR_NODE_NUMBER 0)
               (EXPR_NODE_NUMBER 3)];
          EXPR_NODE_FUNCTION_CALL "pow"
            [EXPR_NODE_NUMBER 2; EXPR_NODE_VARIABLE "x"]])
      (mkEval EXPRLIB_SUCCESS [])
    = Value v st'.
Proof.
  apply (builtins_abort_only_on_empty_extremum test_libm
           (g_constants (initialized test_libm)) [mkVariable "x" 3%float]
           (EXPR_NODE_FUNCTION_CALL "max"
              [EXPR_NODE_FUNCTION_CALL "abs"
                 [EXPR_NODE_OPERATOR "-" (EXPR_NODE_NUMBER 0)
                    (EXPR_NODE_NUMBER 3)];
               EXPR_NODE_FUNCTION_CALL "pow"
                 [EXPR_NODE_NUMBER 2; EXPR_NODE_VARIABLE "x"]]));
    reflexivity.
Defined.

(** ** Results that do not depend on the budget *)

Section Settled.

Variable libm : Libm.
Variable cs : list ExprLibConstant.
Variable context : ExprContext.

Lemma parse_args_fuel_le (s : string) (e : ExprLibError)
  (args : list ExprNode) (fuel more : nat) :
  parse_args libm cs context fuel s e args <> Starved ->
  parse_args libm cs context (more + fuel) s e args
  = parse_args libm cs context fuel s e args.
Proof.
  intros H. induction more as [|more IH]; [reflexivity|].
  cbn [Nat.add].
  destruct (parse_fuel_succ libm cs context (more + fuel)) as (_ & Ha & _).
  rewrite Ha; [exact IH | rewrite IH; exact H].
Qed.

Lemma parse_unary_fuel_le (s : string) (e : ExprLibError) (fuel more : nat) :
  parse_unary libm cs context fuel s e <> Starved ->
  parse_unary libm cs context (more + fuel) s e
  = parse_unary libm cs context fuel s e.
Proof.
  intros H. induction more as [|more IH]; [reflexivity|].
  cbn [Nat.add].
  destruct (parse_fuel_succ libm cs context (more + fuel)) as (Hu & _).
  rewrite Hu; [exact IH | rewrite IH; exact H].
Qed.

(** Two budgets that both suffice give the same result. *)
Lemma parse_internal_settled (s : string) (e : ExprLibError)
  (fuel fuel' : nat) :
  parse_internal libm cs context fuel s e <> Starved ->
  parse_internal libm cs context fuel' s e <> Starved ->
  parse_internal libm cs context fuel s e
  = parse_internal libm cs context fuel' s e.
Proof.
  intros H H'.
  rewrite <- (parse_internal_fuel_le libm cs context s e fuel fuel' H).
  rewrite <- (parse_internal_fuel_le libm cs context s e fuel' fuel H').
  rewrite Nat.add_comm. reflexivity.
Qed.

Lemma parse_budget_suffices (s : string) (e : ExprLibError) :
  parse_internal libm cs context (parse_budget s) s e <> Starved.
Proof.
  destruct (parse_never_starved libm cs context (parse_budget s))
    as (_ & _ & _ & Hi).
  apply Hi. unfold parse_budget. lia.
Qed.

(** A result found within some budget is the result of [exprlib_parse]. *)
Lemma parse_within_budget (fuel : nat) (text : string) (r : parsed ExprNode) :
  parse_internal libm cs context fuel text EXPRLIB_SUCCESS = r ->
  r <> Starved ->
  parse_internal libm cs context (parse_budget text) text EXPRLIB_SUCCESS = r.
Proof.
  intros <- H.
  apply parse_internal_settled; [apply parse_budget_suffices | exact H].
Qed.

Lemma parses_to_exprlib_parse (text : string) (node : ExprNode) :
  parses_to libm cs context text node ->
  exprlib_parse libm cs context text = Some (Some node, EXPRLIB_SUCCESS).
Proof. unfold parses_to, exprlib_parse. intros ->. reflexivity. Qed.

(** ** Spaces before an operand *)

Lemma parse_unary_skip (fuel : nat) (s : string) (e : ExprLibError) :
  parse_unary libm cs context fuel (skip_spaces s) e
  = parse_unary libm cs context fuel s e.
Proof.
  destruct fuel; [reflexivity|].
  rewrite !parse_unary_eq. cbn zeta. rewrite skip_spaces_idem. reflexivity.
Qed.

Lemma parse_internal_skip (fuel : nat) (s : string) (e : ExprLibError) :
  parse_internal libm cs context fuel (skip_spaces s) e
  = parse_internal libm cs context fuel s e.
Proof.
  destruct fuel; [reflexivity|].
  rewrite !parse_internal_eq, parse_unary_skip. reflexivity.
Qed.

Lemma parse_args_skip (fuel : nat) (s : string) (e : ExprLibError)
  (args : list ExprNode) :
  parse_args libm cs context fuel (skip_spaces s) e args
  = parse_args libm cs context fuel s e args.
Proof.
  destruct fuel; [reflexivity|].
  rewrite !parse_args_eq, parse_internal_skip. reflexivity.
Qed.

(** Texts on which [parse_internal] agrees, whatever the budget, are
    parsed alike. *)
Lemma exprlib_parse_agrees (a b : string) :
  (forall fuel,
     parse_internal libm cs context fuel a EXPRLIB_SUCCESS
     = parse_internal libm cs context fuel b EXPRLIB_SUCCESS) ->
  exprlib_parse libm cs context a = exprlib_parse libm cs context b.
Proof.
  intros H. unfold exprlib_parse.
  rewrite (parse_internal_settled a EXPRLIB_SUCCESS (parse_budget a)
             (parse_budget a + parse_budget b)).
  - rewrite H.
    rewrite (parse_internal_fuel_le libm cs context b EXPRLIB_SUCCESS
               (parse_budget b) (parse_budget a)); [reflexivity|].
    apply parse_budget_suffices.
  - apply parse_budget_suffices.
  - rewrite Nat.add_comm, parse_internal_fuel_le;
      apply parse_budget_suffices.
Qed.

(** X12: the spaces before an expression are not part of it: a text and
    the text without its leading spaces are parsed to the same result,
    tree or error. *)
Theorem leading_spaces_are_skipped (text : string) :
  exprlib_parse libm cs context text
  = exprlib_parse libm cs context (skip_spaces text).
Proof.
  apply exprlib_parse_agrees. intros fuel.
  symmetry. apply parse_internal_skip.
Qed.

(** ** The first character of an operand *)

Lemma parse_number_nothing (s : string) :
  is_digit (peek s) = false ->
  Ascii.eqb (peek s) "." = false ->
  Ascii.eqb (peek s) " " = false ->
  parse_number s = (0%float, false, s).
Proof.
  intros Hdigit Hdot Hspace. unfold parse_number.
  rewrite (skip_spaces_start s Hspace).
  destruct s as [|c r]; [reflexivity|].
  cbn in *. rewrite Hdigit. cbn. rewrite Hdot. reflexivity.
Qed.

Lemma skip_spaces_peek (s : string) :
  Ascii.eqb (peek (skip_spaces s)) " " = false.
Proof.
  induction s as [|c r IH]; [reflexivity|].
  cbn. destruct (Ascii.eqb c " ") eqn:E; [exact IH | exact E].
Qed.

Lemma parse_unary_no_operand (fuel : nat) (s : string) (e : ExprLibError) :
  starts_operand (peek (skip_spaces s)) = false ->
  parse_unary libm cs context (S fuel) s e = Null EXPRLIB_ERROR_SYNTAX.
Proof.
  unfold starts_operand. intros H.
  apply orb_false_elim in H as [H Halpha].
  apply orb_false_elim in H as [H Hdot].
  apply orb_false_elim in H as [H Hdigit].
  apply orb_false_elim in H as [Hminus Hopen].
  rewrite parse_unary_eq. cbn zeta. rewrite Hminus, Hopen.
  rewrite (parse_number_nothing _ Hdigit Hdot (skip_spaces_peek s)).
  rewrite Halpha. reflexivity.
Qed.

(** X13: an expression begins, after its spaces, with a minus sign, an
    opening parenthesis, a digit, a point or a letter. On any other first
    character (and on the empty or blank text) the parse returns [NULL]
    with [EXPRLIB_ERROR_SYNTAX]: there is no unary plus, and a tab is not
    a space. *)
Theorem no_operand_is_syntax_error (text : string)
  (Hstart : starts_operand (peek (skip_spaces text)) = false) :
  exprlib_parse libm cs context text = Some (None, EXPRLIB_ERROR_SYNTAX).
Proof.
  unfold exprlib_parse, parse_budget.
  replace (3 * String.length text + 3)%nat
    with (S (S (3 * String.length text + 1))) by lia.
  rewrite parse_internal_eq, parse_unary_no_operand by exact Hstart.
  reflexivity.
Qed.

End Settled.

(** X13 at ["  +1"]. *)
Lemma no_operand_is_syntax_error_witness :
  starts_operand (peek (skip_spaces "  +1")) = false
  /\ exprlib_parse test_libm [] [] "  +1" = Some (None, EXPRLIB_ERROR_SYNTAX).
Proof.
  split; [reflexivity|].
  apply no_operand_is_syntax_error. reflexivity.
Defined.

(** ** A fraction with no integer part *)

Lemma parse_frac_digits_all (digits rest : string) :
  all_digits digits = true ->
  is_digit (peek rest) = false ->
  forall value frac, exists v,
    parse_frac_digits (digits ++ rest) value frac = (v, rest).
Proof.
  intros Hdigits Hrest.
  induction digits as [|c digits IH]; intros value frac.
  - exists value. destruct rest as [|c rest]; [reflexivity|].
    cbn in *. rewrite Hrest. reflexivity.
  - cbn in Hdigits. apply andb_prop in Hdigits as [Hc Hdigits].
    cbn [append parse_frac_digits]. rewrite Hc. apply IH, Hdigits.
Qed.

Lemma parse_number_point (digits rest : string) :
  all_digits digits = true ->
  is_digit (peek rest) = false ->
  exists v, parse_number ("." ++ digits ++ rest) = (v, false, rest).
Proof.
  intros Hdigits Hrest.
  destruct (parse_frac_digits_all digits rest Hdigits Hrest 0%float 0.1%float)
    as (v & Hv).
  exists v. unfold parse_number. cbn. rewrite Hv. reflexivity.
Qed.

Section Fraction.

Variable libm : Libm.
Variable cs : list ExprLibConstant.
Variable context : ExprContext.

Lemma parse_unary_point (fuel : nat) (digits rest : string)
  (e : ExprLibError) :
  all_digits digits = true ->
  is_digit (peek rest) = false ->
  parse_unary libm cs context fuel ("." ++ digits ++ rest) e
  = if is_alpha (peek rest) then parse_unary libm cs context fuel rest e
    else match fuel with
         | O => Starved
         | S _ => Null EXPRLIB_ERROR_SYNTAX
         end.
Proof.
  intros Hdigits Hrest.
  destruct (parse_number_point digits rest Hdigits Hrest) as (v & Hv).
  destruct fuel as [|fuel];
    [destruct (is_alpha (peek rest)); reflexivity|].
  rewrite (parse_unary_eq libm cs context fuel ("." ++ digits ++ rest)).
  cbn zeta.
  change (skip_spaces ("." ++ digits ++ rest)) with ("." ++ digits ++ rest).
  change (peek ("." ++ digits ++ rest)) with "."%char.
  change (Ascii.eqb "." "-") with false.
  change (Ascii.eqb "." "(") with false.
  cbv iota. rewrite Hv.
  destruct (is_alpha (peek rest)) eqn:Halpha; [|reflexivity].
  destruct (alpha_char _ Halpha) as (Hsp & Hminus & Hopen & Hdot & Hdigit).
  rewrite parse_unary_eq. cbn zeta.
  rewrite (skip_spaces_start rest Hsp), Hminus, Hopen.
  rewrite (parse_number_nothing rest Hdigit Hdot Hsp), Halpha.
  reflexivity.
Qed.

(** X14: a literal needs a digit before its point. A point followed by
    digits is passed over without giving a number: when a letter comes
    next, the parse goes on as if the text began there (so [".5x"] is the
    variable [x]); anything else is [EXPRLIB_ERROR_SYNTAX] (so [".5"] by
    itself is rejected). *)
Theorem fraction_without_integer_part (digits rest : string)
  (Hdigits : all_digits digits = true)
  (Hrest : is_digit (peek rest) = false) :
  exprlib_parse libm cs context ("." ++ digits ++ rest)
  = if is_alpha (peek rest) then exprlib_parse libm cs context rest
    else Some (None, EXPRLIB_ERROR_SYNTAX).
Proof.
  destruct (is_alpha (peek rest)) eqn:Halpha.
  - apply exprlib_parse_agrees. intros [|fuel]; [reflexivity|].
    rewrite !parse_internal_eq.
    rewrite (parse_unary_point fuel digits rest _ Hdigits Hrest), Halpha.
    reflexivity.
  - unfold exprlib_parse, parse_budget.
    replace (3 * String.length ("." ++ digits ++ rest) + 3)%nat
      with (S (S (3 * String.length ("." ++ digits ++ rest) + 1))) by lia.
    rewrite parse_internal_eq.
    rewrite (parse_unary_point _ digits rest _ Hdigits Hrest), Halpha.
    reflexivity.
Qed.

End Fraction.

(** X14 at [".5x"] and at [".5"]. *)
Lemma fraction_without_integer_part_witness :
  exprlib_parse test_libm [] [mkVariable "x" 1%float] ".5x"
  = Some (Some (EXPR_NODE_VARIABLE "x"), EXPRLIB_SUCCESS)
  /\ exprlib_parse test_libm [] [] ".5" = Some (None, EXPRLIB_ERROR_SYNTAX).
Proof.
  split.
  - exact (fraction_without_integer_part test_libm []
             [mkVariable "x" 1%float] "5" "x" eq_refl eq_refl).
  - exact (fraction_without_integer_part test_libm [] [] "5" ""
             eq_refl eq_refl).
Defined.

(** ** Parentheses *)

Section Grouping.

Variable libm : Libm.
Variable cs : list ExprLibConstant.
Variable context : ExprContext.

Lemma parse_unary_paren (fuel : nat) (s : string) (e : ExprLibError) :
  parse_unary libm cs context (S fuel) (String "(" s) e
  = match parse_internal libm cs context fuel s e with
    | Starved => Starved
    | Null e => Null e
    | Built node s e =>
        if negb (is_success e) then Null e else
        if negb (Ascii.eqb (peek s) ")") then Null EXPRLIB_ERROR_SYNTAX
        else Built node (advance s) e
    end.
Proof. rewrite parse_unary_eq. reflexivity. Qed.

Lemma parse_binary_rhs_at_end (fuel : nat) (lhs : ExprNode)
  (e : ExprLibError) :
  parse_binary_rhs libm cs context (S fuel) 0 lhs "" e = Built lhs "" e.
Proof. rewrite parse_binary_rhs_eq. reflexivity. Qed.

(** A text read to its end, with [rest] put after it, is read up to
    [rest]. *)
Lemma parses_to_followed (text rest : string) (node : ExprNode) :
  parses_to libm cs context text node ->
  clean_cut rest = true ->
  Ascii.eqb (peek rest) " " = false ->
  parse_internal libm cs context (parse_budget text) (text ++ rest)
    EXPRLIB_SUCCESS
  = Built node rest EXPRLIB_SUCCESS.
Proof.
  unfold parses_to. intros Htext Hcut Hspace.
  destruct (parse_carried libm cs context rest Hcut (parse_budget text))
    as (_ & _ & _ & Hi).
  specialize (Hi text (text ++ rest) EXPRLIB_SUCCESS (follows_app rest text)).
  rewrite Htext in Hi. destruct Hi as (t & -> & [[Hne _]|[_ Ht]]).
  - contradiction Hne. reflexivity.
  - rewrite (skip_spaces_start rest Hspace) in Ht.
    destruct Ht as [-> | ->]; reflexivity.
Qed.

(** X15: parentheses group and leave no node of their own: a text read to
    its end as some tree is read to the same tree when it is put in
    parentheses; without the closing parenthesis the parse returns [NULL]
    with [EXPRLIB_ERROR_SYNTAX]. *)
Theorem parentheses_leave_no_node (text : string) (node : ExprNode)
  (Htext : parses_to libm cs context text node) :
  parses_to libm cs context ("(" ++ text ++ ")") node
  /\ exprlib_parse libm cs context ("(" ++ text ++ ")")
     = Some (Some node, EXPRLIB_SUCCESS)
  /\ exprlib_parse libm cs context ("(" ++ text)
     = Some (None, EXPRLIB_ERROR_SYNTAX).
Proof.
  assert (Hclosed : parses_to libm cs context ("(" ++ text ++ ")") node).
  { apply (parse_within_budget libm cs context
             (S (S (parse_budget text)))); [|discriminate].
    rewrite parse_internal_eq.
    change ("(" ++ text ++ ")") with (String "(" (text ++ ")")).
    rewrite parse_unary_paren.
    rewrite (parses_to_followed text ")" node Htext eq_refl eq_refl).
    cbn [is_success negb peek advance].
    change (Ascii.eqb ")" ")") with true. cbv iota.
    apply parse_binary_rhs_at_end. }
  split; [exact Hclosed|].
  split; [apply parses_to_exprlib_parse, Hclosed|].
  unfold exprlib_parse.
  rewrite (parse_within_budget libm cs context (S (S (parse_budget text)))
             ("(" ++ text) (Null EXPRLIB_ERROR_SYNTAX));
    [reflexivity| |discriminate].
  rewrite parse_internal_eq.
  change ("(" ++ text) with (String "(" text).
  rewrite parse_unary_paren. unfold parses_to in Htext. rewrite Htext.
  reflexivity.
Qed.

End Grouping.

(** X15 at ["x + 1"]. *)
Lemma parentheses_leave_no_node_witness :
  parses_to test_libm [] [mkVariable "x" 1%float] "x + 1"
    (EXPR_NODE_OPERATOR "+" (EXPR_NODE_VARIABLE "x") (EXPR_NODE_NUMBER 1))
  /\ parses_to test_libm [] [mkVariable "x" 1%float] "(x + 1)"
       (EXPR_NODE_OPERATOR "+" (EXPR_NODE_VARIABLE "x") (EXPR_NODE_NUMBER 1))
  /\ exprlib_parse test_libm [] [mkVariable "x" 1%float] "(x + 1"
     = Some (None, EXPRLIB_ERROR_SYNTAX).
Proof.
  assert (Htext : parses_to test_libm [] [mkVariable "x" 1%float] "x + 1"
                    (EXPR_NODE_OPERATOR "+" (EXPR_NODE_VARIABLE "x")
                       (EXPR_NODE_NUMBER 1)))
    by reflexivity.
  split; [exact Htext|].
  split;
    apply (parentheses_leave_no_node test_libm [] [mkVariable "x" 1%float]
             "x + 1" _ Htext).
Defined.

(** ** Calls *)

Lemma starts_operand_not_closing (c : ascii) :
  starts_operand c = true -> Ascii.eqb c ")" = false.
Proof.
  destruct (Ascii.eqb_spec c ")") as [->|_]; [|reflexivity].
  intros H. discriminate H.
Qed.

Lemma append_assoc (a b c : string) : (a ++ b) ++ c = a ++ b ++ c.
Proof. induction a as [|x a IH]; cbn; congruence. Qed.

Lemma peek_skip_spaces_app (s r : string) :
  skip_spaces s <> "" ->
  peek (skip_spaces (s ++ r)) = peek (skip_spaces s).
Proof.
  intros H. rewrite skip_spaces_app.
  destruct (skip_spaces s); [contradiction | reflexivity].
Qed.

Section CallSyntax.

Variable libm : Libm.
Variable cs : list ExprLibConstant.
Variable context : ExprContext.

(** A text that is read as an expression begins with a character that can
    begin an operand. *)
Lemma parses_to_starts_operand (text : string) (node : ExprNode) :
  parses_to libm cs context text node ->
  starts_operand (peek (skip_spaces text)) = true
  /\ skip_spaces text <> "".
Proof.
  unfold parses_to, parse_budget. intros H.
  replace (3 * String.length text + 3)%nat
    with (S (S (3 * String.length text + 1))) in H by lia.
  rewrite parse_internal_eq in H.
  destruct (starts_operand (peek (skip_spaces text))) eqn:Hstart.
  - split; [reflexivity|]. intros Hempty. rewrite Hempty in Hstart.
    discriminate Hstart.
  - rewrite parse_unary_no_operand in H by exact Hstart. discriminate H.
Qed.

(** The loop over the arguments of a call: the texts, each read to its
    end when alone, are read one after the other up to the closing
    parenthesis. *)
Lemma parse_args_list (texts : list string) (nodes : list ExprNode) :
  Forall2 (parses_to libm cs context) texts nodes ->
  texts <> [] ->
  forall acc, exists fuel,
    parse_args libm cs context fuel (comma_separated texts ++ ")")
      EXPRLIB_SUCCESS acc
    = Built (acc ++ nodes)%list ")" EXPRLIB_SUCCESS.
Proof.
  induction 1 as [|text node texts nodes Htext Hrest IH]; intros Hne acc;
    [contradiction Hne; reflexivity|].
  destruct Hrest as [|text' node' texts' nodes' Htext' Hrest'].
  - (* the last argument *)
    exists (S (parse_budget text)).
    rewrite parse_args_eq. cbn [comma_separated].
    rewrite (parses_to_followed libm cs context text ")" node Htext
               eq_refl eq_refl).
    reflexivity.
  - (* an argument, a comma, and more *)
    destruct (IH ltac:(discriminate) (acc ++ [node])%list) as (fuel & Hfuel).
    exists (S (parse_budget text + fuel)).
    rewrite parse_args_eq.
    change (comma_separated (text :: text' :: texts'))
      with (text ++ "," ++ comma_separated (text' :: texts')).
    rewrite !append_assoc.
    change ("," ++ comma_separated (text' :: texts') ++ ")")
      with (String "," (comma_separated (text' :: texts') ++ ")")).
    rewrite Nat.add_comm.
    rewrite parse_internal_fuel_le;
      rewrite (parses_to_followed libm cs context text
                 (String "," (comma_separated (text' :: texts') ++ ")"))
                 node Htext eq_refl eq_refl);
      [|discriminate].
    cbn [is_success negb].
    change (skip_spaces
              (String "," (comma_separated (text' :: texts') ++ ")")))
      with (String "," (comma_separated (text' :: texts') ++ ")")).
    cbn [peek advance]. change (Ascii.eqb "," ",") with true. cbv iota.
    rewrite parse_args_skip, Nat.add_comm.
    rewrite parse_args_fuel_le; rewrite Hfuel; [|discriminate].
    rewrite <- app_assoc. reflexivity.
Qed.

(** X16: a name followed by an argument list in parentheses is parsed as
    a call of that name on the trees of the arguments, in their order,
    whatever the function table holds and whether or not the name is also
    a constant or a variable: the parser does not look the function up.
    The argument list may be empty. *)
Theorem call_of_parsed_arguments (name : string) (texts : list string)
  (nodes : list ExprNode)
  (Halpha : is_alpha (peek name) = true)
  (Hname : scan_identifier name = (name, ""))
  (Hargs : Forall2 (parses_to libm cs context) texts nodes) :
  exprlib_parse libm cs context
    (name ++ "(" ++ comma_separated texts ++ ")")
  = Some (Some (EXPR_NODE_FUNCTION_CALL name nodes), EXPRLIB_SUCCESS).
Proof.
  set (body := comma_separated texts ++ ")").
  assert (Hunary : exists fuel,
             parse_unary libm cs context (S fuel)
               (name ++ String "(" body) EXPRLIB_SUCCESS
             = Built (EXPR_NODE_FUNCTION_CALL name nodes) ""
                 EXPRLIB_SUCCESS).
  { destruct (alpha_char _ Halpha) as (Hsp & Hminus & Hopen & Hdot & Hdigit).
    assert (Hpeek : peek (name ++ String "(" body) = peek name)
      by (destruct name; [discriminate Halpha | reflexivity]).
    assert (Hhead : forall fuel,
               parse_unary libm cs context (S fuel)
                 (name ++ String "(" body) EXPRLIB_SUCCESS
               = match
                   (if negb (Ascii.eqb (peek (skip_spaces body)) ")")
                    then parse_args libm cs context fuel (skip_spaces body)
                           EXPRLIB_SUCCESS []
                    else Built [] (skip_spaces body) EXPRLIB_SUCCESS)
                 with
                 | Starved => Starved
                 | Null e => Null e
                 | Built args s e =>
                     if negb (Ascii.eqb (peek s) ")")
                     then Null EXPRLIB_ERROR_SYNTAX
                     else Built (create_function_node name args)
                            (advance s) e
                 end).
    { intros fuel. rewrite parse_unary_eq. cbn zeta.
      rewrite (skip_spaces_start (name ++ String "(" body))
        by (rewrite Hpeek; exact Hsp).
      rewrite Hpeek, Hminus, Hopen.
      rewrite (parse_number_nothing (name ++ String "(" body))
        by (rewrite Hpeek; assumption).
      rewrite Hpeek, Halpha.
      rewrite (scan_identifier_app (String "(" body) eq_refl), Hname.
      reflexivity. }
    destruct Hargs as [|text node texts nodes Htext Hrest].
    - exists O. rewrite Hhead. reflexivity.
    - destruct (parse_args_list (text :: texts) (node :: nodes)
                  (Forall2_cons _ _ Htext Hrest) ltac:(discriminate) [])
        as (fuel & Hfuel).
      exists fuel. rewrite Hhead.
      destruct (parses_to_starts_operand text node Htext)
        as (Hstart & Hnonempty).
      assert (Hfirst : Ascii.eqb (peek (skip_spaces body)) ")" = false).
      { apply starts_operand_not_closing. subst body.
        destruct texts as [|text' texts'].
        - cbn [comma_separated].
          rewrite peek_skip_spaces_app by exact Hnonempty. exact Hstart.
        - change (comma_separated (text :: text' :: texts'))
            with (text ++ "," ++ comma_separated (text' :: texts')).
          rewrite append_assoc.
          rewrite peek_skip_spaces_app by exact Hnonempty. exact Hstart. }
      rewrite Hfirst. cbn [negb]. cbv iota.
      rewrite parse_args_skip. fold body in Hfuel. rewrite Hfuel.
      reflexivity. }
  destruct Hunary as (fuel & Hunary). subst body.
  unfold exprlib_parse.
  rewrite (parse_within_budget libm cs context (S (S fuel))
             (name ++ "(" ++ comma_separated texts ++ ")")
             (Built (EXPR_NODE_FUNCTION_CALL name nodes) ""
                EXPRLIB_SUCCESS));
    [reflexivity| |discriminate].
  rewrite parse_internal_eq.
  change (name ++ "(" ++ comma_separated texts ++ ")")
    with (name ++ String "(" (comma_separated texts ++ ")")).
  rewrite Hunary. cbn [is_success negb]. cbv iota.
  apply parse_binary_rhs_at_end.
Qed.

End CallSyntax.

(** X16 at ["hyp(x + 1, 2 * y)"], with no function [hyp] anywhere. *)
Lemma call_of_parsed_arguments_witness :
  exprlib_parse test_libm []
    [mkVariable "x" 1%float; mkVariable "y" 2%float] "hyp(x + 1,2 * y)"
  = Some (Some (EXPR_NODE_FUNCTION_CALL "hyp"
                  [EXPR_NODE_OPERATOR "+" (EXPR_NODE_VARIABLE "x")
                     (EXPR_NODE_NUMBER 1);
                   EXPR_NODE_OPERATOR "*" (EXPR_NODE_NUMBER 2)
                     (EXPR_NODE_VARIABLE "y")]),
          EXPRLIB_SUCCESS).
Proof.
  apply (call_of_parsed_arguments test_libm []
           [mkVariable "x" 1%float; mkVariable "y" 2%float] "hyp"
           ["x + 1"; "2 * y"]);
    [reflexivity | reflexivity |].
  repeat constructor.
Defined.

(** ** What the parser reads of the environment *)

Section NamesOnly.

Variable libm : Libm.
Variables cs cs' : list ExprLibConstant.
Variables context context' : ExprContext.
Hypothesis Hdefined : forall name,
  is_defined_variable cs name context
  = is_defined_variable cs' name context'.

Lemma parse_same_names (fuel : nat) :
  (forall s e,
     parse_unary libm cs context fuel s e
     = parse_unary libm cs' context' fuel s e)
  /\ (forall s e args,
        parse_args libm cs context fuel s e args
        = parse_args libm cs' context' fuel s e args)
  /\ (forall expr_prec lhs s e,
        parse_binary_rhs libm cs context fuel expr_prec lhs s e
        = parse_binary_rhs libm cs' context' fuel expr_prec lhs s e)
  /\ (forall s e,
        parse_internal libm cs context fuel s e
        = parse_internal libm cs' context' fuel s e).
Proof.
  induction fuel as [|fuel (IHu & IHa & IHb & IHi)];
    [repeat split; reflexivity|].
  repeat split; intros.
  - rewrite !parse_unary_eq. cbn zeta.
    repeat first
      [ progress rewrite ?IHu, ?IHa, ?IHi, ?Hdefined
      | match goal with
        | |- context [match ?x with _ => _ end] => destruct x
        end ];
      reflexivity.
  - rewrite !parse_args_eq. rewrite IHi.
    destruct (parse_internal libm cs' context' fuel s e); try reflexivity.
    cbn zeta.
    repeat first
      [ progress rewrite ?IHa
      | match goal with
        | |- context [if ?x then _ else _] => destruct x
        end ];
      reflexivity.
  - rewrite !parse_binary_rhs_eq. cbn zeta.
    repeat first
      [ progress rewrite ?IHu, ?IHb
      | match goal with
        | |- context [match ?x with _ => _ end] => destruct x
        end ];
      reflexivity.
  - rewrite !parse_internal_eq, IHu.
    destruct (parse_unary libm cs' context' fuel s e); try reflexivity.
    destruct (negb (is_success err)); [reflexivity | apply IHb].
Qed.

(** X17: of the constants and of the context the parser reads which names
    are defined, and nothing else: against two environments that define
    the same names, whatever the values, a text is parsed to the same
    result. No value of a variable or of a constant is folded into the
    tree. *)
Theorem parse_reads_names_only (text : string) :
  exprlib_parse libm cs context text = exprlib_parse libm cs' context' text.
Proof.
  unfold exprlib_parse.
  destruct (parse_same_names (parse_budget text)) as (_ & _ & _ & Hi).
  rewrite Hi. reflexivity.
Qed.

End NamesOnly.

(** X17 at ["x * pi + 2"], with [x = 1] and [pi] a constant on one side,
    and [pi = 3.5] and [x = 4] variables on the other. *)
Lemma parse_reads_names_only_witness :
  exprlib_parse test_libm [mkConstant "pi" M_PI] [mkVariable "x" 1%float]
    "x * pi + 2"
  = exprlib_parse test_libm []
      [mkVariable "pi" 3.5%float; mkVariable "x" 4%float] "x * pi + 2".
Proof.
  apply parse_reads_names_only.
  intros name. unfold is_defined_variable. cbn [existsb const_name var_name].
  destruct (String.eqb "pi" name), (String.eqb "x" name); reflexivity.
Defined.

(** ** The counting functions on whole numbers *)

Lemma checked_upto (bound : nat) (check : nat -> bool) :
  forallb check (seq 0 (S bound)) = true ->
  forall n, (n <= bound)%nat -> check n = true.
Proof.
  intros H n Hn. rewrite forallb_forall in H. apply H, in_seq. lia.
Qed.

(** X18: [factorial] is exact up to 20: on the double of a whole number
    [n] from 0 to 20 it returns the double of [n!], and leaves
    [EXPRLIB_ERROR] as it found it. *)
Theorem factorial_exact (n : nat) (e : ExprLibError)
  (Hn : (n <= 20)%nat) :
  factorial [whole (Z.of_nat n)] e
  = Returned (whole (product_up_to n)) e.
Proof.
  pose (check := fun n =>
          negb (whole (Z.of_nat n) <? 0)%float
          && match factorial_value (whole (Z.of_nat n)) with
             | Some result => Leibniz.eqb result (whole (product_up_to n))
             | None => false
             end).
  assert (Hall : forallb check (seq 0 21) = true) by (vm_compute; reflexivity).
  pose proof (checked_upto 20 check Hall n Hn) as Hcheck.
  unfold check in Hcheck. apply andb_prop in Hcheck as [Hsign Hvalue].
  apply negb_true_iff in Hsign.
  unfold factorial. rewrite Hsign.
  destruct (factorial_value (whole (Z.of_nat n))) as [result|];
    [|discriminate Hvalue].
  apply Leibniz.eqb_spec in Hvalue. rewrite Hvalue. reflexivity.
Qed.

(** X18 at 20. *)
Lemma factorial_exact_witness :
  factorial [20%float] EXPRLIB_SUCCESS
  = Returned 2432902008176640000%float EXPRLIB_SUCCESS.
Proof. apply (factorial_exact 20 EXPRLIB_SUCCESS). lia. Defined.

(** X19: [nCr] and [nPr] are exact up to 20: on the doubles of whole
    numbers [0 <= r <= n <= 20] they return the double of the number of
    [r]-element subsets, and of the number of arrangements of [r] out of
    [n] elements, and leave [EXPRLIB_ERROR] as they found it: no quotient
    of factorials is rounded in that range. *)
Theorem nCr_nPr_exact (n r : nat) (e : ExprLibError)
  (Hr : (r <= n)%nat) (Hn : (n <= 20)%nat) :
  nCr [whole (Z.of_nat n); whole (Z.of_nat r)] e
  = Returned (whole (subsets n r)) e
  /\ nPr [whole (Z.of_nat n); whole (Z.of_nat r)] e
     = Returned (whole (arrangements n r)) e.
Proof.
  pose (check := fun n r =>
          let x := whole (Z.of_nat n) in
          let y := whole (Z.of_nat r) in
          (n <? r)%nat
          || (negb ((x <? 0)%float || (y <? 0)%float || (x <? y)%float)
              && match factorial_value x, factorial_value y,
                       factorial_value (x - y) with
                 | Some of_n, Some of_r, Some of_rest =>
                     Leibniz.eqb (of_n / (of_r * of_rest))%float
                       (whole (subsets n r))
                     && Leibniz.eqb (of_n / of_rest)%float
                          (whole (arrangements n r))
                 | _, _, _ => false
                 end)).
  assert (Hall : forallb (fun n => forallb (check n) (seq 0 21)) (seq 0 21)
                 = true) by (vm_compute; reflexivity).
  pose proof (checked_upto 20 _ Hall n Hn) as Hrow.
  pose proof (checked_upto 20 _ Hrow r ltac:(lia)) as Hcheck.
  unfold check in Hcheck. cbn zeta in Hcheck.
  apply orb_prop in Hcheck as [Hlt|Hcheck];
    [apply Nat.ltb_lt in Hlt; lia|].
  apply andb_prop in Hcheck as [Hguard Hcheck].
  apply negb_true_iff in Hguard.
  unfold nCr, nPr. rewrite Hguard.
  destruct (factorial_value (whole (Z.of_nat n))) as [of_n|];
    [|discriminate Hcheck].
  destruct (factorial_value (whole (Z.of_nat r))) as [of_r|];
    [|discriminate Hcheck].
  destruct (factorial_value (whole (Z.of_nat n) - whole (Z.of_nat r)))
    as [of_rest|]; [|discriminate Hcheck].
  apply andb_prop in Hcheck as [HnCr HnPr].
  apply Leibniz.eqb_spec in HnCr, HnPr.
  rewrite HnCr, HnPr. split; reflexivity.
Qed.

(** X19 at [n = 20], [r = 10]. *)
Lemma nCr_nPr_exact_witness :
  nCr [20%float; 10%float] EXPRLIB_SUCCESS
  = Returned 184756%float EXPRLIB_SUCCESS
  /\ nPr [20%float; 10%float] EXPRLIB_SUCCESS
     = Returned 670442572800%float EXPRLIB_SUCCESS.
Proof. apply (nCr_nPr_exact 20 10 EXPRLIB_SUCCESS); lia. Defined.

(** ** From registration to the call *)

(** X20: a function registered by the host under a new name is what a
    call of that name runs. Whatever the arguments are, once the argument
    loop has come to its end and the argument count is one the arity
    accepts, the native function receives the values the loop stored, one
    for each argument and in their order, with [EXPRLIB_ERROR] as the
    arguments left it ([exprlib_evaluate] clears it on entry, so it is
    [EXPRLIB_SUCCESS] unless an argument failed); its result is the result
    of the evaluation, and the error it leaves is the error of the
    evaluation. An assertion it fails aborts the process. *)
Theorem registered_function_is_called (libm : Libm) (g : Globals)
  (name : string) (arity : Z) (fn : ExprLibFnPtr) (context : ExprContext)
  (args : list ExprNode) (values : list float) (st' : eval_state)
  (Hname : name <> "")
  (Hfresh : ~ In name (map fn_name (g_functions g)))
  (Harity : arity = -1 \/ arity = Z.of_nat (List.length args))
  (Hargs : fill_arguments libm
             (g_functions
                (snd (exprlib_register_function (Some name) arity (Some fn)
                        g)))
             (g_constants g) context args [] (mkEval EXPRLIB_SUCCESS [])
           = (values, st', false)) :
  List.length values = List.length args
  /\ exprlib_evaluate libm
       (snd (exprlib_register_function (Some name) arity (Some fn) g))
       (Some (EXPR_NODE_FUNCTION_CALL name args)) context
     = match fn values (error st') with
       | Returned v e =>
           Value v (mkEval e (invoked st' ++ [(name, values)]))
       | AssertionFailed =>
           Aborted (mkEval (error st') (invoked st' ++ [(name, values)]))
       | UndefinedBehaviour =>
           Undefined (mkEval (error st') (invoked st' ++ [(name, values)]))
       end.
Proof.
  split; [exact (fill_arguments_length _ _ _ _ _ _ _ _ _ Hargs)|].
  revert Hargs. unfold exprlib_register_function.
  destruct name as [|c rest]; [contradiction|].
  destruct (Z.ltb_spec arity (-1)); [lia|].
  destruct (existsb _ (g_functions g)) eqn:Hdup;
    [apply existsb_registered in Hdup; contradiction|].
  cbn [snd]. unfold exprlib_evaluate. cbn [g_functions g_constants].
  intros Hargs.
  rewrite (call_invokes_after_argument_loop libm _ _ _ _ _
             (mkFunction (String c rest) arity fn)
             (mkEval EXPRLIB_SUCCESS []) st' values).
  - reflexivity.
  - rewrite find_function_app, (find_function_absent _ _ Hfresh).
    cbn [find_function fn_name]. rewrite String.eqb_refl. reflexivity.
  - exact Harity.
  - exact Hargs.
Qed.

(** X20 at a host function [span] of any number of arguments, called as
    [span(1 + x, 2, 1 / z)] with [x = 5] and [z = 0]: the last argument
    fails, and [span] is entered with the error it left. *)
Lemma registered_function_is_called_witness :
  exprlib_evaluate test_libm
    (snd (exprlib_register_function (Some "span") (-1) (Some fn_max)
            (initialized test_libm)))
    (Some (EXPR_NODE_FUNCTION_CALL "span"
             [EXPR_NODE_OPERATOR "+" (EXPR_NODE_NUMBER 1)
                (EXPR_NODE_VARIABLE "x");
              EXPR_NODE_NUMBER 2;
              EXPR_NODE_OPERATOR "/" (EXPR_NODE_NUMBER 1)
                (EXPR_NODE_VARIABLE "z")]))
    [mkVariable "x" 5%float; mkVariable "z" 0%float]
  = Value 6%float
      (mkEval EXPRLIB_ERROR_DIVISION_BY_ZERO
         [("span", [6%float; 2%float; 0%float])]).
Proof.
  apply (registered_function_is_called test_libm (initialized test_libm)
           "span" (-1) fn_max
           [mkVariable "x" 5%float; mkVariable "z" 0%float]
           [EXPR_NODE_OPERATOR "+" (EXPR_NODE_NUMBER 1)
              (EXPR_NODE_VARIABLE "x");
            EXPR_NODE_NUMBER 2;
            EXPR_NODE_OPERATOR "/" (EXPR_NODE_NUMBER 1)
              (EXPR_NODE_VARIABLE "z")]
           [6%float; 2%float; 0%float]
           (mkEval EXPRLIB_ERROR_DIVISION_BY_ZERO [])).
  - discriminate.
  - intros H. vm_compute in H.
    repeat (destruct H as [H|H]; [discriminate H|]). exact H.
  - left. reflexivity.
  - vm_compute. reflexivity.
Defined.

(** ** Grouping of binary operators *)

Lemma operator_char (c : ascii) :
  0 <= get_precedence c ->
  Ascii.eqb c " " = false /\ Ascii.eqb c "(" = false
  /\ is_ident_char c = false.
Proof.
  unfold get_precedence.
  repeat match goal with
         | |- context [Ascii.eqb c ?op] =>
             destruct (Ascii.eqb_spec c op) as [->|_]
         end;
    intros H; try (repeat split; reflexivity); exfalso; lia.
Qed.

Section Precedence.

Variable libm : Libm.
Variable cs : list ExprLibConstant.
Variable context : ExprContext.

(** A defined name by itself, at the end of the text. *)
Lemma parse_unary_last_name (fuel : nat) (name : string) (e : ExprLibError) :
  is_alpha (peek name) = true ->
  scan_identifier name = (name, "") ->
  is_defined_variable cs name context = true ->
  parse_unary libm cs context (S fuel) name e
  = Built (EXPR_NODE_VARIABLE name) "" EXPRLIB_SUCCESS.
Proof.
  intros Halpha Hname Hdefined.
  pose proof (parse_unary_name libm cs context fuel "" name "" e eq_refl
                Halpha Hname eq_refl eq_refl) as H.
  cbn [append] in H. rewrite append_empty, Hdefined in H. exact H.
Qed.

(** A defined name followed by a binary operator. *)
Lemma parse_unary_name_operator (fuel : nat) (name : string) (op : ascii)
  (rest : string) (e : ExprLibError) :
  is_alpha (peek name) = true ->
  scan_identifier name = (name, "") ->
  is_defined_variable cs name context = true ->
  0 <= get_precedence op ->
  parse_unary libm cs context (S fuel) (name ++ String op rest) e
  = Built (EXPR_NODE_VARIABLE name) (String op rest) EXPRLIB_SUCCESS.
Proof.
  intros Halpha Hname Hdefined Hop.
  destruct (operator_char op Hop) as (Hspace & Hparen & Hident).
  pose proof (parse_unary_name libm cs context fuel "" name (String op rest)
                e eq_refl Halpha Hname Hident) as H.
  cbn [append skip_spaces peek] in H. rewrite Hspace in H.
  cbn [peek] in H. rewrite Hdefined in H. apply H, Hparen.
Qed.

(** The last operator of a text and the name after it: the operator node
    is built on the left operand at hand, which is not looked into. *)
Lemma parse_binary_rhs_last (fuel : nat) (expr_prec : Z) (lhs : ExprNode)
  (op : ascii) (name : string) :
  is_alpha (peek name) = true ->
  scan_identifier name = (name, "") ->
  is_defined_variable cs name context = true ->
  0 <= expr_prec <= get_precedence op ->
  parse_binary_rhs libm cs context (S (S fuel)) expr_prec lhs
    (String op name) EXPRLIB_SUCCESS
  = Built (EXPR_NODE_OPERATOR op lhs (EXPR_NODE_VARIABLE name)) ""
      EXPRLIB_SUCCESS.
Proof.
  intros Halpha Hname Hdefined [Hprec Hop].
  destruct (operator_char op ltac:(lia)) as (Hspace & _ & _).
  rewrite parse_binary_rhs_eq. cbn zeta.
  cbn [skip_spaces]. rewrite Hspace. cbn [peek advance].
  destruct (Z.ltb_spec (get_precedence op) expr_prec); [lia|].
  rewrite (parse_unary_last_name fuel name _ Halpha Hname Hdefined).
  cbn [skip_spaces peek].
  change (get_precedence Ascii.zero) with (-1).
  destruct (Z.ltb_spec (get_precedence op) (-1)); [lia|].
  destruct (Z.eqb_spec (get_precedence op) (-1)); [lia|].
  cbn [orb andb].
  assert (Hlast : parse_binary_rhs libm cs context (S fuel) expr_prec
                    (EXPR_NODE_OPERATOR op lhs (EXPR_NODE_VARIABLE name)) ""
                    EXPRLIB_SUCCESS
                  = Built
                      (EXPR_NODE_OPERATOR op lhs (EXPR_NODE_VARIABLE name))
                      "" EXPRLIB_SUCCESS).
  { rewrite parse_binary_rhs_eq. cbn zeta. cbn [skip_spaces peek].
    change (get_precedence Ascii.zero) with (-1).
    destruct (Z.ltb_spec (-1) expr_prec); [reflexivity | lia]. }
  destruct lhs; cbn; exact Hlast.
Qed.

(** X21: two binary operators between three names group by precedence:
    when the second operator binds tighter than the first, it takes the
    middle name; otherwise the first operator does, so that operators of
    the same precedence group from the left, [^] included. *)
Theorem operators_group_by_precedence (a b c : string) (op1 op2 : ascii)
  (Ha : is_alpha (peek a) = true /\ scan_identifier a = (a, "")
        /\ is_defined_variable cs a context = true)
  (Hb : is_alpha (peek b) = true /\ scan_identifier b = (b, "")
        /\ is_defined_variable cs b context = true)
  (Hc : is_alpha (peek c) = true /\ scan_identifier c = (c, "")
        /\ is_defined_variable cs c context = true)
  (Hop1 : 0 <= get_precedence op1)
  (Hop2 : 0 <= get_precedence op2) :
  exprlib_parse libm cs context (a ++ String op1 (b ++ String op2 c))
  = Some
      (Some
         (if get_precedence op1 <? get_precedence op2
          then EXPR_NODE_OPERATOR op1 (EXPR_NODE_VARIABLE a)
                 (EXPR_NODE_OPERATOR op2 (EXPR_NODE_VARIABLE b)
                    (EXPR_NODE_VARIABLE c))
          else EXPR_NODE_OPERATOR op2
                 (EXPR_NODE_OPERATOR op1 (EXPR_NODE_VARIABLE a)
                    (EXPR_NODE_VARIABLE b))
                 (EXPR_NODE_VARIABLE c)),
       EXPRLIB_SUCCESS).
Proof.
  destruct Ha as (Ha1 & Ha2 & Ha3), Hb as (Hb1 & Hb2 & Hb3),
    Hc as (Hc1 & Hc2 & Hc3).
  destruct (operator_char op1 Hop1) as (Hspace1 & _ & _).
  destruct (operator_char op2 Hop2) as (Hspace2 & _ & _).
  set (tree := if get_precedence op1 <? get_precedence op2 then _ else _).
  unfold exprlib_parse.
  rewrite (parse_within_budget libm cs context 5
             (a ++ String op1 (b ++ String op2 c))
             (Built tree "" EXPRLIB_SUCCESS));
    [reflexivity| |discriminate].
  rewrite parse_internal_eq.
  rewrite (parse_unary_name_operator 3 a op1 _ _ Ha1 Ha2 Ha3 Hop1).
  cbn [is_success negb]. cbv iota.
  rewrite parse_binary_rhs_eq. cbn zeta.
  cbn [skip_spaces]. rewrite Hspace1. cbn [peek advance].
  destruct (Z.ltb_spec (get_precedence op1) 0); [lia|].
  rewrite (parse_unary_name_operator 2 b op2 _ _ Hb1 Hb2 Hb3 Hop2).
  cbn [skip_spaces]. rewrite Hspace2. cbn [peek].
  subst tree.
  destruct (Z.ltb_spec (get_precedence op1) (get_precedence op2))
    as [Hlt|Hge].
  - (* the second operator binds tighter *)
    cbn [orb].
    rewrite (parse_binary_rhs_last 1 _ _ op2 c Hc1 Hc2 Hc3) by lia.
    cbn [create_operator_node is_success negb]. cbv iota.
    rewrite parse_binary_rhs_eq. reflexivity.
  - (* the first operator takes the middle name *)
    assert (Hleft : (if false
                        || (get_precedence op1 =? get_precedence op2)
                           && is_right_associative op1
                     then parse_binary_rhs libm cs context 3
                            (get_precedence op1 + 1) (EXPR_NODE_VARIABLE b)
                            (String op2 c) EXPRLIB_SUCCESS
                     else Built (EXPR_NODE_VARIABLE b) (String op2 c)
                            EXPRLIB_SUCCESS)
                    = Built (EXPR_NODE_VARIABLE b) (String op2 c)
                        EXPRLIB_SUCCESS).
    { destruct (false || _ && _); [|reflexivity].
      rewrite parse_binary_rhs_eq. cbn zeta.
      cbn [skip_spaces]. rewrite Hspace2. cbn [peek].
      destruct (Z.ltb_spec (get_precedence op2) (get_precedence op1 + 1));
        [reflexivity | lia]. }
    rewrite Hleft.
    cbn [create_operator_node is_success negb]. cbv iota.
    apply (parse_binary_rhs_last 1 0 _ op2 c Hc1 Hc2 Hc3). lia.
Qed.

End Precedence.

(** X21 at ["a-b*c"], ["a*b-c"] and ["a^b^c"]. *)
Lemma operators_group_by_precedence_witness :
  exprlib_parse test_libm []
    [mkVariable "a" 1%float; mkVariable "b" 2%float; mkVariable "c" 3%float] "a-b*c"
  = Some (Some (EXPR_NODE_OPERATOR "-" (EXPR_NODE_VARIABLE "a")
                  (EXPR_NODE_OPERATOR "*" (EXPR_NODE_VARIABLE "b")
                     (EXPR_NODE_VARIABLE "c"))),
          EXPRLIB_SUCCESS)
  /\ exprlib_parse test_libm []
       [mkVariable "a" 1%float; mkVariable "b" 2%float; mkVariable "c" 3%float] "a*b-c"
     = Some (Some (EXPR_NODE_OPERATOR "-"
                     (EXPR_NODE_OPERATOR "*" (EXPR_NODE_VARIABLE "a")
                        (EXPR_NODE_VARIABLE "b"))
                     (EXPR_NODE_VARIABLE "c")),
             EXPRLIB_SUCCESS)
  /\ exprlib_parse test_libm []
       [mkVariable "a" 1%float; mkVariable "b" 2%float; mkVariable "c" 3%float] "a^b^c"
     = Some (Some (EXPR_NODE_OPERATOR "^"
                     (EXPR_NODE_OPERATOR "^" (EXPR_NODE_VARIABLE "a")
                        (EXPR_NODE_VARIABLE "b"))
                     (EXPR_NODE_VARIABLE "c")),
             EXPRLIB_SUCCESS).
Proof.
  split; [|split].
  - apply (operators_group_by_precedence test_libm []
             [mkVariable "a" 1%float; mkVariable "b" 2%float;
              mkVariable "c" 3%float] "a" "b" "c" "-" "*");
      cbn; repeat split; lia.
  - apply (operators_group_by_precedence test_libm []
             [mkVariable "a" 1%float; mkVariable "b" 2%float;
              mkVariable "c" 3%float] "a" "b" "c" "*" "-");
      cbn; repeat split; lia.
  - apply (operators_group_by_precedence test_libm []
             [mkVariable "a" 1%float; mkVariable "b" 2%float;
              mkVariable "c" 3%float] "a" "b" "c" "^" "^");
      cbn; repeat split; lia.
Defined.

(** ** Unary minus *)

Section Negation.

Variable libm : Libm.
Variable cs : list ExprLibConstant.
Variable context : ExprContext.

Lemma parse_unary_minus (fuel : nat) (s : string) (e : ExprLibError) :
  parse_unary libm cs context (S fuel) (String "-" s) e
  = match parse_unary libm cs context fuel s e with
    | Starved => Starved
    | Null e => Null e
    | Built operand s e =>
        if negb (is_success e) then Null e
        else Built
               (EXPR_NODE_OPERATOR "-" (EXPR_NODE_NUMBER 0) operand) s
               EXPRLIB_SUCCESS
    end.
Proof.
  rewrite parse_unary_eq. cbn.
  destruct (parse_unary libm cs context fuel s e) as [operand s' e'| |];
    reflexivity.
Qed.

(** X22: a minus sign before an operand makes the difference of the
    number 0 and that operand, and takes the operand only: the binary
    operator that follows, whatever its precedence ([^] included), has the
    whole difference as its left operand. *)
Theorem unary_minus_binds_tightest (a b : string) (op : ascii)
  (Ha : is_alpha (peek a) = true /\ scan_identifier a = (a, "")
        /\ is_defined_variable cs a context = true)
  (Hb : is_alpha (peek b) = true /\ scan_identifier b = (b, "")
        /\ is_defined_variable cs b context = true)
  (Hop : 0 <= get_precedence op) :
  exprlib_parse libm cs context ("-" ++ a ++ String op b)
  = Some
      (Some
         (EXPR_NODE_OPERATOR op
            (EXPR_NODE_OPERATOR "-" (EXPR_NODE_NUMBER 0)
               (EXPR_NODE_VARIABLE a))
            (EXPR_NODE_VARIABLE b)),
       EXPRLIB_SUCCESS).
Proof.
  destruct Ha as (Ha1 & Ha2 & Ha3), Hb as (Hb1 & Hb2 & Hb3).
  unfold exprlib_parse.
  rewrite (parse_within_budget libm cs context 4
             ("-" ++ a ++ String op b)
             (Built
                (EXPR_NODE_OPERATOR op
                   (EXPR_NODE_OPERATOR "-" (EXPR_NODE_NUMBER 0)
                      (EXPR_NODE_VARIABLE a))
                   (EXPR_NODE_VARIABLE b)) "" EXPRLIB_SUCCESS));
    [reflexivity| |discriminate].
  rewrite parse_internal_eq.
  change ("-" ++ a ++ String op b) with (String "-" (a ++ String op b)).
  rewrite parse_unary_minus.
  rewrite (parse_unary_name_operator libm cs context 1 a op _ _
             Ha1 Ha2 Ha3 Hop).
  cbn [is_success negb]. cbv iota.
  apply (parse_binary_rhs_last libm cs context 1 0 _ op b Hb1 Hb2 Hb3).
  lia.
Qed.

End Negation.

(** X22 at ["-x^n"]. *)
Lemma unary_minus_binds_tightest_witness :
  exprlib_parse test_libm []
    [mkVariable "x" 3%float; mkVariable "n" 2%float] "-x^n"
  = Some
      (Some
         (EXPR_NODE_OPERATOR "^"
            (EXPR_NODE_OPERATOR "-" (EXPR_NODE_NUMBER 0)
               (EXPR_NODE_VARIABLE "x"))
            (EXPR_NODE_VARIABLE "n")),
       EXPRLIB_SUCCESS).
Proof.
  apply (unary_minus_binds_tightest test_libm []
           [mkVariable "x" 3%float; mkVariable "n" 2%float] "x" "n" "^");
    cbn; repeat split; lia.
Defined.

(** ** Depth of the recursion *)

(** X23: the parser returns on every text, and the four parsing functions
    are never nested more than three deep per character of the text (plus
    three): the budget [parse_budget], which counts the nested calls, is
    not exhausted. *)
Theorem parse_depth_is_linear (libm : Libm) (cs : list ExprLibConstant)
  (context : ExprContext) (text : string) :
  parse_internal libm cs context (3 * String.length text + 3) text
    EXPRLIB_SUCCESS
  <> Starved
  /\ exists result, exprlib_parse libm cs context text = Some result.
Proof.
  assert (H : parse_internal libm cs context (parse_budget text) text
                EXPRLIB_SUCCESS <> Starved)
    by apply parse_budget_suffices.
  split; [exact H|].
  unfold exprlib_parse.
  destruct (parse_internal libm cs context (parse_budget text) text
              EXPRLIB_SUCCESS); [eauto | eauto | contradiction].
Qed.

(** ** The error an evaluation ends with *)

(** A built-in leaves [EXPRLIB_ERROR] as it found it, or sets
    [EXPRLIB_ERROR_INVALID_ARGUMENT]. *)
Lemma builtin_error (libm : Libm) (name : string) (fn : ExprLibFunction) :
  find_function (g_functions (initialized libm)) name = Some fn ->
  forall argv e v e',
    fn_ptr fn argv e = Returned v e' ->
    e' = e \/ e' = EXPRLIB_ERROR_INVALID_ARGUMENT.
Proof.
  intros Hfind argv e v e'.
  change (g_functions (initialized libm))
    with [mkFunction "sin" 1 (fn_sin libm); mkFunction "cos" 1 (fn_cos libm);
          mkFunction "tan" 1 (fn_tan libm); mkFunction "cot" 1 (fn_cot libm);
          mkFunction "sec" 1 (fn_sec libm);
          mkFunction "cosec" 1 (fn_cosec libm);
          mkFunction "asin" 1 (fn_asin libm);
          mkFunction "acos" 1 (fn_acos libm);
          mkFunction "atan" 1 (fn_atan libm);
          mkFunction "pow" 2 (fn_pow libm); mkFunction "sqrt" 1 fn_sqrt;
          mkFunction "cbrt" 1 (fn_cbrt libm); mkFunction "ln" 1 (fn_log libm);
          mkFunction "log10" 1 (fn_log10 libm);
          mkFunction "exp" 1 (fn_exp libm); mkFunction "abs" 1 fn_abs;
          mkFunction "floor" 1 (fn_floor libm);
          mkFunction "ceil" 1 (fn_ceil libm);
          mkFunction "round" 1 (fn_round libm);
          mkFunction "deg2rad" 1 fn_deg2rad;
          mkFunction "rad2deg" 1 fn_rad2deg; mkFunction "min" (-1) fn_min;
          mkFunction "max" (-1) fn_max; mkFunction "factorial" 1 factorial;
          mkFunction "nCr" 2 nCr; mkFunction "nPr" 2 nPr] in Hfind.
  cbn [find_function fn_name] in Hfind.
  repeat match type of Hfind with
         | context [String.eqb ?builtin name] =>
             destruct (String.eqb_spec builtin name) as [Hname|_];
             [subst name; injection Hfind as <- | ]
         end;
    try discriminate Hfind;
    cbn [fn_ptr];
    cbv [fn_sin fn_cos fn_tan fn_cot fn_sec fn_cosec fn_asin fn_acos
         fn_atan fn_pow fn_sqrt fn_cbrt fn_log fn_log10 fn_exp fn_abs
         fn_floor fn_ceil fn_round fn_deg2rad fn_rad2deg unary_builtin
         fn_min fn_max factorial nCr nPr];
    destruct argv as [|x [|y [|z argv]]];
    repeat match goal with
           | |- context [if ?b then _ else _] => destruct b
           | |- context [match factorial_value ?a with _ => _ end] =>
               destruct (factorial_value a)
           end;
    intros H; try discriminate H; injection H as _ <-; auto.
Qed.

Section EvaluationCodes.

Variable libm : Libm.
Variable cs : list ExprLibConstant.
Variable context : ExprContext.

Lemma evaluate_node_code (node : ExprNode) :
  forall st,
    is_evaluation_code (error st) = true ->
    is_evaluation_code
      (final_error
         (evaluate_node libm (g_functions (initialized libm)) cs context
            node st))
    = true.
Proof.
  induction node as [v|name|op l r IHl IHr|name args IHargs]
    using ExprNode_nested_ind; intros st Hst.
  - exact Hst.
  - cbn [evaluate_node]. destruct (find_constant cs name); [exact Hst|].
    destruct (find_variable context name); [exact Hst | reflexivity].
  - cbn [evaluate_node].
    specialize (IHl st Hst).
    destruct (evaluate_node _ _ cs context l st) as [lv st1|st1|st1];
      [|exact IHl|exact IHl].
    cbn [final_error] in IHl.
    destruct (negb (is_success (error st1))); [exact IHl|].
    specialize (IHr st1 IHl).
    destruct (evaluate_node _ _ cs context r st1) as [rv st2|st2|st2];
      [|exact IHr|exact IHr].
    cbn [final_error] in IHr.
    destruct (negb (is_success (error st2))); [exact IHr|].
    unfold apply_operator.
    repeat match goal with
           | |- context [if ?b then _ else _] => destruct b
           end; first [exact IHr | reflexivity].
  - rewrite evaluate_call.
    destruct (find_function (g_functions (initialized libm)) name)
      as [fn|] eqn:Hfind; [|reflexivity].
    destruct (negb (fn_arity fn =? -1)
              && negb (fn_arity fn =? Z.of_nat (List.length args)));
      [reflexivity|].
    assert (Hfill : forall argv st0,
               is_evaluation_code (error st0) = true ->
               is_evaluation_code
                 match argument_loop libm (g_functions (initialized libm))
                         cs context args argv st0 with
                 | inl (_, st') => error st'
                 | inr no_return => final_error no_return
                 end
               = true).
    { clear Hfind. induction IHargs as [|arg rest Harg _ IHrest];
        intros argv st0 Hst0; cbn [argument_loop]; [exact Hst0|].
      specialize (Harg st0 Hst0).
      destruct (evaluate_node _ _ cs context arg st0) as [v st1|st1|st1];
        [apply IHrest; exact Harg | exact Harg | exact Harg]. }
    specialize (Hfill [] st Hst).
    destruct (argument_loop libm (g_functions (initialized libm)) cs context
                args [] st) as [[argv st']|no_return]; [|exact Hfill].
    unfold invoke.
    destruct (fn_ptr fn argv (error st')) as [v e'| |] eqn:Hcall;
      [|exact Hfill|exact Hfill].
    cbn [final_error error].
    destruct (builtin_error libm name fn Hfind argv (error st') v e' Hcall)
      as [-> | ->]; [exact Hfill | reflexivity].
Qed.

End EvaluationCodes.

(** X24: with the built-in functions only, [EXPRLIB_ERROR] after
    [exprlib_evaluate] is [EXPRLIB_SUCCESS] or one of
    [EXPRLIB_ERROR_SYNTAX], [EXPRLIB_ERROR_UNDEFINED_VARIABLE],
    [EXPRLIB_ERROR_DIVISION_BY_ZERO], [EXPRLIB_ERROR_INVALID_ARGUMENT] and
    [EXPRLIB_ERROR_UNKNOWN], for every tree (the [NULL] tree too), every
    context and whatever constants are registered. An unknown function is
    reported with [EXPRLIB_ERROR_UNKNOWN]: no evaluation ends with
    [EXPRLIB_ERROR_FUNCTION_NOT_FOUND]. *)
Theorem evaluation_ends_with_one_of_six_codes (libm : Libm) (g : Globals)
  (expr : option ExprNode) (context : ExprContext) :
  is_evaluation_code
    (final_error (exprlib_evaluate libm (exprlib_init libm g) expr context))
  = true
  /\ final_error (exprlib_evaluate libm (exprlib_init libm g) expr context)
     <> EXPRLIB_ERROR_FUNCTION_NOT_FOUND.
Proof.
  assert (Hcode : is_evaluation_code
                    (final_error
                       (exprlib_evaluate libm (exprlib_init libm g) expr
                          context))
                  = true).
  { destruct expr as [node|]; [|reflexivity].
    unfold exprlib_evaluate.
    replace (g_functions (exprlib_init libm g))
      with (g_functions (initialized libm))
      by (destruct g; reflexivity).
    apply (evaluate_node_code libm (g_constants (exprlib_init libm g))
             context node (mkEval EXPRLIB_SUCCESS [])).
    reflexivity. }
  split; [exact Hcode|].
  intros Hnot. rewrite Hnot in Hcode. discriminate Hcode.
Qed.
